(** * art-tauri: the overlay display controller and the hotkey recorder

    A shallow embedding of the two Svelte components of the front end,
    [src/lib/components/ArtOverlay.svelte] and
    [src/lib/components/SettingsPanel.svelte], as event-driven state
    machines over an explicit model of the browser host (clock, timer
    table, window listeners, backend command log), and of the CSV reader
    and the join of [scripts/build-nga-catalog.ts].

    Conventions.
    - A JavaScript string is a [string]; every [ascii] stands for one code
      unit, so [String.length] is the [.length] of the source.
    - An object of type [Artwork] is a record value together with the
      reference it lives at ([ArtObj]). A [$state] variable that is
      assigned such an object holds a reactive proxy of it, created by the
      assignment ([Proxy]); [===] and [!==] compare references, and on the
      values of two [$state] variables these are the proxies'.
    - [setTimeout] allocates handles 1, 2, 3, ... and never reuses one;
      a timer fires no earlier than its due time.
    - Time is a natural number of milliseconds. *)

From Stdlib Require Import Ascii.
From stdpp Require Import gmap strings list fin_maps.

Open Scope string_scope.
Open Scope nat_scope.
Open Scope list_scope.

(** ** Host timers: [setTimeout] / [clearTimeout] *)

Module Timers.
Section Table.
Context {C : Type}.

Record Timer := { due : nat; cb : C }.

Record Table := {
  armed : gmap nat Timer;
  next_handle : nat
}.

Definition empty : Table := {| armed := ∅; next_handle := 1 |}.

(** [setTimeout(cb, delay)] at time [now]: returns the fresh handle. *)
Definition setTimeout (now : nat) (c : C) (delay : nat) (tb : Table)
  : nat * Table :=
  (next_handle tb,
   {| armed := <[next_handle tb := {| due := now + delay; cb := c |}]> (armed tb);
      next_handle := S (next_handle tb) |}).

(** [clearTimeout(h)]: unknown or already fired handles are ignored. *)
Definition clearTimeout (h : nat) (tb : Table) : Table :=
  {| armed := delete h (armed tb); next_handle := next_handle tb |}.

(** A timer that fires leaves the table before its callback runs. *)
Definition fire (h : nat) (tb : Table) : Table := clearTimeout h tb.
End Table.
Arguments Timer : clear implicits.
Arguments Table : clear implicits.
End Timers.

(** JavaScript truthiness of a variable of type
    [ReturnType<typeof setTimeout> | null]: [null] and [0] are falsy. *)
Definition truthy_handle (h : option nat) : bool :=
  match h with
  | Some n => negb (n =? 0)
  | None => false
  end.

(** How a promise returned by [invoke] settles. *)
Inductive Settled (A : Type) :=
| Resolved (v : A)
| Rejected (e : string).
Arguments Resolved {A} v.
Arguments Rejected {A} e.

(** ** The Accelerator Normalizer and the Hotkey Recorder
       ([SettingsPanel.svelte]) *)

Module SettingsPanel.

(** The fields of a [KeyboardEvent] that [onKeyDown] reads. *)
Record KeyboardEvent := {
  key : string;
  ctrlKey : bool;
  metaKey : bool;
  shiftKey : bool;
  altKey : bool
}.

(** Result of normalising one key press. *)
Inductive Normalized :=
| Skip
| Accelerator (s : string).

(** [["Control", "Shift", "Alt", "Meta"].includes(e.key)] *)
Definition is_bare_modifier (k : string) : bool :=
  bool_decide (k ∈ ["Control"; "Shift"; "Alt"; "Meta"]).

(** [parts.join("+")] *)
Definition join_plus (parts : list string) : string :=
  String.concat "+" parts.

(** [String.prototype.toUpperCase] restricted to ASCII code units. *)
Definition ascii_upper (c : ascii) : ascii :=
  let n := nat_of_ascii c in
  if (97 <=? n) && (n <=? 122) then ascii_of_nat (n - 32) else c.

Fixpoint ascii_toUpperCase (s : string) : string :=
  match s with
  | EmptyString => EmptyString
  | String c r => String (ascii_upper c) (ascii_toUpperCase r)
  end.

(** [String(e)] for the rejection value of [invoke], which is the error
    string of the backend command. *)
Definition String_ (e : string) : string := e.

(** Commands of the Settings Service. *)
Inductive Command :=
| get_hotkey
| set_hotkey (hotkey : string).

(** The only timer callback of the panel: [() => (saved = false)]. *)
Inductive Callback := CbClearSaved.

Section Recorder.
(** [String.prototype.toUpperCase] of the JavaScript runtime. *)
Variable toUpperCase : string → string.

(** The modifier prefix pushed onto [parts], in source order. *)
Definition modifier_parts (e : KeyboardEvent) : list string :=
  (if metaKey e || ctrlKey e then ["CmdOrCtrl"] else []) ++
  (if shiftKey e then ["Shift"] else []) ++
  (if altKey e then ["Alt"] else []).

(** "Map key to Tauri format". *)
Definition map_key (k : string) : string :=
  if bool_decide (k = " ") then "Space"
  else if String.length k =? 1 then toUpperCase k
  else k.

(** The pure part of [onKeyDown]: from the event to the new [hotkey]. *)
Definition normalize (e : KeyboardEvent) : Normalized :=
  if is_bare_modifier (key e) then Skip
  else Accelerator (join_plus (modifier_parts e ++ [map_key (key e)])).

(** The normalizer as the specification words it (section 4.1): [skip]
    for a bare modifier, otherwise the optional prefixes [CmdOrCtrl+],
    [Shift+], [Alt+] in that order, followed by the mapped terminal key. *)
Definition spec_terminal (k : string) : string :=
  if decide (k = " ") then "Space"
  else if decide (String.length k = 1) then toUpperCase k
  else k.

Definition spec_normalize (e : KeyboardEvent) : Normalized :=
  if decide (key e = "Control" ∨ key e = "Shift" ∨ key e = "Alt" ∨ key e = "Meta")
  then Skip
  else Accelerator
         ((if ctrlKey e || metaKey e then "CmdOrCtrl+" else "") +:+
          (if shiftKey e then "Shift+" else "") +:+
          (if altKey e then "Alt+" else "") +:+
          spec_terminal (key e)).

(** *** Component state and its host

    The four [$state] variables of the script, followed by the part of
    the browser host the component acts on. *)
Record State := {
  hotkey : string;
  recording : bool;
  saved : bool;
  error : string;
  (** [keydown] listeners registered on [window], oldest first; each
      call of [startRecording] creates a new closure [onKeyDown]. *)
  keydown : list nat;
  next_closure : nat;
  now : nat;
  timers : Timers.Table Callback;
  (** commands sent to the Settings Service, oldest first *)
  invoked : list Command;
  (** [saveHotkey] activations suspended at [await invoke(...)] *)
  saves_pending : nat;
  (** the [get_hotkey] promise of [onMount] has not settled yet *)
  get_pending : bool;
  mounted : bool
}.

Definition with_hotkey v s :=
  {| hotkey := v; recording := recording s; saved := saved s; error := error s;
     keydown := keydown s; next_closure := next_closure s; now := now s;
     timers := timers s; invoked := invoked s; saves_pending := saves_pending s;
     get_pending := get_pending s; mounted := mounted s |}.
Definition with_recording v s :=
  {| hotkey := hotkey s; recording := v; saved := saved s; error := error s;
     keydown := keydown s; next_closure := next_closure s; now := now s;
     timers := timers s; invoked := invoked s; saves_pending := saves_pending s;
     get_pending := get_pending s; mounted := mounted s |}.
Definition with_saved v s :=
  {| hotkey := hotkey s; recording := recording s; saved := v; error := error s;
     keydown := keydown s; next_closure := next_closure s; now := now s;
     timers := timers s; invoked := invoked s; saves_pending := saves_pending s;
     get_pending := get_pending s; mounted := mounted s |}.
Definition with_error v s :=
  {| hotkey := hotkey s; recording := recording s; saved := saved s; error := v;
     keydown := keydown s; next_closure := next_closure s; now := now s;
     timers := timers s; invoked := invoked s; saves_pending := saves_pending s;
     get_pending := get_pending s; mounted := mounted s |}.
Definition with_keydown v s :=
  {| hotkey := hotkey s; recording := recording s; saved := saved s; error := error s;
     keydown := v; next_closure := next_closure s; now := now s;
     timers := timers s; invoked := invoked s; saves_pending := saves_pending s;
     get_pending := get_pending s; mounted := mounted s |}.
Definition with_next_closure v s :=
  {| hotkey := hotkey s; recording := recording s; saved := saved s; error := error s;
     keydown := keydown s; next_closure := v; now := now s;
     timers := timers s; invoked := invoked s; saves_pending := saves_pending s;
     get_pending := get_pending s; mounted := mounted s |}.
Definition with_now v s :=
  {| hotkey := hotkey s; recording := recording s; saved := saved s; error := error s;
     keydown := keydown s; next_closure := next_closure s; now := v;
     timers := timers s; invoked := invoked s; saves_pending := saves_pending s;
     get_pending := get_pending s; mounted := mounted s |}.
Definition with_timers v s :=
  {| hotkey := hotkey s; recording := recording s; saved := saved s; error := error s;
     keydown := keydown s; next_closure := next_closure s; now := now s;
     timers := v; invoked := invoked s; saves_pending := saves_pending s;
     get_pending := get_pending s; mounted := mounted s |}.
Definition with_invoked v s :=
  {| hotkey := hotkey s; recording := recording s; saved := saved s; error := error s;
     keydown := keydown s; next_closure := next_closure s; now := now s;
     timers := timers s; invoked := v; saves_pending := saves_pending s;
     get_pending := get_pending s; mounted := mounted s |}.
Definition with_saves_pending v s :=
  {| hotkey := hotkey s; recording := recording s; saved := saved s; error := error s;
     keydown := keydown s; next_closure := next_closure s; now := now s;
     timers := timers s; invoked := invoked s; saves_pending := v;
     get_pending := get_pending s; mounted := mounted s |}.
Definition with_get_pending v s :=
  {| hotkey := hotkey s; recording := recording s; saved := saved s; error := error s;
     keydown := keydown s; next_closure := next_closure s; now := now s;
     timers := timers s; invoked := invoked s; saves_pending := saves_pending s;
     get_pending := v; mounted := mounted s |}.
Definition with_mounted v s :=
  {| hotkey := hotkey s; recording := recording s; saved := saved s; error := error s;
     keydown := keydown s; next_closure := next_closure s; now := now s;
     timers := timers s; invoked := invoked s; saves_pending := saves_pending s;
     get_pending := get_pending s; mounted := v |}.

(** [invoke(cmd)]: the request goes out; its promise settles later. *)
Definition invoke (c : Command) (s : State) : State :=
  with_invoked (invoked s ++ [c]) s.

(** [window.addEventListener("keydown", onKeyDown)] for a new closure. *)
Definition addEventListener_keydown (s : State) : State :=
  with_next_closure (S (next_closure s))
    (with_keydown (keydown s ++ [next_closure s]) s).

(** [window.removeEventListener("keydown", onKeyDown)] *)
Definition removeEventListener_keydown (self : nat) (s : State) : State :=
  with_keydown (filter (λ l, l ≠ self) (keydown s)) s.

(** The script's initial values, then [onMount]. *)
Definition initial : State :=
  {| hotkey := ""; recording := false; saved := false; error := "";
     keydown := []; next_closure := 0; now := 0; timers := Timers.empty;
     invoked := []; saves_pending := 0; get_pending := false;
     mounted := false |}.

Definition onMount (s : State) : State :=
  with_mounted true (with_get_pending true (invoke get_hotkey s)).

(** [.then((hk) => { hotkey = hk; })] *)
Definition get_hotkey_then (hk : string) (s : State) : State :=
  with_get_pending false (with_hotkey hk s).

Definition startRecording (s : State) : State :=
  addEventListener_keydown
    (with_saved false (with_error "" (with_recording true s))).

(** The closure [onKeyDown] created by one call of [startRecording];
    [self] is the closure's identity, used by [removeEventListener]. *)
Definition onKeyDown (self : nat) (e : KeyboardEvent) (s : State) : State :=
  match normalize e with
  | Skip => s
  | Accelerator hk =>
      removeEventListener_keydown self
        (with_recording false (with_hotkey hk s))
  end.

(** The window dispatches a [keydown] event to the listeners registered
    when the dispatch starts, in order, skipping one removed meanwhile. *)
Definition dispatch_keydown (e : KeyboardEvent) (s : State) : State :=
  foldl (λ st l, if bool_decide (l ∈ keydown st) then onKeyDown l e st else st)
        s (keydown s).

(** [saveHotkey] up to its [await]: the request carries the current
    working value. *)
Definition saveHotkey_call (s : State) : State :=
  with_saves_pending (S (saves_pending s)) (invoke (set_hotkey (hotkey s)) s).

(** [() => (saved = false)] *)
Definition clear_saved (s : State) : State := with_saved false s.

(** [saveHotkey] from its [await] on, for either outcome of the promise. *)
Definition saveHotkey_settled (r : Settled unit) (s : State) : State :=
  let s := with_saves_pending (pred (saves_pending s)) s in
  match r with
  | Resolved _ =>
      let s := with_error "" (with_saved true s) in
      with_timers (snd (Timers.setTimeout (now s) CbClearSaved 2000 (timers s))) s
  | Rejected e => with_error (String_ e) s
  end.

(** The component registers no cleanup ([onMount] returns nothing, there
    is no [onDestroy] and no [$effect]): unmounting removes the DOM of
    the panel and runs no code of the script. *)
Definition unmount (s : State) : State := with_mounted false s.

(** The Save button is [disabled={recording || !hotkey}]. *)
Definition save_disabled (s : State) : bool :=
  recording s || bool_decide (hotkey s = "").

Inductive Event :=
| ClickRecord
| ClickSave
| KeyDown (e : KeyboardEvent)
| GetHotkeyResolved (hk : string)
| SetHotkeySettled (r : Settled unit)
| TimerFired (h : nat)
| Unmount.

(** One turn of the event loop at time [t]; [None] when the host cannot
    deliver [ev] in [s] at that time. *)
Definition step (s : State) (t : nat) (ev : Event) : option State :=
  if t <? now s then None else
  let s := with_now t s in
  match ev with
  | ClickRecord => if mounted s then Some (startRecording s) else None
  | ClickSave =>
      if mounted s && negb (save_disabled s) then Some (saveHotkey_call s)
      else None
  | KeyDown e => Some (dispatch_keydown e s)
  | GetHotkeyResolved hk =>
      if get_pending s then Some (get_hotkey_then hk s) else None
  | SetHotkeySettled r =>
      if 0 <? saves_pending s then Some (saveHotkey_settled r s) else None
  | TimerFired h =>
      match Timers.armed (timers s) !! h with
      | Some tm =>
          if Timers.due tm <=? t then
            let s := with_timers (Timers.fire h (timers s)) s in
            match Timers.cb tm with
            | CbClearSaved => Some (clear_saved s)
            end
          else None
      | None => None
      end
  | Unmount => if mounted s then Some (unmount s) else None
  end.

(** Running a timed trace, failing at the first undeliverable event. *)
Fixpoint run (s : State) (tr : list (nat * Event)) : option State :=
  match tr with
  | [] => Some s
  | (t, ev) :: tr' =>
      match step s t ev with
      | Some s' => run s' tr'
      | None => None
      end
  end.
End Recorder.

(** *** Invariants of the reachable states *)

Record Inv (s : State) : Prop := {
  inv_recording : recording s = bool_decide (keydown s ≠ []);
  inv_closures : NoDup (keydown s);
  inv_fresh : Forall (λ l, l < next_closure s) (keydown s);
  inv_saved : saved s = true → Timers.armed (timers s) ≠ ∅;
  inv_due : ∀ h tm,
    Timers.armed (timers s) !! h = Some tm → Timers.due tm ≤ now s + 2000;
  inv_sent : ∀ hk, set_hotkey hk ∈ invoked s → hk ≠ ""
}.

End SettingsPanel.

(** ** The Artwork Buffer Controller and the Info-Bar Visibility Timer
       ([ArtOverlay.svelte]) *)

Module ArtOverlay.

(** [src/lib/types.ts] *)
Record Artwork := {
  id : string;
  title : string;
  artist : string;
  date : string;
  medium : string;
  source : string;
  image_base64 : string
}.

(** An [Artwork] object: the reference it lives at and its fields. Every
    payload handed to the component by the event layer or by [invoke] is a
    deserialised object of its own. *)
Record ArtObj := { ref : nat; fields : Artwork }.

(** What a [$state] variable of type [Artwork | null] holds when it is
    not [null]: the reactive proxy that the assignment wrapped the payload
    in. [pid] is the reference of the proxy, [target] the payload behind
    it. Assigning a payload creates a proxy; assigning a value that is a
    proxy already stores that very proxy. *)
Record Proxy := { pid : nat; target : ArtObj }.

(** [a === b] for the values [a], [b] of two [$state] variables of type
    [Artwork | null]: the same proxy, or both [null]. *)
Definition strict_eq (a b : option Proxy) : bool :=
  match a, b with
  | None, None => true
  | Some x, Some y => pid x =? pid y
  | _, _ => false
  end.

(** Truthiness of a value of type [Artwork | null]. *)
Definition truthy (a : option Proxy) : bool :=
  match a with Some _ => true | None => false end.

(** Commands sent to the Artwork Service with [invoke]. *)
Inductive Command :=
| overlay_ready
| get_current_artwork
| dismiss_overlays
| next_artwork
| prev_artwork.

#[export] Instance Command_eq_dec : EqDecision Command.
Proof. solve_decision. Defined.

(** Timer callbacks of the component: the closure of [resetInfoTimer],
    the safety timeout, and the [r] of the retry pause. *)
Inductive Callback := CbHideInfo | CbSafety | CbRetry.

#[export] Instance Callback_eq_dec : EqDecision Callback.
Proof. solve_decision. Defined.

(** The activation of the async function [loadArtwork]: its local
    variables and the [await] it is suspended at. *)
Record Frame := { attempt : nat; retries : nat }.

Inductive Loader :=
| NotStarted
| AwaitInvoke (fr : Frame)
| AwaitPause (fr : Frame)
| Returned.

Record State := {
  displayedArtwork : option Proxy;
  nextArtwork : option Proxy;
  showInfo : bool;
  infoTimer : option nat;
  loading : bool;
  shown : bool;
  (** the [const safetyTimeout] of the effect, once it has run *)
  safetyTimeout : option nat;
  loader : Loader;
  (** the effect's listeners ([artwork-changed], [keydown], [mousemove])
      are registered and the template is in the DOM *)
  mounted : bool;
  now : nat;
  timers : Timers.Table Callback;
  (** commands sent to the backend, oldest first *)
  invoked : list Command;
  (** [console.warn] output: attempt number and error, oldest first *)
  warnings : list (nat * string);
  (** number of proxies created so far; the next one gets this reference *)
  proxies : nat
}.

Definition with_displayedArtwork v s : State :=
  {| displayedArtwork := v; nextArtwork := nextArtwork s;
     showInfo := showInfo s; infoTimer := infoTimer s; loading := loading s;
     shown := shown s; safetyTimeout := safetyTimeout s; loader := loader s;
     mounted := mounted s; now := now s; timers := timers s;
     invoked := invoked s; warnings := warnings s; proxies := proxies s |}.
Definition with_nextArtwork v s : State :=
  {| displayedArtwork := displayedArtwork s; nextArtwork := v;
     showInfo := showInfo s; infoTimer := infoTimer s; loading := loading s;
     shown := shown s; safetyTimeout := safetyTimeout s; loader := loader s;
     mounted := mounted s; now := now s; timers := timers s;
     invoked := invoked s; warnings := warnings s; proxies := proxies s |}.
Definition with_showInfo v s : State :=
  {| displayedArtwork := displayedArtwork s; nextArtwork := nextArtwork s;
     showInfo := v; infoTimer := infoTimer s; loading := loading s;
     shown := shown s; safetyTimeout := safetyTimeout s; loader := loader s;
     mounted := mounted s; now := now s; timers := timers s;
     invoked := invoked s; warnings := warnings s; proxies := proxies s |}.
Definition with_infoTimer v s : State :=
  {| displayedArtwork := displayedArtwork s; nextArtwork := nextArtwork s;
     showInfo := showInfo s; infoTimer := v; loading := loading s;
     shown := shown s; safetyTimeout := safetyTimeout s; loader := loader s;
     mounted := mounted s; now := now s; timers := timers s;
     invoked := invoked s; warnings := warnings s; proxies := proxies s |}.
Definition with_loading v s : State :=
  {| displayedArtwork := displayedArtwork s; nextArtwork := nextArtwork s;
     showInfo := showInfo s; infoTimer := infoTimer s; loading := v;
     shown := shown s; safetyTimeout := safetyTimeout s; loader := loader s;
     mounted := mounted s; now := now s; timers := timers s;
     invoked := invoked s; warnings := warnings s; proxies := proxies s |}.
Definition with_shown v s : State :=
  {| displayedArtwork := displayedArtwork s; nextArtwork := nextArtwork s;
     showInfo := showInfo s; infoTimer := infoTimer s; loading := loading s;
     shown := v; safetyTimeout := safetyTimeout s; loader := loader s;
     mounted := mounted s; now := now s; timers := timers s;
     invoked := invoked s; warnings := warnings s; proxies := proxies s |}.
Definition with_safetyTimeout v s : State :=
  {| displayedArtwork := displayedArtwork s; nextArtwork := nextArtwork s;
     showInfo := showInfo s; infoTimer := infoTimer s; loading := loading s;
     shown := shown s; safetyTimeout := v; loader := loader s;
     mounted := mounted s; now := now s; timers := timers s;
     invoked := invoked s; warnings := warnings s; proxies := proxies s |}.
Definition with_loader v s : State :=
  {| displayedArtwork := displayedArtwork s; nextArtwork := nextArtwork s;
     showInfo := showInfo s; infoTimer := infoTimer s; loading := loading s;
     shown := shown s; safetyTimeout := safetyTimeout s; loader := v;
     mounted := mounted s; now := now s; timers := timers s;
     invoked := invoked s; warnings := warnings s; proxies := proxies s |}.
Definition with_mounted v s : State :=
  {| displayedArtwork := displayedArtwork s; nextArtwork := nextArtwork s;
     showInfo := showInfo s; infoTimer := infoTimer s; loading := loading s;
     shown := shown s; safetyTimeout := safetyTimeout s; loader := loader s;
     mounted := v; now := now s; timers := timers s; invoked := invoked s;
     warnings := warnings s; proxies := proxies s |}.
Definition with_now v s : State :=
  {| displayedArtwork := displayedArtwork s; nextArtwork := nextArtwork s;
     showInfo := showInfo s; infoTimer := infoTimer s; loading := loading s;
     shown := shown s; safetyTimeout := safetyTimeout s; loader := loader s;
     mounted := mounted s; now := v; timers := timers s;
     invoked := invoked s; warnings := warnings s; proxies := proxies s |}.
Definition with_timers v s : State :=
  {| displayedArtwork := displayedArtwork s; nextArtwork := nextArtwork s;
     showInfo := showInfo s; infoTimer := infoTimer s; loading := loading s;
     shown := shown s; safetyTimeout := safetyTimeout s; loader := loader s;
     mounted := mounted s; now := now s; timers := v; invoked := invoked s;
     warnings := warnings s; proxies := proxies s |}.
Definition with_invoked v s : State :=
  {| displayedArtwork := displayedArtwork s; nextArtwork := nextArtwork s;
     showInfo := showInfo s; infoTimer := infoTimer s; loading := loading s;
     shown := shown s; safetyTimeout := safetyTimeout s; loader := loader s;
     mounted := mounted s; now := now s; timers := timers s; invoked := v;
     warnings := warnings s; proxies := proxies s |}.
Definition with_warnings v s : State :=
  {| displayedArtwork := displayedArtwork s; nextArtwork := nextArtwork s;
     showInfo := showInfo s; infoTimer := infoTimer s; loading := loading s;
     shown := shown s; safetyTimeout := safetyTimeout s; loader := loader s;
     mounted := mounted s; now := now s; timers := timers s;
     invoked := invoked s; warnings := v; proxies := proxies s |}.
Definition with_proxies v s : State :=
  {| displayedArtwork := displayedArtwork s; nextArtwork := nextArtwork s;
     showInfo := showInfo s; infoTimer := infoTimer s; loading := loading s;
     shown := shown s; safetyTimeout := safetyTimeout s; loader := loader s;
     mounted := mounted s; now := now s; timers := timers s;
     invoked := invoked s; warnings := warnings s; proxies := v |}.

(** The script's initial values. *)
Definition initial : State :=
  {| displayedArtwork := None; nextArtwork := None; showInfo := true;
     infoTimer := None; loading := true; shown := false;
     safetyTimeout := None; loader := NotStarted; mounted := false;
     now := 0; timers := Timers.empty; invoked := []; warnings := [];
     proxies := 0 |}.

Definition invoke (c : Command) (s : State) : State :=
  with_invoked (invoked s ++ [c]) s.

Definition setTimeout (c : Callback) (delay : nat) (s : State) : nat * State :=
  let r := Timers.setTimeout (now s) c delay (timers s) in
  (fst r, with_timers (snd r) s).

Definition clearTimeout (h : nat) (s : State) : State :=
  with_timers (Timers.clearTimeout h (timers s)) s.

(** [if (h) clearTimeout(h)] *)
Definition clear_if_truthy (h : option nat) (s : State) : State :=
  match h with
  | Some n => if truthy_handle h then clearTimeout n s else s
  | None => s
  end.

Definition onImageLoaded (s : State) : State :=
  let s := with_displayedArtwork (nextArtwork s) s in
  let s := with_nextArtwork None s in
  let s := with_loading false s in
  if negb (shown s) then invoke overlay_ready (with_shown true s) else s.

Definition resetInfoTimer (s : State) : State :=
  let s := with_showInfo true s in
  let s := clear_if_truthy (infoTimer s) s in
  let r := setTimeout CbHideInfo 4000 s in
  with_infoTimer (Some (fst r)) (snd r).

(** [() => { showInfo = false; }] *)
Definition hide_info (s : State) : State := with_showInfo false s.

(** [nextArtwork = payload], for a payload that comes from outside the
    component: the variable gets a proxy of its own, created by this
    assignment. *)
Definition assign_nextArtwork (payload : ArtObj) (s : State) : State :=
  with_proxies (S (proxies s))
    (with_nextArtwork (Some {| pid := proxies s; target := payload |}) s).

(** The callback given to [listen("artwork-changed", ...)]. *)
Definition on_artwork_changed (payload : ArtObj) (s : State) : State :=
  resetInfoTimer (assign_nextArtwork payload s).

(** *** [loadArtwork] *)

(** The loop test and, when it passes, the body up to [await invoke]. *)
Definition loop_head (fr : Frame) (s : State) : State :=
  if attempt fr <? retries fr
  then with_loader (AwaitInvoke fr) (invoke get_current_artwork s)
  else with_loader Returned s.

Definition next_attempt (fr : Frame) : Frame :=
  {| attempt := S (attempt fr); retries := retries fr |}.

(** After the [try]: pause before the next attempt unless it was the last. *)
Definition after_try (fr : Frame) (s : State) : State :=
  if attempt fr <? retries fr - 1
  then with_loader (AwaitPause fr) (snd (setTimeout CbRetry 200 s))
  else loop_head (next_attempt fr) s.

(** [console.warn(`get_current_artwork attempt ${attempt + 1} failed:`, e)] *)
Definition warn (fr : Frame) (e : string) (s : State) : State :=
  with_warnings (warnings s ++ [(attempt fr + 1, e)]) s.

(** Resuming at [await invoke(...)] with the settled promise. *)
Definition resume_invoke (r : Settled (option ArtObj)) (s : State) : State :=
  match loader s with
  | AwaitInvoke fr =>
      match r with
      | Resolved (Some art) =>
          with_loader Returned (resetInfoTimer (assign_nextArtwork art s))
      | Resolved None => after_try fr s
      | Rejected e => after_try fr (warn fr e s)
      end
  | _ => s
  end.

(** Resuming at [await new Promise((r) => setTimeout(r, 200))]. *)
Definition resume_pause (s : State) : State :=
  match loader s with
  | AwaitPause fr => loop_head (next_attempt fr) s
  | _ => s
  end.

(** [loadArtwork(retries = 3)] up to its first [await]. *)
Definition loadArtwork (n : nat) (s : State) : State :=
  loop_head {| attempt := 0; retries := n |} s.

(** *** Input handlers *)

Definition onKeyDown (k : string) (s : State) : State :=
  if bool_decide (k = "Escape") then invoke dismiss_overlays s
  else if bool_decide (k = "ArrowRight") || bool_decide (k = " ")
  then invoke next_artwork (with_loading true s)
  else if bool_decide (k = "ArrowLeft")
  then invoke prev_artwork (with_loading true s)
  else s.

Definition onMouseMove (s : State) : State := resetInfoTimer s.

(** The callback of the safety timeout. *)
Definition safety (s : State) : State :=
  if negb (shown s) then invoke overlay_ready (with_shown true s) else s.

(** *** The effect and its cleanup *)

Definition effect (s : State) : State :=
  let s := with_mounted true s in
  let s := loadArtwork 3 s in
  let r := setTimeout CbSafety 3000 s in
  with_safetyTimeout (Some (fst r)) (snd r).

Definition cleanup (s : State) : State :=
  let s := with_mounted false s in
  let s := clear_if_truthy (infoTimer s) s in
  match safetyTimeout s with
  | Some h => clearTimeout h s
  | None => s
  end.

(** The component right after [mount(ArtOverlay, ...)]. *)
Definition mount : State := effect initial.

(** [{#if nextArtwork && nextArtwork !== displayedArtwork}]: the second
    [<img>], whose [onload] is [onImageLoaded], is in the DOM. *)
Definition next_img_rendered (s : State) : bool :=
  mounted s && truthy (nextArtwork s)
  && negb (strict_eq (nextArtwork s) (displayedArtwork s)).

(** Events the host delivers to the component. [ImageLoaded a] is a
    [load] event on the second [<img>], raised by the browser for the
    image of [a]; the handler gets no argument. *)
Inductive Event :=
| ArtworkChanged (payload : ArtObj)
| ImageLoaded (a : ArtObj)
| KeyDown (k : string)
| MouseMove
| GetCurrentSettled (r : Settled (option ArtObj))
| TimerFired (h : nat)
| Teardown.

(** The state once timer [h] has left the table, before its callback. *)
Definition fired (h : nat) (s : State) : State :=
  with_timers (Timers.fire h (timers s)) s.

Definition run_callback (c : Callback) (s : State) : State :=
  match c with
  | CbHideInfo => hide_info s
  | CbSafety => safety s
  | CbRetry => resume_pause s
  end.

Definition awaiting_invoke (s : State) : bool :=
  match loader s with AwaitInvoke _ => true | _ => false end.

(** One turn of the event loop at time [t]; [None] when the host cannot
    deliver [ev] in [s] at that time. *)
Definition step (s : State) (t : nat) (ev : Event) : option State :=
  if t <? now s then None else
  let s := with_now t s in
  match ev with
  | ArtworkChanged p => if mounted s then Some (on_artwork_changed p s) else None
  | ImageLoaded _ => if next_img_rendered s then Some (onImageLoaded s) else None
  | KeyDown k => if mounted s then Some (onKeyDown k s) else None
  | MouseMove => if mounted s then Some (onMouseMove s) else None
  | GetCurrentSettled r =>
      if awaiting_invoke s then Some (resume_invoke r s) else None
  | TimerFired h =>
      match Timers.armed (timers s) !! h with
      | Some tm =>
          if Timers.due tm <=? t
          then Some (run_callback (Timers.cb tm) (fired h s))
          else None
      | None => None
      end
  | Teardown => if mounted s then Some (cleanup s) else None
  end.

(** Running a timed trace, failing at the first undeliverable event. *)
Fixpoint run (s : State) (tr : list (nat * Event)) : option State :=
  match tr with
  | [] => Some s
  | (t, ev) :: tr' =>
      match step s t ev with
      | Some s' => run s' tr'
      | None => None
      end
  end.

(** *** Invariants of the reachable states *)

(** Number of times the command [c] was sent. *)
Definition sent (c : Command) (s : State) : nat :=
  length (filter (λ x, x = c) (invoked s)).

Definition safety_timer : Timers.Timer Callback :=
  {| Timers.due := 3000; Timers.cb := CbSafety |}.

(** The suspended [loadArtwork] agrees with the requests sent so far. *)
Definition loader_ok (s : State) : Prop :=
  match loader s with
  | NotStarted => False
  | AwaitInvoke fr =>
      retries fr = 3 ∧ attempt fr < 3 ∧ sent get_current_artwork s = S (attempt fr)
  | AwaitPause fr =>
      retries fr = 3 ∧ attempt fr < 2 ∧ sent get_current_artwork s = S (attempt fr)
  | Returned => sent get_current_artwork s ≤ 3
  end.

Record Inv (s : State) : Prop := {
  inv_safety_handle : safetyTimeout s = Some 1;
  inv_next_handle : 2 ≤ Timers.next_handle (timers s);
  inv_handles : ∀ h tm,
    Timers.armed (timers s) !! h = Some tm → h < Timers.next_handle (timers s);
  inv_first : ∀ tm, Timers.armed (timers s) !! 1 = Some tm → tm = safety_timer;
  inv_safety_unique : ∀ h tm,
    Timers.armed (timers s) !! h = Some tm → Timers.cb tm = CbSafety → h = 1;
  inv_safety_live :
    mounted s = true → shown s = false →
    Timers.armed (timers s) !! 1 = Some safety_timer;
  inv_info_unique : ∀ h tm,
    Timers.armed (timers s) !! h = Some tm → Timers.cb tm = CbHideInfo →
    infoTimer s = Some h;
  inv_info_handle : ∀ h,
    infoTimer s = Some h → 2 ≤ h ∧ h < Timers.next_handle (timers s);
  inv_reveal : sent overlay_ready s = if shown s then 1 else 0;
  inv_loader : loader_ok s
}.

(** The table after [if (infoTimer) clearTimeout(infoTimer)]. *)
Definition cleared (s : State) : gmap nat (Timers.Timer Callback) :=
  match infoTimer s with
  | Some h => if negb (h =? 0) then delete h (Timers.armed (timers s))
              else Timers.armed (timers s)
  | None => Timers.armed (timers s)
  end.

(** The events that can reveal the windows: a decode-complete and the
    firing of the safety timeout, which holds handle 1. *)
Definition reveals (ev : Event) : bool :=
  match ev with
  | ImageLoaded _ => true
  | TimerFired h => h =? 1
  | _ => false
  end.

(** The events that call [resetInfoTimer]. *)
Definition activity (ev : Event) : bool :=
  match ev with
  | ArtworkChanged _ | MouseMove | GetCurrentSettled (Resolved (Some _)) => true
  | _ => false
  end.

(** Every live info-bar countdown ends at least 4000 ms after each
    activity of the trace. *)
Definition quiet_since (tr : list (nat * Event)) (s : State) : Prop :=
  ∀ h tm ta ea,
    Timers.armed (timers s) !! h = Some tm → Timers.cb tm = CbHideInfo →
    (ta, ea) ∈ tr → activity ea = true → ta + 4000 ≤ Timers.due tm.

(** A failed attempt of the initial load: [None] for a [null] result,
    [Some m] for a rejection with message [m]. *)
Definition failure (e : option string) : Settled (option ArtObj) :=
  match e with
  | None => Resolved None
  | Some m => Rejected m
  end.

(** The visible state of [s'] is that of [s]. *)
Definition same_view (s s' : State) : Prop :=
  displayedArtwork s' = displayedArtwork s ∧ nextArtwork s' = nextArtwork s ∧
  loading s' = loading s ∧ showInfo s' = showInfo s ∧ shown s' = shown s ∧
  infoTimer s' = infoTimer s ∧ mounted s' = mounted s.

(** An initial load whose three attempts fail with outcomes [e1], [e2],
    [e3]: the attempts settle [d1], [d3], [d5] ms after they are sent and
    the two pauses end [d2], [d4] ms after their 200 ms. *)
Definition three_failures (e1 e2 e3 : option string) (d1 d2 d3 d4 d5 : nat)
  : list (nat * Event) :=
  [(d1, GetCurrentSettled (failure e1));
   (d1 + 200 + d2, TimerFired 2);
   (d1 + 200 + d2 + d3, GetCurrentSettled (failure e2));
   (d1 + 200 + d2 + d3 + 200 + d4, TimerFired 3);
   (d1 + 200 + d2 + d3 + 200 + d4 + d5, GetCurrentSettled (failure e3))].

(** Sample payloads: the artwork with identifier [i], deserialised into
    the object at reference [r]. *)
Definition sample (r : nat) (i : string) : ArtObj :=
  {| ref := r;
     fields := {| id := i; title := "Untitled"; artist := "Unknown";
                  date := "1900"; medium := "oil on canvas"; source := "NGA";
                  image_base64 := "data:image/jpeg;base64,/9j/4AAQ" |} |}.

(** The state reached from [mount] along a deliverable trace. *)
Definition reached (tr : list (nat * Event)) : State :=
  default mount (run mount tr).

(** The key presses that make [onKeyDown] send the command [c]. *)
Definition is_press (c : Command) (ev : Event) : bool :=
  match ev, c with
  | KeyDown k, dismiss_overlays => bool_decide (k = "Escape")
  | KeyDown k, next_artwork => bool_decide (k = "ArrowRight") || bool_decide (k = " ")
  | KeyDown k, prev_artwork => bool_decide (k = "ArrowLeft")
  | _, _ => false
  end.

Definition presses (c : Command) (tr : list (nat * Event)) : nat :=
  length (filter (λ x, is_press c x.2 = true) tr).

(** Events that neither deliver an artwork nor complete a decode. *)
Definition carries_no_artwork (ev : Event) : bool :=
  match ev with
  | ArtworkChanged _ | ImageLoaded _ | GetCurrentSettled (Resolved (Some _)) => false
  | _ => true
  end.

(** The artwork an event hands to the component, if any: the payload of
    a notification, or the result of an attempt of the initial load. *)
Definition delivers (ev : Event) : option ArtObj :=
  match ev with
  | ArtworkChanged p => Some p
  | GetCurrentSettled (Resolved (Some a)) => Some a
  | _ => None
  end.

(** The proxies held by the two variables were created by earlier
    assignments, and a pending proxy is not the displayed one. *)
Record ProxyInv (s : State) : Prop := {
  pinv_displayed : ∀ x, displayedArtwork s = Some x → pid x < proxies s;
  pinv_next : ∀ x, nextArtwork s = Some x → pid x < proxies s;
  pinv_distinct : ∀ x y,
    nextArtwork s = Some x → displayedArtwork s = Some y → pid x ≠ pid y
}.

End ArtOverlay.

(** ** The catalog build script ([scripts/build-nga-catalog.ts])

    The pure part of the script: the CSV reader and the join of [main]
    that selects one primary image per painting. Downloading, logging and
    writing the JSON file are left to the host. *)

Module NgaCatalog.

Definition dquote : ascii := "034"%char.
Definition comma : ascii := ","%char.
Definition newline : ascii := "010"%char.

(** [s + c] for one code unit [c]. *)
Definition push_char (s : string) (c : ascii) : string :=
  s +:+ String c EmptyString.

Fixpoint countQuotes (s : string) : nat :=
  match s with
  | EmptyString => 0
  | String c r => (if Ascii.eqb c dquote then 1 else 0) + countQuotes r
  end.

(** White space and line terminators of ECMAScript among the code units
    below 256: TAB, LF, VT, FF, CR, SP and NBSP. *)
Definition is_space (c : ascii) : bool :=
  let n := nat_of_ascii c in
  ((9 <=? n) && (n <=? 13)) || (n =? 32) || (n =? 160).

Fixpoint trimStart (s : string) : string :=
  match s with
  | EmptyString => EmptyString
  | String c r => if is_space c then trimStart r else s
  end.

Fixpoint trimEnd (s : string) : string :=
  match s with
  | EmptyString => EmptyString
  | String c r =>
      match trimEnd r with
      | EmptyString => if is_space c then EmptyString else String c EmptyString
      | r' => String c r'
      end
  end.

(** [String.prototype.trim] *)
Definition trim (s : string) : string := trimEnd (trimStart s).

(** The loop of [parseCSVLine] from position [i] on, [line] being the
    rest of the line from there. In the escaped-quote case the loop body
    does [i++] and so continues two code units further. *)
Fixpoint scan (line : string) (result : list string) (current : string)
    (inQuotes : bool) : list string :=
  match line with
  | EmptyString => result ++ [trim current]
  | String c rest =>
      if inQuotes then
        if Ascii.eqb c dquote then
          match rest with
          | String c' rest' =>
              if Ascii.eqb c' dquote
              then scan rest' result (push_char current dquote) true
              else scan rest result current false
          | EmptyString => scan rest result current false
          end
        else scan rest result (push_char current c) true
      else
        if Ascii.eqb c dquote then scan rest result current true
        else if Ascii.eqb c comma then scan rest (result ++ [trim current]) "" false
        else scan rest result (push_char current c) false
  end.

Definition parseCSVLine (line : string) : list string :=
  scan line [] "" false.

(** [s.split(sep)] for a separator of one code unit: never empty. *)
Fixpoint split (sep : ascii) (s : string) : list string :=
  match s with
  | EmptyString => [EmptyString]
  | String c r =>
      if Ascii.eqb c sep then EmptyString :: split sep r
      else match split sep r with
           | x :: xs => String c x :: xs
           | [] => [String c EmptyString]
           end
  end.

(** A row of the CSV file: a JavaScript object with string values. *)
Abbreviation Row := (gmap string string).

(** [row[k] = v] on a plain object: the key [__proto__] is the accessor
    of [Object.prototype], whose setter ignores a string. *)
Definition set_prop (k v : string) (row : Row) : Row :=
  if decide (k = "__proto__") then row else <[k := v]> row.

(** [for (let j = 0; j < headers.length; j++) row[headers[j]] = values[j] ?? ""] *)
Definition make_row (headers values : list string) : Row :=
  foldl (λ row j, set_prop (default "" (headers !! j)) (default "" (values !! j)) row)
        ∅ (seq 0 (length headers)).

(** The body of the outer loop after the line has been gathered:
    [if (!line.trim()) continue;] then the row is pushed. *)
Definition emit (headers : list string) (line : string) : list Row :=
  if decide (trim line = "") then []
  else [make_row headers (parseCSVLine line)].

(** The outer loop of [parseCSV] at index [i]: [line] is [lines[i]]
    extended by the inner loop so far and [rest] the lines after it. *)
Fixpoint collect (headers : list string) (line : string) (rest : list string)
    : list Row :=
  if Nat.odd (countQuotes line) then
    match rest with
    | next :: rest' =>
        collect headers (line +:+ String newline EmptyString +:+ next) rest'
    | [] => emit headers line
    end
  else
    emit headers line ++
    match rest with
    | next :: rest' => collect headers next rest'
    | [] => []
    end.

Definition parseCSV (text : string) : list Row :=
  let lines := split newline text in
  let headers := parseCSVLine (default "" (head lines)) in
  match tail lines with
  | [] => []
  | line :: rest => collect headers line rest
  end.

(** *** The join of [main] *)

Record NgaEntry := {
  uuid : string;
  title : string;
  artist : string;
  date : string;
  medium : string
}.

(** Truthiness of a value of type [string | undefined]. *)
Definition truthy (v : option string) : bool :=
  match v with
  | Some s => negb (bool_decide (s = ""))
  | None => false
  end.

(** [v || d] for [v : string | undefined] and a string [d]. *)
Definition or_str (v : option string) (d : string) : string :=
  match v with
  | Some s => if bool_decide (s = "") then d else s
  | None => d
  end.

(** [String.prototype.toLowerCase] on code units below 256: the letters
    A-Z and the Latin-1 capitals other than the multiplication sign. *)
Definition lower (c : ascii) : ascii :=
  let n := nat_of_ascii c in
  if ((65 <=? n) && (n <=? 90)) || ((192 <=? n) && (n <=? 222) && negb (n =? 215))
  then ascii_of_nat (n + 32) else c.

Fixpoint toLowerCase (s : string) : string :=
  match s with
  | EmptyString => EmptyString
  | String c r => String (lower c) (toLowerCase r)
  end.

(** [s.includes(sub)] *)
Fixpoint includes (s sub : string) : bool :=
  String.prefix sub s ||
  match s with
  | EmptyString => false
  | String _ r => includes r sub
  end.

(** [objectMap], a [Map] keyed by [obj.objectid], which is [undefined]
    for a row without that column. *)
Definition build_object_map (objects : list Row) : gmap (option string) Row :=
  foldl (λ m obj, <[obj !! "objectid" := obj]> m) ∅ objects.

Definition entry_of (u t : string) (obj : Row) : NgaEntry :=
  {| uuid := u;
     title := t;
     artist := or_str (obj !! "attribution")
                 (or_str (obj !! "attributioninverted") "Unknown Artist");
     date := or_str (obj !! "displaydate") "";
     medium := or_str (obj !! "medium") "" |}.

(** One round of the loop over [images]; the state is [catalog] and
    [seenObjects], every [continue] returns it unchanged. *)
Definition consider (objectMap : gmap (option string) Row)
    (st : list NgaEntry * gset string) (img : Row) : list NgaEntry * gset string :=
  if negb (bool_decide (img !! "viewtype" = Some "primary")) then st else
  if negb (truthy (img !! "uuid")) then st else
  let objectId := img !! "depictstmsobjectid" in
  if negb (truthy objectId) || bool_decide (default "" objectId ∈ st.2) then st else
  match objectMap !! objectId with
  | None => st
  | Some obj =>
      let classification := default "" (toLowerCase <$> obj !! "classification") in
      if negb (includes classification "painting") then st else
      let title := trim <$> obj !! "title" in
      if negb (truthy title) then st else
      (st.1 ++ [entry_of (default "" (img !! "uuid")) (default "" title) obj],
       st.2 ∪ {[default "" objectId]})
  end.

Definition select (objects images : list Row) : list NgaEntry * gset string :=
  foldl (consider (build_object_map objects)) ([], ∅) images.

(** The catalog [main] serialises, from the text of the two files. *)
Definition build_catalog (imagesText objectsText : string) : list NgaEntry :=
  (select (parseCSV objectsText) (parseCSV imagesText)).1.

(** *** Writing a record

    The quoting the reader undoes: every field between double quotes,
    with the double quotes it contains doubled. *)
Fixpoint escape (f : string) : string :=
  match f with
  | EmptyString => EmptyString
  | String c r =>
      if Ascii.eqb c dquote then String dquote (String dquote (escape r))
      else String c (escape r)
  end.

Definition quote (f : string) : string :=
  String dquote (escape f +:+ String dquote EmptyString).

Definition write_line (fields : list string) : string :=
  String.concat (String comma EmptyString) (map quote fields).

(** A file: one written record per line. *)
Definition write_file (records : list (list string)) : string :=
  String.concat (String newline EmptyString) (map write_line records).

(** Reading [s] from a point where the number of double quotes met so
    far is odd ([q]) or even: the parity at the end of [s], and whether
    every line break of [s] is met at an odd count. *)
Fixpoint parity (q : bool) (s : string) : bool :=
  match s with
  | EmptyString => q
  | String c r => parity (if Ascii.eqb c dquote then negb q else q) r
  end.

Fixpoint breaks_in (q : bool) (s : string) : bool :=
  match s with
  | EmptyString => true
  | String c r =>
      (if Ascii.eqb c newline then q else true)
      && breaks_in (if Ascii.eqb c dquote then negb q else q) r
  end.

(** What the loop over [images] makes of one image when the object it
    depicts has not been seen: the object's identifier and the entry, or
    nothing when one of the other tests fails. *)
Definition candidate (objectMap : gmap (option string) Row) (img : Row)
    : option (string * NgaEntry) :=
  if bool_decide (img !! "viewtype" = Some "primary")
     && truthy (img !! "uuid") && truthy (img !! "depictstmsobjectid")
  then
    match objectMap !! (img !! "depictstmsobjectid") with
    | Some obj =>
        if includes (default "" (toLowerCase <$> obj !! "classification")) "painting"
           && truthy (trim <$> obj !! "title")
        then Some (default "" (img !! "depictstmsobjectid"),
                   entry_of (default "" (img !! "uuid"))
                     (default "" (trim <$> obj !! "title")) obj)
        else None
    | None => None
    end
  else None.

(** The first pair of every key, in order. *)
Fixpoint keep_first {A} (l : list (string * A)) : list (string * A) :=
  match l with
  | [] => []
  | p :: r => p :: filter (λ q, q.1 ≠ p.1) (keep_first r)
  end.

(** Number of occurrences of the code unit [a]. *)
Fixpoint count_char (a : ascii) (s : string) : nat :=
  match s with
  | EmptyString => 0
  | String c r => (if Ascii.eqb c a then 1 else 0) + count_char a r
  end.

End NgaCatalog.

(** * Properties of the Hotkey Recorder *)

Module RecorderFacts.
Import SettingsPanel.

Lemma is_bare_modifier_spec k :
  is_bare_modifier k = true ↔
  k = "Control" ∨ k = "Shift" ∨ k = "Alt" ∨ k = "Meta".
Proof.
  unfold is_bare_modifier. rewrite bool_decide_eq_true.
  rewrite !elem_of_cons, elem_of_nil. tauto.
Qed.

Lemma normalize_refines up e : normalize up e = spec_normalize up e.
Proof.
  unfold normalize, spec_normalize.
  destruct (is_bare_modifier (key e)) eqn:Hm.
  - apply is_bare_modifier_spec in Hm. by rewrite decide_True.
  - rewrite decide_False.
    2:{ intros H. apply is_bare_modifier_spec in H. congruence. }
    f_equal.
    assert (map_key up (key e) = spec_terminal up (key e)) as ->.
    { unfold map_key, spec_terminal.
      destruct (decide (key e = " ")) as [->|Hs]; [done|].
      rewrite bool_decide_eq_false_2 by done.
      destruct (decide (String.length (key e) = 1)) as [Hl|Hl].
      - by rewrite Hl.
      - apply Nat.eqb_neq in Hl. by rewrite Hl. }
    unfold modifier_parts.
    rewrite (orb_comm (ctrlKey e)).
    destruct (metaKey e || ctrlKey e), (shiftKey e), (altKey e); reflexivity.
Qed.

(** C4. The normalizer computed by [onKeyDown] is the one of section 4.1:
    a bare modifier key (Control, Shift, Alt, Meta) is skipped and the
    handler then changes nothing, its listener staying attached; any other
    key yields the parts joined with [+] in the fixed order CmdOrCtrl (ctrl
    or meta held), Shift, Alt, terminal key, where a space maps to [Space],
    a key of length one to its upper-cased form and every other key to
    itself, and the handler then stores the result. Cmd+S gives
    [CmdOrCtrl+S], Shift+Alt+ArrowUp gives [Shift+Alt+ArrowUp] and a bare
    Control is skipped. *)
Theorem normalizer_canonical :
  (∀ up e, normalize up e = spec_normalize up e) ∧
  (∀ up self e s,
     onKeyDown up self e s =
     match spec_normalize up e with
     | Skip => s
     | Accelerator a =>
         removeEventListener_keydown self (with_recording false (with_hotkey a s))
     end) ∧
  normalize ascii_toUpperCase
    {| key := "s"; ctrlKey := false; metaKey := true;
       shiftKey := false; altKey := false |} = Accelerator "CmdOrCtrl+S" ∧
  normalize ascii_toUpperCase
    {| key := "ArrowUp"; ctrlKey := false; metaKey := false;
       shiftKey := true; altKey := true |} = Accelerator "Shift+Alt+ArrowUp" ∧
  normalize ascii_toUpperCase
    {| key := "Control"; ctrlKey := true; metaKey := false;
       shiftKey := false; altKey := false |} = Skip.
Proof.
  split_and!; try reflexivity.
  - apply normalize_refines.
  - intros up self e s. unfold onKeyDown. by rewrite normalize_refines.
Qed.

(** *** Key listeners *)

Lemma dispatch_skip up e s :
  normalize up e = Skip → dispatch_keydown up e s = s.
Proof.
  intros Hn. unfold dispatch_keydown.
  generalize (keydown s) as ls. intros ls. revert s.
  induction ls as [|l ls IH]; intros s; simpl; [done|].
  assert (onKeyDown up l e s = s) as -> by (unfold onKeyDown; by rewrite Hn).
  destruct (bool_decide _); apply IH.
Qed.

Lemma filter_filter_ne (l : nat) (ls ks : list nat) :
  filter (λ x, x ∉ ls) (filter (λ x, x ≠ l) ks) = filter (λ x, x ∉ l :: ls) ks.
Proof.
  induction ks as [|k ks IH]; [done|].
  rewrite (filter_cons (λ x, x ≠ l)), (filter_cons (λ x, x ∉ l :: ls)).
  destruct (decide (k ≠ l)) as [Hk|Hk].
  - rewrite filter_cons, IH.
    destruct (decide (k ∉ ls)) as [Hn|Hn].
    + rewrite decide_True; [done|]. rewrite not_elem_of_cons. done.
    + rewrite decide_False; [done|]. rewrite not_elem_of_cons. tauto.
  - rewrite IH, decide_False; [done|].
    rewrite not_elem_of_cons. tauto.
Qed.

Lemma filter_ne_absent (l : nat) (ks : list nat) :
  l ∉ ks → filter (λ x, x ≠ l) ks = ks.
Proof.
  induction ks as [|k ks IH]; [done|].
  rewrite not_elem_of_cons. intros [Hk Hks].
  rewrite filter_cons, decide_True by done. by rewrite IH.
Qed.

Lemma dispatch_fold_keydown up e a ls s :
  normalize up e = Accelerator a →
  keydown (foldl (λ st l, if bool_decide (l ∈ keydown st)
                          then onKeyDown up l e st else st) s ls)
  = filter (λ x, x ∉ ls) (keydown s).
Proof.
  intros Hn. revert s. induction ls as [|l ls IH]; intros s; simpl.
  - induction (keydown s) as [|k ks IHk]; [done|].
    rewrite filter_cons, decide_True by apply not_elem_of_nil.
    by rewrite <- IHk.
  - rewrite IH. destruct (bool_decide (l ∈ keydown s)) eqn:Hin.
    + unfold onKeyDown. rewrite Hn. simpl. apply filter_filter_ne.
    + apply bool_decide_eq_false in Hin.
      rewrite <- filter_filter_ne. by rewrite (filter_ne_absent l).
Qed.

Lemma dispatch_accelerator up e a s :
  normalize up e = Accelerator a → keydown (dispatch_keydown up e s) = [].
Proof.
  intros Hn. unfold dispatch_keydown.
  rewrite (dispatch_fold_keydown up e a) by done.
  assert (∀ ks ls : list nat, ks ⊆ ls → filter (λ x, x ∉ ls) ks = []) as Hf.
  { induction ks as [|k ks IH]; intros ls Hsub; [done|].
    rewrite filter_cons, decide_False.
    - apply IH. set_solver.
    - intros Hk. apply Hk. set_solver. }
  by apply Hf.
Qed.

Lemma startRecording_iter_length n s :
  length (keydown (Nat.iter n startRecording s)) = length (keydown s) + n.
Proof.
  induction n as [|n IH]; simpl; [lia|].
  rewrite length_app, IH. simpl. lia.
Qed.

(** C3, as the code has it. Every call of [startRecording] attaches one
    more key listener, without looking for one already attached, so [n]
    calls with no qualifying key in between leave [n] more listeners; a
    bare modifier key leaves them all attached and a qualifying key makes
    each of them detach itself, leaving none; unmounting the panel runs no
    code of the script and leaves the attached listeners in place. *)
Theorem listeners_accumulate :
  (∀ s, keydown (startRecording s) = keydown s ++ [next_closure s]) ∧
  (∀ n s, length (keydown (Nat.iter n startRecording s)) = length (keydown s) + n) ∧
  (∀ up e s,
     keydown (dispatch_keydown up e s) =
     match normalize up e with
     | Skip => keydown s
     | Accelerator _ => []
     end) ∧
  (∀ s, keydown (unmount s) = keydown s).
Proof.
  split_and!; try done.
  - apply startRecording_iter_length.
  - intros up e s. destruct (normalize up e) as [|a] eqn:Hn.
    + by rewrite dispatch_skip.
    + by apply (dispatch_accelerator up e a).
Qed.

(** C3, refuted as stated: two clicks on the hotkey box with no key press
    in between leave two key listeners attached to the window, and
    unmounting the panel afterwards removes neither. *)
Lemma two_listeners_attached :
  keydown <$> run ascii_toUpperCase (onMount initial)
                [(0, ClickRecord); (1, ClickRecord)] = Some [0; 1] ∧
  keydown <$> run ascii_toUpperCase (onMount initial)
                [(0, ClickRecord); (1, ClickRecord); (2, Unmount)] = Some [0; 1].
Proof. split; vm_compute; reflexivity. Qed.

(** *** Saving *)

Lemma dispatch_saved up e s : saved (dispatch_keydown up e s) = saved s.
Proof.
  unfold dispatch_keydown. generalize (keydown s) as ls. intros ls. revert s.
  induction ls as [|l ls IH]; intros s; simpl; [done|].
  rewrite IH. destruct (bool_decide _); [|done].
  unfold onKeyDown. by destruct (normalize up e).
Qed.

(** C8. When the [set_hotkey] promise rejects, [saveHotkey] stores the
    message in [error], leaves [saved] and the working [hotkey] as they
    were and arms no timer. When it resolves, [saved] becomes true,
    [error] is emptied, the working [hotkey] is kept, and a timer due 2000
    ms later is armed whose firing, possible from that time on and not
    before, sets [saved] back to false. No other event turns [saved] on. *)
Theorem save_outcomes :
  (∀ m s,
     error (saveHotkey_settled (Rejected m) s) = m ∧
     saved (saveHotkey_settled (Rejected m) s) = saved s ∧
     hotkey (saveHotkey_settled (Rejected m) s) = hotkey s ∧
     timers (saveHotkey_settled (Rejected m) s) = timers s) ∧
  (∀ s,
     saved (saveHotkey_settled (Resolved ()) s) = true ∧
     error (saveHotkey_settled (Resolved ()) s) = "" ∧
     hotkey (saveHotkey_settled (Resolved ()) s) = hotkey s ∧
     Timers.armed (timers (saveHotkey_settled (Resolved ()) s))
       !! Timers.next_handle (timers s)
     = Some {| Timers.due := now s + 2000; Timers.cb := CbClearSaved |}) ∧
  (∀ up s t,
     saved <$> step up (saveHotkey_settled (Resolved ()) s) t
                 (TimerFired (Timers.next_handle (timers s)))
     = if now s + 2000 <=? t then Some false else None) ∧
  (∀ up s t ev,
     match step up s t ev with
     | Some s' =>
         saved s = false → saved s' = true → ev = SetHotkeySettled (Resolved ())
     | None => True
     end).
Proof.
  split_and!.
  - intros m s. by split_and!.
  - intros s. split_and!; try done. simpl. apply lookup_insert_eq.
  - intros up s t. unfold step. simpl.
    destruct (t <? now s) eqn:Ht.
    + apply Nat.ltb_lt in Ht. rewrite (proj2 (Nat.leb_gt _ _)) by lia. done.
    + apply Nat.ltb_ge in Ht. rewrite lookup_insert_eq. simpl.
      destruct (now s + 2000 <=? t); done.
  - intros up s t ev. unfold step.
    destruct (t <? now s); [done|].
    destruct ev as [| |e|hk|[[]|m]|h|]; simpl.
    + destruct (mounted s); [|done]. simpl. congruence.
    + destruct (mounted s && negb (save_disabled (with_now t s))); [|done].
      simpl. congruence.
    + rewrite dispatch_saved. simpl. congruence.
    + destruct (get_pending s); [|done]. simpl. congruence.
    + destruct (0 <? saves_pending s); done.
    + destruct (0 <? saves_pending s); [|done]. simpl. congruence.
    + destruct (Timers.armed (timers s) !! h) as [tm|]; [|done].
      destruct (Timers.due tm <=? t); [|done]. destruct tm as [d []]. simpl. congruence.
    + destruct (mounted s); [|done]. simpl. congruence.
Qed.

(** *** Reachable states of the panel *)

Lemma dispatch_frame up e s :
  saved (dispatch_keydown up e s) = saved s ∧
  error (dispatch_keydown up e s) = error s ∧
  now (dispatch_keydown up e s) = now s ∧
  timers (dispatch_keydown up e s) = timers s ∧
  invoked (dispatch_keydown up e s) = invoked s ∧
  next_closure (dispatch_keydown up e s) = next_closure s ∧
  saves_pending (dispatch_keydown up e s) = saves_pending s ∧
  get_pending (dispatch_keydown up e s) = get_pending s ∧
  mounted (dispatch_keydown up e s) = mounted s.
Proof.
  unfold dispatch_keydown. generalize (keydown s) as ls. intros ls. revert s.
  induction ls as [|l ls IH]; intros s; simpl; [by split_and!|].
  destruct (IH (if bool_decide (l ∈ keydown s) then onKeyDown up l e s else s))
    as (-> & -> & -> & -> & -> & -> & -> & -> & ->).
  destruct (bool_decide _); [|by split_and!].
  unfold onKeyDown. destruct (normalize up e); by split_and!.
Qed.

Lemma dispatch_fold_done up e a ls s :
  normalize up e = Accelerator a → recording s = false → hotkey s = a →
  recording (foldl (λ st l, if bool_decide (l ∈ keydown st)
                            then onKeyDown up l e st else st) s ls) = false ∧
  hotkey (foldl (λ st l, if bool_decide (l ∈ keydown st)
                         then onKeyDown up l e st else st) s ls) = a.
Proof.
  intros Hn. revert s. induction ls as [|l ls IH]; intros s Hr Hh; simpl; [done|].
  apply IH; destruct (bool_decide _); try done; unfold onKeyDown; by rewrite Hn.
Qed.

Lemma dispatch_completes up e a s :
  normalize up e = Accelerator a → keydown s ≠ [] →
  hotkey (dispatch_keydown up e s) = a ∧ recording (dispatch_keydown up e s) = false.
Proof.
  intros Hn Hne. unfold dispatch_keydown.
  destruct (keydown s) as [|l ls] eqn:Hk; [done|].
  simpl. rewrite Hk, bool_decide_eq_true_2 by (by left).
  destruct (dispatch_fold_done up e a ls (onKeyDown up l e s)) as [Hr Hh];
    [done| | |by split]; unfold onKeyDown; by rewrite Hn.
Qed.

(** X1. A qualifying key press. With at least one listener attached, a
    key press that is not a bare modifier stores its canonical string as
    the working hotkey, ends the recording and leaves no listener
    attached, however many listeners the clicks have attached; the saved
    indicator, the error, the timers and the requests sent are left
    alone. *)
Theorem qualifying_key_completes up e a s :
  normalize up e = Accelerator a → keydown s ≠ [] →
  hotkey (dispatch_keydown up e s) = a ∧
  recording (dispatch_keydown up e s) = false ∧
  keydown (dispatch_keydown up e s) = [] ∧
  saved (dispatch_keydown up e s) = saved s ∧
  error (dispatch_keydown up e s) = error s ∧
  timers (dispatch_keydown up e s) = timers s ∧
  invoked (dispatch_keydown up e s) = invoked s.
Proof.
  intros Hn Hne.
  destruct (dispatch_frame up e s) as (? & ? & _ & ? & ? & _).
  destruct (dispatch_completes up e a s Hn Hne) as [Hh Hr].
  split_and!; try done. by apply (dispatch_accelerator up e a).
Qed.

Lemma qualifying_key_completes_witness :
  normalize ascii_toUpperCase
    {| key := "k"; ctrlKey := true; metaKey := false;
       shiftKey := true; altKey := false |} = Accelerator "CmdOrCtrl+Shift+K" ∧
  keydown (startRecording (startRecording (onMount initial))) ≠ [] ∧
  hotkey (dispatch_keydown ascii_toUpperCase
            {| key := "k"; ctrlKey := true; metaKey := false;
               shiftKey := true; altKey := false |}
            (startRecording (startRecording (onMount initial))))
  = "CmdOrCtrl+Shift+K".
Proof.
  split; [reflexivity|]. split; [discriminate|].
  refine (proj1 (qualifying_key_completes ascii_toUpperCase _ _ _ _ _)).
  - reflexivity.
  - discriminate.
Defined.

Lemma inv_initial : Inv (onMount initial).
Proof.
  constructor; simpl; try done.
  - constructor.
  - intros hk Hin. apply list_elem_of_singleton in Hin. done.
Qed.

Lemma inv_panel_step up s t ev s' : Inv s → step up s t ev = Some s' → Inv s'.
Proof.
  intros HI. unfold step. destruct (t <? now s) eqn:Ht; [done|].
  apply Nat.ltb_ge in Ht.
  assert (Inv (with_now t s)) as HN.
  { destruct HI. constructor; try done. simpl. intros h tm Hl.
    specialize (inv_due0 h tm Hl). lia. }
  revert HN. generalize (with_now t s). clear HI Ht s. intros s HI.
  destruct ev as [| |e|hk|r|h|].
  - destruct (mounted s); [|done]. intros [= <-]. destruct HI.
    constructor; simpl; try done.
    + symmetry. apply bool_decide_eq_true. by destruct (keydown s).
    + apply NoDup_app. split_and!; [done| |apply NoDup_singleton].
      intros l Hl ->%list_elem_of_singleton.
      rewrite Forall_forall in inv_fresh0. specialize (inv_fresh0 _ Hl). lia.
    + apply Forall_app. split; [|repeat constructor].
      eapply Forall_impl; [done|]. simpl. lia.
  - destruct (mounted s && negb (save_disabled s)) eqn:Hg; [|done]. intros [= <-].
    apply andb_true_iff in Hg as [_ Hg]. apply negb_true_iff in Hg.
    unfold save_disabled in Hg. apply orb_false_iff in Hg as [_ Hg].
    apply bool_decide_eq_false in Hg. destruct HI.
    constructor; simpl; try done.
    intros hk Hin. apply elem_of_app in Hin as [Hin|Hin]; [by apply inv_sent0|].
    apply list_elem_of_singleton in Hin. by injection Hin as ->.
  - intros [= <-]. destruct (dispatch_frame up e s) as (Hs & _ & Hn & Ht & Hi & Hc & _).
    destruct (normalize up e) as [|a] eqn:Hnz.
    { by rewrite dispatch_skip. }
    pose proof (dispatch_accelerator up e a s Hnz) as Hk.
    destruct HI. constructor; rewrite ?Hs, ?Hn, ?Ht, ?Hi, ?Hc, ?Hk; try done.
    + destruct (keydown s) as [|l ls] eqn:Hks.
      * unfold dispatch_keydown. rewrite Hks. simpl. by rewrite inv_recording0.
      * by destruct (dispatch_completes up e a s Hnz) as (_ & ->);
          [rewrite Hks|].
    + constructor.
  - destruct (get_pending s); [|done]. intros [= <-]. by destruct HI.
  - destruct (0 <? saves_pending s); [|done]. intros [= <-]. destruct HI.
    destruct r as [[]|m]; constructor; simpl; try done.
    + intros _ Hemp.
      assert (<[Timers.next_handle (timers s) :=
                 {| Timers.due := now s + 2000; Timers.cb := CbClearSaved |}]>
                (Timers.armed (timers s)) !! Timers.next_handle (timers s) = None)
        as Hl by (by rewrite Hemp, lookup_empty).
      by rewrite lookup_insert_eq in Hl.
    + intros h tm. rewrite lookup_insert. case_decide; [|apply inv_due0].
      by intros [= <-].
  - destruct (Timers.armed (timers s) !! h) as [tm|]; [|done].
    destruct (Timers.due tm <=? t); [|done]. destruct tm as [d []].
    intros [= <-]. destruct HI. constructor; simpl; try done.
    intros h' tm'. rewrite lookup_delete. case_decide; [done|]. apply inv_due0.
  - destruct (mounted s); [|done]. intros [= <-]. by destruct HI.
Qed.

Lemma inv_panel_run up s tr s' : Inv s → run up s tr = Some s' → Inv s'.
Proof.
  revert s. induction tr as [|[t ev] tr IH]; intros s HI; simpl.
  - by intros [= <-].
  - destruct (step up s t ev) as [s1|] eqn:Hs; [|done].
    apply IH. by apply (inv_panel_step up s t ev).
Qed.

(** X2. Recording and listeners. In every state the panel reaches, it
    shows the recording prompt exactly when some key listener is
    attached to the window, and the attached listeners are distinct
    closures. *)
Theorem recording_iff_listening up tr s :
  run up (onMount initial) tr = Some s →
  (recording s = true ↔ keydown s ≠ []) ∧ NoDup (keydown s).
Proof.
  intros Hrun. pose proof (inv_panel_run up _ tr s inv_initial Hrun) as HI.
  split; [|apply HI]. rewrite (inv_recording s HI). apply bool_decide_eq_true.
Qed.

Lemma recording_iff_listening_witness :
  run ascii_toUpperCase (onMount initial)
    [(1, ClickRecord); (2, ClickRecord);
     (3, KeyDown {| key := "Shift"; ctrlKey := false; metaKey := false;
                    shiftKey := true; altKey := false |})]
  = Some (default initial
            (run ascii_toUpperCase (onMount initial)
               [(1, ClickRecord); (2, ClickRecord);
                (3, KeyDown {| key := "Shift"; ctrlKey := false; metaKey := false;
                               shiftKey := true; altKey := false |})])) ∧
  NoDup (keydown
    (default initial
       (run ascii_toUpperCase (onMount initial)
          [(1, ClickRecord); (2, ClickRecord);
           (3, KeyDown {| key := "Shift"; ctrlKey := false; metaKey := false;
                          shiftKey := true; altKey := false |})]))).
Proof.
  split; [vm_compute; reflexivity|].
  refine (proj2 (recording_iff_listening ascii_toUpperCase
            [(1, ClickRecord); (2, ClickRecord);
             (3, KeyDown {| key := "Shift"; ctrlKey := false; metaKey := false;
                            shiftKey := true; altKey := false |})] _ _)).
  vm_compute; reflexivity.
Defined.

(** X3. The saved indicator is never stuck. In every state the panel
    reaches, if the saved indicator is on then a timer that clears it is
    armed, and every armed timer is due at most 2000 ms from now. *)
Theorem saved_indicator_clears up tr s :
  run up (onMount initial) tr = Some s →
  (saved s = true → ∃ h tm, Timers.armed (timers s) !! h = Some tm) ∧
  (∀ h tm, Timers.armed (timers s) !! h = Some tm →
     Timers.cb tm = CbClearSaved ∧ Timers.due tm ≤ now s + 2000).
Proof.
  intros Hrun. pose proof (inv_panel_run up _ tr s inv_initial Hrun) as HI. split.
  - intros Hs. pose proof (inv_saved s HI Hs) as Hne.
    apply map_choose in Hne as (h & tm & Hl). by exists h, tm.
  - intros h tm Hl. split; [by destruct tm as [d []]|]. by apply (inv_due s HI h).
Qed.

Lemma saved_indicator_clears_witness :
  run ascii_toUpperCase (onMount initial)
    [(1, GetHotkeyResolved "CmdOrCtrl+A"); (2, ClickSave);
     (3, SetHotkeySettled (Resolved ()))]
  = Some (default initial
            (run ascii_toUpperCase (onMount initial)
               [(1, GetHotkeyResolved "CmdOrCtrl+A"); (2, ClickSave);
                (3, SetHotkeySettled (Resolved ()))])) ∧
  ∀ h tm,
    Timers.armed (timers
      (default initial
         (run ascii_toUpperCase (onMount initial)
            [(1, GetHotkeyResolved "CmdOrCtrl+A"); (2, ClickSave);
             (3, SetHotkeySettled (Resolved ()))]))) !! h = Some tm →
    Timers.cb tm = CbClearSaved ∧
    Timers.due tm ≤
      now (default initial
             (run ascii_toUpperCase (onMount initial)
                [(1, GetHotkeyResolved "CmdOrCtrl+A"); (2, ClickSave);
                 (3, SetHotkeySettled (Resolved ()))])) + 2000.
Proof.
  split; [vm_compute; reflexivity|].
  refine (proj2 (saved_indicator_clears ascii_toUpperCase
            [(1, GetHotkeyResolved "CmdOrCtrl+A"); (2, ClickSave);
             (3, SetHotkeySettled (Resolved ()))] _ _)).
  vm_compute; reflexivity.
Defined.

(** X4. What is saved. In every state the panel reaches, every
    [set_hotkey] request sent carries a hotkey that is not empty: the
    Save button is disabled while the working value is empty or a
    recording is under way. *)
Theorem never_saves_empty_hotkey up tr s :
  run up (onMount initial) tr = Some s →
  ∀ hk, set_hotkey hk ∈ invoked s → hk ≠ "".
Proof.
  intros Hrun. pose proof (inv_panel_run up _ tr s inv_initial Hrun) as HI.
  apply (inv_sent s HI).
Qed.

Lemma never_saves_empty_hotkey_witness :
  run ascii_toUpperCase (onMount initial)
    [(1, GetHotkeyResolved "CmdOrCtrl+A"); (2, ClickSave)]
  = Some (default initial
            (run ascii_toUpperCase (onMount initial)
               [(1, GetHotkeyResolved "CmdOrCtrl+A"); (2, ClickSave)])) ∧
  ∀ hk,
    set_hotkey hk ∈
      invoked (default initial
                 (run ascii_toUpperCase (onMount initial)
                    [(1, GetHotkeyResolved "CmdOrCtrl+A"); (2, ClickSave)])) →
    hk ≠ "".
Proof.
  split; [vm_compute; reflexivity|].
  refine (never_saves_empty_hotkey ascii_toUpperCase
            [(1, GetHotkeyResolved "CmdOrCtrl+A"); (2, ClickSave)] _ _).
  vm_compute; reflexivity.
Defined.

End RecorderFacts.

(** * Properties of the overlay controller *)

Module OverlayFacts.
Import ArtOverlay.

Lemma sent_invoke c c' s :
  sent c (invoke c' s) = sent c s + (if decide (c' = c) then 1 else 0).
Proof.
  unfold sent, invoke. simpl. rewrite filter_app, length_app.
  rewrite filter_cons, filter_nil. by destruct (decide (c' = c)).
Qed.

(** *** What each handler leaves alone *)

Lemma resetInfoTimer_frame s :
  displayedArtwork (resetInfoTimer s) = displayedArtwork s ∧
  nextArtwork (resetInfoTimer s) = nextArtwork s ∧
  loading (resetInfoTimer s) = loading s ∧
  shown (resetInfoTimer s) = shown s ∧
  safetyTimeout (resetInfoTimer s) = safetyTimeout s ∧
  loader (resetInfoTimer s) = loader s ∧
  mounted (resetInfoTimer s) = mounted s ∧
  now (resetInfoTimer s) = now s ∧
  invoked (resetInfoTimer s) = invoked s ∧
  warnings (resetInfoTimer s) = warnings s.
Proof.
  destruct s as [d n si [[|h]|] lo sh st ld m nw tb inv w px]; cbn; by split_and!.
Qed.

Lemma resetInfoTimer_effect s :
  showInfo (resetInfoTimer s) = true ∧
  infoTimer (resetInfoTimer s) = Some (Timers.next_handle (timers s)) ∧
  Timers.next_handle (timers (resetInfoTimer s)) = S (Timers.next_handle (timers s)) ∧
  Timers.armed (timers (resetInfoTimer s)) =
    <[Timers.next_handle (timers s) :=
        {| Timers.due := now s + 4000; Timers.cb := CbHideInfo |}]> (cleared s).
Proof.
  unfold cleared.
  destruct s as [d n si [[|h]|] lo sh st ld m nw tb inv w px]; cbn; by split_and!.
Qed.

(** *** The invariant is kept by every handler *)

Lemma inv_frame s s' :
  Inv s →
  timers s' = timers s → infoTimer s' = infoTimer s → shown s' = shown s →
  mounted s' = mounted s → safetyTimeout s' = safetyTimeout s →
  loader s' = loader s →
  sent overlay_ready s' = sent overlay_ready s →
  sent get_current_artwork s' = sent get_current_artwork s →
  Inv s'.
Proof.
  intros [] Ht Hi Hs Hm Hst Hl Ho Hg.
  constructor; unfold loader_ok in *; rewrite ?Ht, ?Hi, ?Hs, ?Hm, ?Hst, ?Hl, ?Ho, ?Hg;
    done.
Qed.

Lemma cleared_lookup s h :
  Inv s →
  cleared s !! h =
  if decide (infoTimer s = Some h) then None else Timers.armed (timers s) !! h.
Proof.
  intros HI. unfold cleared. destruct (infoTimer s) as [h0|] eqn:Hh0.
  - destruct (inv_info_handle s HI h0 Hh0) as [Hge _].
    replace (h0 =? 0) with false by (symmetry; apply Nat.eqb_neq; lia). simpl.
    destruct (decide (Some h0 = Some h)) as [[= ->]|Hne].
    + apply lookup_delete_eq.
    + apply lookup_delete_ne. congruence.
  - by rewrite decide_False.
Qed.

Lemma cleared_no_info s h tm :
  Inv s → cleared s !! h = Some tm →
  Timers.armed (timers s) !! h = Some tm ∧ Timers.cb tm ≠ CbHideInfo.
Proof.
  intros HI. rewrite cleared_lookup by done.
  destruct (decide (infoTimer s = Some h)) as [|Hne]; [done|].
  intros Hl. split; [done|]. intros Hcb. apply Hne.
  by apply (inv_info_unique s HI h tm).
Qed.

Lemma inv_resetInfoTimer s : Inv s → Inv (resetInfoTimer s).
Proof.
  intros HI.
  destruct (resetInfoTimer_frame s) as (_ & _ & _ & Hsh & Hst & Hld & Hm & _ & Hinv & _).
  destruct (resetInfoTimer_effect s) as (_ & Hit & Hnh & Harm).
  pose proof (inv_next_handle s HI) as Hn2.
  assert (∀ c, sent c (resetInfoTimer s) = sent c s) as Hsent
    by (intros c; unfold sent; by rewrite Hinv).
  constructor; rewrite ?Hsh, ?Hst, ?Hm, ?Hit, ?Hnh, ?Harm, ?Hsent.
  - apply HI.
  - lia.
  - intros h tm. rewrite lookup_insert. case_decide; [lia|].
    intros Hl. apply (cleared_no_info s h tm HI) in Hl as [Hl _].
    apply (inv_handles s HI) in Hl. lia.
  - intros tm. rewrite lookup_insert_ne by lia.
    intros Hl. apply (cleared_no_info s 1 tm HI) in Hl as [Hl _].
    by apply (inv_first s HI).
  - intros h tm. rewrite lookup_insert. case_decide.
    + intros [= <-]. done.
    + intros Hl. apply (cleared_no_info s h tm HI) in Hl as [Hl _].
      by apply (inv_safety_unique s HI).
  - intros Hmt Hs. rewrite lookup_insert_ne by lia.
    rewrite cleared_lookup by done. rewrite decide_False.
    + by apply (inv_safety_live s HI).
    + intros Hi. apply (inv_info_handle s HI) in Hi. lia.
  - intros h tm. rewrite lookup_insert. case_decide; [by subst|].
    intros Hl Hcb. by apply (cleared_no_info s h tm HI) in Hl as [_ Hl].
  - intros h [= <-]. lia.
  - apply HI.
  - pose proof (inv_loader s HI) as Hl. unfold loader_ok in *.
    rewrite Hld. destruct (loader s); by rewrite ?Hsent.
Qed.

(** A handler that arms no timer and keeps the handles keeps the
    invariant, once the clauses on the reveal and on the loader are
    re-established. *)
Lemma inv_change s s' :
  Inv s →
  (∀ h tm, Timers.armed (timers s') !! h = Some tm →
           Timers.armed (timers s) !! h = Some tm) →
  Timers.next_handle (timers s') = Timers.next_handle (timers s) →
  infoTimer s' = infoTimer s →
  safetyTimeout s' = safetyTimeout s →
  (mounted s' = true → shown s' = false →
   Timers.armed (timers s') !! 1 = Some safety_timer) →
  sent overlay_ready s' = (if shown s' then 1 else 0) →
  loader_ok s' →
  Inv s'.
Proof.
  intros HI Hsub Hnh Hit Hst Hlive Hrev Hld.
  constructor; rewrite ?Hnh, ?Hit, ?Hst; try done; try apply HI.
  - intros h tm Hl. apply Hsub in Hl. by apply (inv_handles s HI h tm).
  - intros tm Hl. apply Hsub in Hl. by apply (inv_first s HI).
  - intros h tm Hl. apply Hsub in Hl. by apply (inv_safety_unique s HI h tm).
  - intros h tm Hl. apply Hsub in Hl. by apply (inv_info_unique s HI h tm).
Qed.

Lemma onImageLoaded_frame s :
  timers (onImageLoaded s) = timers s ∧
  infoTimer (onImageLoaded s) = infoTimer s ∧
  showInfo (onImageLoaded s) = showInfo s ∧
  mounted (onImageLoaded s) = mounted s ∧
  safetyTimeout (onImageLoaded s) = safetyTimeout s ∧
  loader (onImageLoaded s) = loader s ∧
  now (onImageLoaded s) = now s ∧
  warnings (onImageLoaded s) = warnings s.
Proof.
  destruct s as [d n si it lo [] st ld m nw tb inv w px]; cbn; by split_and!.
Qed.

Lemma onImageLoaded_effect s :
  displayedArtwork (onImageLoaded s) = nextArtwork s ∧
  nextArtwork (onImageLoaded s) = None ∧
  loading (onImageLoaded s) = false ∧
  shown (onImageLoaded s) = true ∧
  invoked (onImageLoaded s) =
    invoked s ++ (if shown s then [] else [overlay_ready]).
Proof.
  destruct s as [d n si it lo [] st ld m nw tb inv w px]; cbn; split_and!; try done.
  by rewrite app_nil_r.
Qed.

Lemma sent_app c s s' l :
  invoked s' = invoked s ++ l →
  sent c s' = sent c s + length (filter (λ x, x = c) l).
Proof. intros H. unfold sent. by rewrite H, filter_app, length_app. Qed.

Lemma loader_ok_frame s s' :
  loader s' = loader s →
  sent get_current_artwork s' = sent get_current_artwork s →
  loader_ok s → loader_ok s'.
Proof. unfold loader_ok. by intros -> ->. Qed.

Lemma inv_onImageLoaded s : Inv s → Inv (onImageLoaded s).
Proof.
  intros HI.
  destruct (onImageLoaded_frame s) as (Ht & Hit & _ & Hm & Hst & Hld & _).
  destruct (onImageLoaded_effect s) as (_ & _ & _ & Hsh & Hinv).
  apply (inv_change s); rewrite ?Ht, ?Hsh; try done.
  - rewrite (sent_app _ s _ _ Hinv), (inv_reveal s HI).
    by destruct (shown s).
  - apply (loader_ok_frame s); [done| |apply HI].
    rewrite (sent_app _ s _ _ Hinv). destruct (shown s); simpl; lia.
Qed.

Lemma inv_fire_safety s tm :
  Inv s → Timers.armed (timers s) !! 1 = Some tm → Inv (safety (fired 1 s)).
Proof.
  intros HI Hl.
  assert (shown (safety (fired 1 s)) = true ∧
          invoked (safety (fired 1 s)) =
            invoked s ++ (if shown s then [] else [overlay_ready]) ∧
          Timers.armed (timers (safety (fired 1 s))) = delete 1 (Timers.armed (timers s)) ∧
          Timers.next_handle (timers (safety (fired 1 s))) = Timers.next_handle (timers s) ∧
          infoTimer (safety (fired 1 s)) = infoTimer s ∧
          safetyTimeout (safety (fired 1 s)) = safetyTimeout s ∧
          loader (safety (fired 1 s)) = loader s) as (Hsh & Hinv & Harm & Hnh & Hit & Hst & Hld).
  { destruct s as [d n si it lo [] st ld m nw tb inv w px]; cbn; split_and!; try done.
    by rewrite app_nil_r. }
  apply (inv_change s); rewrite ?Harm, ?Hsh; try done.
  - intros h tm'. rewrite lookup_delete. by case_decide.
  - rewrite (sent_app _ s _ _ Hinv), (inv_reveal s HI). by destruct (shown s).
  - apply (loader_ok_frame s); [done| |apply HI].
    rewrite (sent_app _ s _ _ Hinv). destruct (shown s); simpl; lia.
Qed.

Lemma inv_fire_hide s h :
  Inv s → h ≠ 1 → Inv (hide_info (fired h s)).
Proof.
  intros HI Hh. apply (inv_change s); try done; try apply HI.
  - intros h' tm'. simpl. rewrite lookup_delete. by case_decide.
  - simpl. intros Hm Hs. rewrite lookup_delete_ne by done.
    by apply (inv_safety_live s HI).
Qed.

Lemma loop_head_frame fr s :
  timers (loop_head fr s) = timers s ∧
  infoTimer (loop_head fr s) = infoTimer s ∧
  safetyTimeout (loop_head fr s) = safetyTimeout s ∧
  mounted (loop_head fr s) = mounted s ∧
  shown (loop_head fr s) = shown s ∧
  showInfo (loop_head fr s) = showInfo s ∧
  displayedArtwork (loop_head fr s) = displayedArtwork s ∧
  nextArtwork (loop_head fr s) = nextArtwork s ∧
  loading (loop_head fr s) = loading s ∧
  now (loop_head fr s) = now s ∧
  warnings (loop_head fr s) = warnings s.
Proof. unfold loop_head. destruct (attempt fr <? retries fr); by split_and!. Qed.

Lemma loop_head_effect fr s :
  loader (loop_head fr s) =
    (if attempt fr <? retries fr then AwaitInvoke fr else Returned) ∧
  invoked (loop_head fr s) =
    invoked s ++ (if attempt fr <? retries fr then [get_current_artwork] else []).
Proof.
  unfold loop_head. destruct (attempt fr <? retries fr); split; try done.
  simpl. by rewrite app_nil_r.
Qed.

(** Entering the next round of the loop after round [fr] of three. *)
Lemma inv_loop_next fr s :
  Inv s → retries fr = 3 → attempt fr < 3 →
  sent get_current_artwork s = S (attempt fr) →
  Inv (loop_head (next_attempt fr) s).
Proof.
  intros HI Hr Ha Hs.
  destruct (loop_head_frame (next_attempt fr) s)
    as (Ht & Hit & Hst & Hm & Hsh & _).
  destruct (loop_head_effect (next_attempt fr) s) as (Hld & Hinv).
  apply (inv_change s); rewrite ?Ht, ?Hit, ?Hst, ?Hm, ?Hsh; try done; try apply HI.
  - rewrite (sent_app _ s _ _ Hinv), (inv_reveal s HI).
    destruct (_ <? _); simpl; lia.
  - unfold loader_ok. rewrite Hld, (sent_app _ s _ _ Hinv), Hs. simpl.
    rewrite Hr. destruct (S (attempt fr) <? 3) eqn:Hlt; simpl.
    + apply Nat.ltb_lt in Hlt. split_and!; [done|lia|lia].
    + lia.
Qed.

Lemma inv_fire_retry s h tm :
  Inv s → Timers.armed (timers s) !! h = Some tm → Timers.cb tm = CbRetry →
  Inv (resume_pause (fired h s)).
Proof.
  intros HI Hl Hcb.
  assert (h ≠ 1) as Hh.
  { intros ->. apply (inv_first s HI) in Hl. subst tm. done. }
  assert (Inv (fired h s)) as HF.
  { apply (inv_change s); try done; try apply HI.
    - intros h' tm'. simpl. rewrite lookup_delete. by case_decide.
    - simpl. intros Hm Hs. rewrite lookup_delete_ne by done.
      by apply (inv_safety_live s HI). }
  unfold resume_pause.
  pose proof (inv_loader _ HF) as Hok. unfold loader_ok in Hok.
  destruct (loader (fired h s)) as [|fr|fr|] eqn:Hld; try done.
  destruct Hok as (Hr & Ha & Hs).
  apply inv_loop_next; [done|done|lia|done].
Qed.

Lemma inv_pause fr s :
  Inv s → retries fr = 3 → attempt fr < 2 →
  sent get_current_artwork s = S (attempt fr) →
  Inv (with_loader (AwaitPause fr) (snd (setTimeout CbRetry 200 s))).
Proof.
  intros HI Hr Ha Hs. pose proof (inv_next_handle s HI) as Hn2.
  constructor; simpl.
  - apply HI.
  - lia.
  - intros h tm. rewrite lookup_insert. case_decide; [lia|].
    intros Hl. apply (inv_handles s HI) in Hl. lia.
  - intros tm. rewrite lookup_insert_ne by lia. apply (inv_first s HI).
  - intros h tm. rewrite lookup_insert. case_decide.
    + by intros [= <-].
    + apply (inv_safety_unique s HI).
  - intros Hm Hsh. rewrite lookup_insert_ne by lia.
    by apply (inv_safety_live s HI).
  - intros h tm. rewrite lookup_insert. case_decide.
    + by intros [= <-].
    + apply (inv_info_unique s HI).
  - intros h Hi. apply (inv_info_handle s HI) in Hi. lia.
  - apply (inv_reveal s HI).
  - unfold loader_ok. simpl. done.
Qed.

Lemma inv_after_try fr s :
  Inv s → loader s = AwaitInvoke fr → Inv (after_try fr s).
Proof.
  intros HI Hld. pose proof (inv_loader s HI) as Hok.
  unfold loader_ok in Hok. rewrite Hld in Hok. destruct Hok as (Hr & Ha & Hs).
  unfold after_try. rewrite Hr. simpl.
  destruct (attempt fr <? 2) eqn:Hlt.
  - apply Nat.ltb_lt in Hlt. by apply inv_pause.
  - by apply inv_loop_next.
Qed.

Lemma inv_resume_invoke r s : Inv s → Inv (resume_invoke r s).
Proof.
  intros HI. unfold resume_invoke.
  destruct (loader s) as [|fr|fr|] eqn:Hld; try done.
  pose proof (inv_loader s HI) as Hok.
  unfold loader_ok in Hok. rewrite Hld in Hok. destruct Hok as (Hr & Ha & Hs).
  destruct r as [[art|]|e].
  - assert (Inv (resetInfoTimer (assign_nextArtwork art s))) as HR.
    { apply inv_resetInfoTimer. by apply (inv_frame s). }
    apply (inv_change _ _ HR); try done; try apply HR.
    destruct (resetInfoTimer_frame (assign_nextArtwork art s))
      as (_ & _ & _ & _ & _ & _ & _ & _ & Hinv & _).
    unfold loader_ok, sent in *.
    change (length (filter (λ x, x = get_current_artwork)
              (invoked (resetInfoTimer (assign_nextArtwork art s)))) ≤ 3).
    rewrite Hinv. simpl. lia.
  - by apply inv_after_try.
  - apply inv_after_try; [|done]. by apply (inv_frame s).
Qed.

Lemma onKeyDown_frame k s :
  timers (onKeyDown k s) = timers s ∧
  infoTimer (onKeyDown k s) = infoTimer s ∧
  showInfo (onKeyDown k s) = showInfo s ∧
  shown (onKeyDown k s) = shown s ∧
  mounted (onKeyDown k s) = mounted s ∧
  safetyTimeout (onKeyDown k s) = safetyTimeout s ∧
  loader (onKeyDown k s) = loader s ∧
  displayedArtwork (onKeyDown k s) = displayedArtwork s ∧
  nextArtwork (onKeyDown k s) = nextArtwork s ∧
  now (onKeyDown k s) = now s ∧
  sent overlay_ready (onKeyDown k s) = sent overlay_ready s ∧
  sent get_current_artwork (onKeyDown k s) = sent get_current_artwork s.
Proof.
  unfold onKeyDown.
  repeat (case_match; [split_and!; try done; by rewrite sent_invoke, Nat.add_0_r|]).
  by split_and!.
Qed.

Lemma inv_onKeyDown k s : Inv s → Inv (onKeyDown k s).
Proof.
  intros HI. destruct (onKeyDown_frame k s)
    as (? & ? & ? & ? & ? & ? & ? & ? & ? & ? & ? & ?).
  by apply (inv_frame s).
Qed.

Lemma cleanup_frame s :
  displayedArtwork (cleanup s) = displayedArtwork s ∧
  nextArtwork (cleanup s) = nextArtwork s ∧
  showInfo (cleanup s) = showInfo s ∧
  infoTimer (cleanup s) = infoTimer s ∧
  loading (cleanup s) = loading s ∧
  shown (cleanup s) = shown s ∧
  safetyTimeout (cleanup s) = safetyTimeout s ∧
  loader (cleanup s) = loader s ∧
  now (cleanup s) = now s ∧
  invoked (cleanup s) = invoked s ∧
  warnings (cleanup s) = warnings s ∧
  mounted (cleanup s) = false ∧
  Timers.next_handle (timers (cleanup s)) = Timers.next_handle (timers s) ∧
  Timers.armed (timers (cleanup s)) =
    match safetyTimeout s with
    | Some h => delete h (cleared s)
    | None => cleared s
    end.
Proof.
  unfold cleared.
  destruct s as [d n si [[|h]|] lo sh [st|] ld m nw tb inv w px]; cbn; by split_and!.
Qed.

Lemma cleanup_shrinks s h tm :
  Inv s → Timers.armed (timers (cleanup s)) !! h = Some tm →
  Timers.armed (timers s) !! h = Some tm ∧ Timers.cb tm = CbRetry.
Proof.
  intros HI. destruct (cleanup_frame s) as (_&_&_&_&_&_&_&_&_&_&_&_&_& ->).
  rewrite (inv_safety_handle s HI), lookup_delete.
  case_decide as Hh; [done|]. intros Hl.
  apply (cleared_no_info s h tm HI) in Hl as [Hl Hni]. split; [done|].
  destruct (Timers.cb tm) eqn:Hcb; try done.
  by apply (inv_safety_unique s HI) in Hl.
Qed.

Lemma inv_cleanup s : Inv s → Inv (cleanup s).
Proof.
  intros HI.
  destruct (cleanup_frame s) as (_&_&_& Hit &_& Hsh & Hst & Hld &_& Hinv &_& Hm & Hnh &_).
  apply (inv_change s); rewrite ?Hsh; try done.
  - intros h tm Hl. by apply (cleanup_shrinks s h tm HI) in Hl as [Hl _].
  - by rewrite Hm.
  - unfold sent. rewrite Hinv. apply (inv_reveal s HI).
  - apply (loader_ok_frame s); [done| |apply HI]. unfold sent. by rewrite Hinv.
Qed.

Lemma inv_mount : Inv mount.
Proof.
  constructor; cbn; try done.
  - intros h tm. rewrite lookup_insert. case_decide; [lia|done].
  - intros tm. rewrite lookup_insert_eq. by intros [= <-].
  - intros h tm. rewrite lookup_insert. by case_decide.
  - intros h tm. rewrite lookup_insert. case_decide; [by intros [= <-]|done].
  - split_and!; [done|lia|done].
Qed.

Lemma inv_step s t ev s' : Inv s → step s t ev = Some s' → Inv s'.
Proof.
  intros HI. unfold step. destruct (t <? now s); [done|].
  assert (Inv (with_now t s)) as HN by (by apply (inv_frame s)).
  revert HN. generalize (with_now t s). clear HI s. intros s HI.
  destruct ev as [p|a|k| |r|h|].
  - destruct (mounted s); [|done]. intros [= <-].
    apply inv_resetInfoTimer. by apply (inv_frame s).
  - destruct (next_img_rendered s); [|done]. intros [= <-].
    by apply inv_onImageLoaded.
  - destruct (mounted s); [|done]. intros [= <-]. by apply inv_onKeyDown.
  - destruct (mounted s); [|done]. intros [= <-]. by apply inv_resetInfoTimer.
  - destruct (awaiting_invoke s); [|done]. intros [= <-].
    by apply inv_resume_invoke.
  - destruct (Timers.armed (timers s) !! h) as [tm|] eqn:Hl; [|done].
    destruct (Timers.due tm <=? t); [|done]. intros [= <-].
    destruct (Timers.cb tm) eqn:Hcb; simpl.
    + apply inv_fire_hide; [done|]. intros ->.
      apply (inv_first s HI) in Hl. by subst tm.
    + assert (h = 1) as -> by (by apply (inv_safety_unique s HI h tm)).
      by apply (inv_fire_safety s tm).
    + by apply (inv_fire_retry s h tm).
  - destruct (mounted s); [|done]. intros [= <-]. by apply inv_cleanup.
Qed.

Lemma run_snoc s tr t ev :
  run s (tr ++ [(t, ev)]) = run s tr ≫= λ s', step s' t ev.
Proof.
  revert s. induction tr as [|[t' ev'] tr IH]; intros s; simpl.
  - by destruct (step s t ev).
  - destruct (step s t' ev'); [apply IH|done].
Qed.

Lemma run_app s tr1 tr2 :
  run s (tr1 ++ tr2) = run s tr1 ≫= λ s', run s' tr2.
Proof.
  revert s. induction tr1 as [|[t ev] tr1 IH]; intros s; simpl; [done|].
  destruct (step s t ev); [apply IH|done].
Qed.

Lemma inv_run s tr s' : Inv s → run s tr = Some s' → Inv s'.
Proof.
  revert s. induction tr as [|[t ev] tr IH]; intros s HI; simpl.
  - by intros [= <-].
  - destruct (step s t ev) as [s1|] eqn:Hs; [|done].
    apply IH. by apply (inv_step s t ev).
Qed.

Lemma inv_reachable tr s : run mount tr = Some s → Inv s.
Proof. apply inv_run, inv_mount. Qed.

(** *** The loader's handlers *)

Lemma after_try_frame fr s :
  displayedArtwork (after_try fr s) = displayedArtwork s ∧
  nextArtwork (after_try fr s) = nextArtwork s ∧
  showInfo (after_try fr s) = showInfo s ∧
  infoTimer (after_try fr s) = infoTimer s ∧
  loading (after_try fr s) = loading s ∧
  shown (after_try fr s) = shown s ∧
  mounted (after_try fr s) = mounted s ∧
  now (after_try fr s) = now s ∧
  warnings (after_try fr s) = warnings s.
Proof.
  unfold after_try. destruct (attempt fr <? retries fr - 1); [by split_and!|].
  destruct (loop_head_frame (next_attempt fr) s)
    as (_ & ? & _ & ? & ? & ? & ? & ? & ? & ? & ?). by split_and!.
Qed.

Lemma after_try_effect fr s :
  loader (after_try fr s) =
    (if attempt fr <? retries fr - 1 then AwaitPause fr
     else if S (attempt fr) <? retries fr then AwaitInvoke (next_attempt fr)
     else Returned) ∧
  invoked (after_try fr s) =
    invoked s ++ (if attempt fr <? retries fr - 1 then []
                  else if S (attempt fr) <? retries fr then [get_current_artwork]
                  else []) ∧
  Timers.armed (timers (after_try fr s)) =
    (if attempt fr <? retries fr - 1
     then <[Timers.next_handle (timers s) :=
              {| Timers.due := now s + 200; Timers.cb := CbRetry |}]>
            (Timers.armed (timers s))
     else Timers.armed (timers s)).
Proof.
  unfold after_try. destruct (attempt fr <? retries fr - 1).
  - simpl. by rewrite app_nil_r.
  - destruct (loop_head_frame (next_attempt fr) s) as (-> & _).
    destruct (loop_head_effect (next_attempt fr) s) as (-> & ->). done.
Qed.

Lemma resume_invoke_frame r s :
  displayedArtwork (resume_invoke r s) = displayedArtwork s ∧
  loading (resume_invoke r s) = loading s ∧
  shown (resume_invoke r s) = shown s ∧
  mounted (resume_invoke r s) = mounted s ∧
  now (resume_invoke r s) = now s.
Proof.
  unfold resume_invoke. destruct (loader s) as [|fr|fr|]; try done.
  destruct r as [[art|]|e].
  - destruct (resetInfoTimer_frame (assign_nextArtwork art s))
      as (? & _ & ? & ? & _ & _ & ? & ? & _).
    change (displayedArtwork (resetInfoTimer (assign_nextArtwork art s))
              = displayedArtwork s ∧
            loading (resetInfoTimer (assign_nextArtwork art s)) = loading s ∧
            shown (resetInfoTimer (assign_nextArtwork art s)) = shown s ∧
            mounted (resetInfoTimer (assign_nextArtwork art s)) = mounted s ∧
            now (resetInfoTimer (assign_nextArtwork art s)) = now s).
    by split_and!.
  - destruct (after_try_frame fr s) as (? & _ & _ & _ & ? & ? & ? & ? & _).
    by split_and!.
  - destruct (after_try_frame fr (warn fr e s)) as (? & _ & _ & _ & ? & ? & ? & ? & _).
    by split_and!.
Qed.

(** A failed attempt leaves the visible state alone. *)
Lemma resume_invoke_failure_frame e s :
  nextArtwork (resume_invoke (failure e) s) = nextArtwork s ∧
  showInfo (resume_invoke (failure e) s) = showInfo s ∧
  infoTimer (resume_invoke (failure e) s) = infoTimer s.
Proof.
  unfold resume_invoke. destruct (loader s) as [|fr|fr|]; try done.
  destruct e as [m|]; simpl.
  - destruct (after_try_frame fr (warn fr m s)) as (_ & ? & ? & ? & _). by split_and!.
  - destruct (after_try_frame fr s) as (_ & ? & ? & ? & _). by split_and!.
Qed.

Lemma resume_pause_frame s :
  displayedArtwork (resume_pause s) = displayedArtwork s ∧
  nextArtwork (resume_pause s) = nextArtwork s ∧
  showInfo (resume_pause s) = showInfo s ∧
  infoTimer (resume_pause s) = infoTimer s ∧
  loading (resume_pause s) = loading s ∧
  shown (resume_pause s) = shown s ∧
  mounted (resume_pause s) = mounted s ∧
  now (resume_pause s) = now s ∧
  timers (resume_pause s) = timers s.
Proof.
  unfold resume_pause. destruct (loader s) as [|fr|fr|]; try done.
  destruct (loop_head_frame (next_attempt fr) s)
    as (? & ? & _ & ? & ? & ? & ? & ? & ? & ? & _). by split_and!.
Qed.

(** Every settled promise is a failure or carries an artwork. *)
Lemma settled_cases (r : Settled (option ArtObj)) :
  (∃ e, r = failure e) ∨ (∃ a, r = Resolved (Some a)).
Proof.
  destruct r as [[a|]|m]; [right; by exists a|left; by exists None|left; by exists (Some m)].
Qed.

(** *** The reveal latch *)

Lemma step_shown s t ev s' :
  Inv s → step s t ev = Some s' → shown s' = shown s || reveals ev.
Proof.
  intros HI. unfold step. destruct (t <? now s); [done|].
  assert (Inv (with_now t s)) as HN by (by apply (inv_frame s)).
  change (shown s) with (shown (with_now t s)).
  revert HN. generalize (with_now t s). clear HI s. intros s HI.
  destruct ev as [p|a|k| |r|h|]; cbn [reveals].
  - destruct (mounted s); [|done]. intros [= <-].
    unfold on_artwork_changed.
    destruct (resetInfoTimer_frame (assign_nextArtwork p s)) as (_&_&_& -> &_).
    simpl. by rewrite orb_false_r.
  - destruct (next_img_rendered s); [|done]. intros [= <-].
    destruct (onImageLoaded_effect s) as (_&_&_& -> &_). by rewrite orb_true_r.
  - destruct (mounted s); [|done]. intros [= <-].
    destruct (onKeyDown_frame k s) as (_&_&_& -> &_). by rewrite orb_false_r.
  - destruct (mounted s); [|done]. intros [= <-]. unfold onMouseMove.
    destruct (resetInfoTimer_frame s) as (_&_&_& -> &_). by rewrite orb_false_r.
  - destruct (awaiting_invoke s); [|done]. intros [= <-].
    destruct (resume_invoke_frame r s) as (_&_& -> &_). by rewrite orb_false_r.
  - destruct (Timers.armed (timers s) !! h) as [tm|] eqn:Hl; [|done].
    destruct (Timers.due tm <=? t); [|done]. intros [= <-].
    destruct (Timers.cb tm) eqn:Hcb; cbn [run_callback].
    + replace (h =? 1) with false; [by rewrite orb_false_r|].
      symmetry. apply Nat.eqb_neq. intros ->.
      apply (inv_first s HI) in Hl. by subst tm.
    + assert (h = 1) as -> by (by apply (inv_safety_unique s HI h tm)).
      rewrite orb_true_r. unfold safety, fired.
      destruct s as [d n si it lo [] st ld m nw tb inv w px]; reflexivity.
    + destruct (resume_pause_frame (fired h s)) as (_&_&_&_&_& -> &_). simpl.
      replace (h =? 1) with false; [by rewrite orb_false_r|].
      symmetry. apply Nat.eqb_neq. intros ->.
      apply (inv_first s HI) in Hl. by subst tm.
  - destruct (mounted s); [|done]. intros [= <-].
    destruct (cleanup_frame s) as (_&_&_&_&_& -> &_). by rewrite orb_false_r.
Qed.

(** C2. In every state the controller reaches, [overlay_ready] has been
    sent once if [shown] is set and not at all otherwise; a step never
    resets [shown], and sets it exactly when the event is a
    decode-complete or the firing of the safety timeout, so the first of
    the two to occur sends the one reveal and no later event sends
    another; while the component is mounted and not yet revealed the
    safety timeout stays armed for 3000 ms after the start and its firing,
    possible at any time from then on, reveals. *)
Theorem reveal_once tr s :
  run mount tr = Some s →
  sent overlay_ready s = (if shown s then 1 else 0) ∧
  safetyTimeout s = Some 1 ∧
  (∀ t ev s', step s t ev = Some s' →
     shown s' = shown s || reveals ev ∧
     sent overlay_ready s' = (if shown s' then 1 else 0)) ∧
  (mounted s = true → shown s = false →
   Timers.armed (timers s) !! 1 = Some safety_timer ∧
   ∀ t, shown <$> step s t (TimerFired 1) =
        if (now s <=? t) && (3000 <=? t) then Some true else None).
Proof.
  intros Hrun. pose proof (inv_reachable tr s Hrun) as HI. split_and!.
  - apply (inv_reveal s HI).
  - apply (inv_safety_handle s HI).
  - intros t ev s' Hs. split.
    + by apply (step_shown s t ev).
    + apply inv_reveal. by apply (inv_step s t ev).
  - intros Hm Hsh. pose proof (inv_safety_live s HI Hm Hsh) as Hl.
    split; [done|]. intros t. unfold step.
    destruct (t <? now s) eqn:Ht.
    + apply Nat.ltb_lt in Ht. rewrite (proj2 (Nat.leb_gt (now s) t)) by lia. done.
    + apply Nat.ltb_ge in Ht. rewrite (proj2 (Nat.leb_le (now s) t)) by lia.
      cbn [andb]. change (timers (with_now t s)) with (timers s). rewrite Hl.
      cbn [Timers.due Timers.cb safety_timer run_callback].
      destruct (3000 <=? t); [|done].
      unfold safety, fired.
      destruct s as [d n si it lo sh st ld m nw tb inv w px]. simpl in *.
      by rewrite Hsh.
Qed.

Lemma reveal_once_witness :
  run mount [(10, ArtworkChanged (sample 1 "A")); (50, ImageLoaded (sample 1 "A"));
             (3000, TimerFired 1)]
    = Some (reached [(10, ArtworkChanged (sample 1 "A"));
                     (50, ImageLoaded (sample 1 "A")); (3000, TimerFired 1)]) ∧
  sent overlay_ready
    (reached [(10, ArtworkChanged (sample 1 "A"));
              (50, ImageLoaded (sample 1 "A")); (3000, TimerFired 1)])
    = (if shown (reached [(10, ArtworkChanged (sample 1 "A"));
                          (50, ImageLoaded (sample 1 "A")); (3000, TimerFired 1)])
       then 1 else 0).
Proof.
  split; [vm_compute; reflexivity|].
  refine (proj1 (reveal_once
            [(10, ArtworkChanged (sample 1 "A")); (50, ImageLoaded (sample 1 "A"));
             (3000, TimerFired 1)] _ _)).
  vm_compute; reflexivity.
Defined.

(** *** The info-bar countdown *)

Lemma step_now s t ev s' : step s t ev = Some s' → now s ≤ t ∧ now s' = t.
Proof.
  unfold step. destruct (t <? now s) eqn:Ht; [done|].
  apply Nat.ltb_ge in Ht. intros Hs. split; [done|].
  change t with (now (with_now t s)). revert Hs. generalize (with_now t s).
  clear Ht s. intros s. destruct ev as [p|a|k| |r|h|].
  - destruct (mounted s); [|done]. intros [= <-]. unfold on_artwork_changed.
    by destruct (resetInfoTimer_frame (assign_nextArtwork p s)) as (_&_&_&_&_&_&_& -> &_).
  - destruct (next_img_rendered s); [|done]. intros [= <-].
    by destruct (onImageLoaded_frame s) as (_&_&_&_&_&_& -> &_).
  - destruct (mounted s); [|done]. intros [= <-].
    by destruct (onKeyDown_frame k s) as (_&_&_&_&_&_&_&_&_& -> &_).
  - destruct (mounted s); [|done]. intros [= <-]. unfold onMouseMove.
    by destruct (resetInfoTimer_frame s) as (_&_&_&_&_&_&_& -> &_).
  - destruct (awaiting_invoke s); [|done]. intros [= <-].
    by destruct (resume_invoke_frame r s) as (_&_&_&_& ->).
  - destruct (Timers.armed (timers s) !! h) as [tm|]; [|done].
    destruct (Timers.due tm <=? t); [|done]. intros [= <-].
    destruct (Timers.cb tm); cbn [run_callback].
    + done.
    + unfold safety. by destruct (negb _).
    + by destruct (resume_pause_frame (fired h s)) as (_&_&_&_&_&_&_& -> &_).
  - destruct (mounted s); [|done]. intros [= <-].
    by destruct (cleanup_frame s) as (_&_&_&_&_&_&_&_& -> &_).
Qed.

(** After [resetInfoTimer] the bar is visible and the one live countdown
    is the new one, due 4000 ms from now. *)
Lemma resetInfoTimer_single s :
  Inv s →
  showInfo (resetInfoTimer s) = true ∧
  infoTimer (resetInfoTimer s) = Some (Timers.next_handle (timers s)) ∧
  Timers.armed (timers (resetInfoTimer s)) !! Timers.next_handle (timers s)
    = Some {| Timers.due := now s + 4000; Timers.cb := CbHideInfo |} ∧
  ∀ h tm, Timers.armed (timers (resetInfoTimer s)) !! h = Some tm →
          Timers.cb tm = CbHideInfo → h = Timers.next_handle (timers s).
Proof.
  intros HI. destruct (resetInfoTimer_effect s) as (Hsi & Hit & _ & Harm).
  rewrite Harm. split_and!; try done.
  - apply lookup_insert_eq.
  - intros h tm. rewrite lookup_insert. case_decide; [done|].
    intros Hl Hcb. by apply (cleared_no_info s h tm HI) in Hl as [_ Hl].
Qed.

Lemma step_activity s t ev s' :
  Inv s → activity ev = true → step s t ev = Some s' →
  showInfo s' = true ∧
  infoTimer s' = Some (Timers.next_handle (timers s)) ∧
  Timers.armed (timers s') !! Timers.next_handle (timers s)
    = Some {| Timers.due := t + 4000; Timers.cb := CbHideInfo |} ∧
  ∀ h tm, Timers.armed (timers s') !! h = Some tm →
          Timers.cb tm = CbHideInfo → h = Timers.next_handle (timers s).
Proof.
  intros HI Ha. unfold step. destruct (t <? now s); [done|].
  assert (Inv (with_now t s)) as HN by (by apply (inv_frame s)).
  set (s0 := with_now t s) in *.
  replace (timers s) with (timers s0) by reflexivity.
  replace (t + 4000) with (now s0 + 4000) by reflexivity.
  clearbody s0. clear HI s. rename s0 into s, HN into HI.
  destruct ev as [p|a|k| |[[a|]|m]|h|]; try done.
  - destruct (mounted s); [|done]. intros [= <-].
    apply (resetInfoTimer_single (assign_nextArtwork p s)).
    by apply (inv_frame s).
  - destruct (mounted s); [|done]. intros [= <-].
    by apply (resetInfoTimer_single s).
  - destruct (awaiting_invoke s) eqn:Haw; [|done]. intros [= <-].
    unfold awaiting_invoke in Haw. unfold resume_invoke.
    destruct (loader s); try done.
    apply (resetInfoTimer_single (assign_nextArtwork a s)).
    by apply (inv_frame s).
Qed.

Lemma step_no_new_countdown s t ev s' h tm :
  Inv s → activity ev = false → step s t ev = Some s' →
  Timers.armed (timers s') !! h = Some tm → Timers.cb tm = CbHideInfo →
  Timers.armed (timers s) !! h = Some tm.
Proof.
  intros HI Ha. unfold step. destruct (t <? now s); [done|].
  assert (Inv (with_now t s)) as HN by (by apply (inv_frame s)).
  change (timers s) with (timers (with_now t s)).
  revert HN. generalize (with_now t s). clear HI s. intros s HI.
  destruct ev as [p|a|k| |r|h'|]; try done.
  - destruct (next_img_rendered s); [|done]. intros [= <-].
    by destruct (onImageLoaded_frame s) as (-> &_).
  - destruct (mounted s); [|done]. intros [= <-].
    by destruct (onKeyDown_frame k s) as (-> &_).
  - destruct (awaiting_invoke s) eqn:Haw; [|done]. intros [= <-].
    unfold awaiting_invoke in Haw. unfold resume_invoke.
    destruct (loader s) as [|fr|fr|]; try done.
    assert (∀ s0, timers s0 = timers s →
              Timers.armed (timers (after_try fr s0)) !! h = Some tm →
              Timers.cb tm = CbHideInfo →
              Timers.armed (timers s) !! h = Some tm) as Hat.
    { intros s0 Hs0. destruct (after_try_effect fr s0) as (_ & _ & ->).
      rewrite Hs0. destruct (_ <? _); [|done].
      rewrite lookup_insert. case_decide; [|done]. by intros [= <-]. }
    destruct r as [[a|]|m]; [done|by apply Hat|by apply Hat].
  - destruct (Timers.armed (timers s) !! h') as [tm'|]; [|done].
    destruct (Timers.due tm' <=? t); [|done]. intros [= <-].
    assert (Timers.armed (timers (fired h' s)) !! h = Some tm →
            Timers.armed (timers s) !! h = Some tm) as Hf.
    { simpl. rewrite lookup_delete. by case_decide. }
    destruct (Timers.cb tm'); cbn [run_callback].
    + intros Hl _. by apply Hf.
    + unfold safety. intros Hl _. apply Hf. by destruct (negb _).
    + destruct (resume_pause_frame (fired h' s)) as (_&_&_&_&_&_&_&_& ->).
      intros Hl _. by apply Hf.
  - destruct (mounted s); [|done]. intros [= <-] Hl _.
    by apply (cleanup_shrinks s h tm HI) in Hl as [Hl _].
Qed.

Lemma quiet_reachable tr s :
  run mount tr = Some s →
  quiet_since tr s ∧ ∀ ta ea, (ta, ea) ∈ tr → ta ≤ now s.
Proof.
  revert s. induction tr as [|[t ev] tr IH] using rev_ind; intros s.
  - intros [= <-]. split.
    + intros h tm ta ea _ _ Hin. by apply elem_of_nil in Hin.
    + intros ta ea Hin. by apply elem_of_nil in Hin.
  - rewrite run_snoc. destruct (run mount tr) as [s0|] eqn:Hrun; [|done].
    simpl. intros Hstep. destruct (IH s0 eq_refl) as [Hq Hle].
    pose proof (inv_reachable tr s0 Hrun) as HI.
    destruct (step_now s0 t ev s Hstep) as [Hnow0 Hnow].
    split.
    + intros h tm ta ea Hl Hcb Hin Hact.
      destruct (activity ev) eqn:Hev.
      * destruct (step_activity s0 t ev s HI Hev Hstep) as (_ & _ & Hnew & Hone).
        rewrite (Hone h tm Hl Hcb) in Hl. rewrite Hnew in Hl.
        injection Hl as <-. simpl.
        apply elem_of_app in Hin as [Hin|Hin].
        -- apply Hle in Hin. lia.
        -- apply list_elem_of_singleton in Hin. injection Hin as -> ->. lia.
      * pose proof (step_no_new_countdown s0 t ev s h tm HI Hev Hstep Hl Hcb) as Hl0.
        apply elem_of_app in Hin as [Hin|Hin].
        -- by apply (Hq h tm ta ea).
        -- apply list_elem_of_singleton in Hin. injection Hin as -> ->. congruence.
    + intros ta ea Hin. apply elem_of_app in Hin as [Hin|Hin].
      * apply Hle in Hin. lia.
      * apply list_elem_of_singleton in Hin. injection Hin as -> ->. lia.
Qed.

Lemma step_hides s t ev s' :
  Inv s → step s t ev = Some s' → showInfo s = true → showInfo s' = false →
  ∃ h tm, ev = TimerFired h ∧ Timers.armed (timers s) !! h = Some tm ∧
          Timers.cb tm = CbHideInfo ∧ Timers.due tm ≤ t.
Proof.
  intros HI Hstep Hsi Hsi'.
  destruct (activity ev) eqn:Ha.
  { destruct (step_activity s t ev s' HI Ha Hstep) as (Ht & _). congruence. }
  revert Hstep. unfold step. destruct (t <? now s); [done|].
  change (showInfo s) with (showInfo (with_now t s)) in Hsi.
  change (timers s) with (timers (with_now t s)).
  revert Hsi. generalize (with_now t s). clear HI s. intros s Hsi.
  destruct ev as [p|a|k| |r|h|]; try done.
  - destruct (next_img_rendered s); [|done]. intros [= <-].
    destruct (onImageLoaded_frame s) as (_&_& Hf &_). congruence.
  - destruct (mounted s); [|done]. intros [= <-].
    destruct (onKeyDown_frame k s) as (_&_& Hf &_). congruence.
  - destruct (awaiting_invoke s); [|done]. intros [= <-].
    destruct (settled_cases r) as [[e ->]|[a ->]]; [|done].
    destruct (resume_invoke_failure_frame e s) as (_ & Hf & _). congruence.
  - destruct (Timers.armed (timers s) !! h) as [tm|] eqn:Hl; [|done].
    destruct (Timers.due tm <=? t) eqn:Hd; [|done]. intros [= <-].
    apply Nat.leb_le in Hd.
    destruct (Timers.cb tm) eqn:Hcb; cbn [run_callback] in *.
    + by exists h, tm.
    + unfold safety in Hsi'. destruct (negb _); simpl in Hsi'; congruence.
    + destruct (resume_pause_frame (fired h s)) as (_&_& Hf &_).
      simpl in Hf. congruence.
  - destruct (mounted s); [|done]. intros [= <-].
    destruct (cleanup_frame s) as (_&_& Hf &_). congruence.
Qed.

(** C9. In every state the controller reaches, at most one info-bar
    countdown is live, the one whose handle [infoTimer] holds. An
    artwork-change notification or a pointer movement (and a successful
    initial load) makes the bar visible and leaves exactly one countdown,
    armed for 4000 ms from that moment, any earlier one being cancelled.
    The bar turns from visible to hidden only when a live countdown
    fires, no earlier than its due time, and then every activity of the
    history lies at least 4000 ms in the past; a countdown that fires
    hides the bar. *)
Theorem info_bar_debounce tr s :
  run mount tr = Some s →
  (∀ h tm, Timers.armed (timers s) !! h = Some tm →
           Timers.cb tm = CbHideInfo → infoTimer s = Some h) ∧
  (∀ t ev s', activity ev = true → step s t ev = Some s' →
     showInfo s' = true ∧
     ∃ h, infoTimer s' = Some h ∧
          Timers.armed (timers s') !! h
            = Some {| Timers.due := t + 4000; Timers.cb := CbHideInfo |} ∧
          ∀ h' tm, Timers.armed (timers s') !! h' = Some tm →
                   Timers.cb tm = CbHideInfo → h' = h) ∧
  (∀ t ev s', step s t ev = Some s' → showInfo s = true → showInfo s' = false →
     (∃ h tm, ev = TimerFired h ∧ Timers.armed (timers s) !! h = Some tm ∧
              Timers.cb tm = CbHideInfo ∧ Timers.due tm ≤ t) ∧
     ∀ ta ea, (ta, ea) ∈ tr → activity ea = true → ta + 4000 ≤ t) ∧
  (∀ t h tm, Timers.armed (timers s) !! h = Some tm →
     Timers.cb tm = CbHideInfo →
     showInfo <$> step s t (TimerFired h) =
     if (now s <=? t) && (Timers.due tm <=? t) then Some false else None).
Proof.
  intros Hrun. pose proof (inv_reachable tr s Hrun) as HI.
  destruct (quiet_reachable tr s Hrun) as [Hq Hle].
  split_and!.
  - apply (inv_info_unique s HI).
  - intros t ev s' Ha Hs.
    destruct (step_activity s t ev s' HI Ha Hs) as (? & ? & ? & ?).
    split; [done|]. by exists (Timers.next_handle (timers s)).
  - intros t ev s' Hs Hsi Hsi'.
    destruct (step_hides s t ev s' HI Hs Hsi Hsi') as (h & tm & -> & Hl & Hcb & Hd).
    split; [by exists h, tm|].
    intros ta ea Hin Hact. pose proof (Hq h tm ta ea Hl Hcb Hin Hact). lia.
  - intros t h tm Hl Hcb. unfold step.
    destruct (t <? now s) eqn:Ht.
    + apply Nat.ltb_lt in Ht. rewrite (proj2 (Nat.leb_gt (now s) t)) by lia. done.
    + apply Nat.ltb_ge in Ht. rewrite (proj2 (Nat.leb_le (now s) t)) by lia.
      cbn [andb]. change (timers (with_now t s)) with (timers s). rewrite Hl.
      destruct (Timers.due tm <=? t); [|done]. by rewrite Hcb.
Qed.

Lemma info_bar_debounce_witness :
  run mount [(10, MouseMove); (500, ArtworkChanged (sample 1 "A"))]
    = Some (reached [(10, MouseMove); (500, ArtworkChanged (sample 1 "A"))]) ∧
  ∀ h tm,
    Timers.armed (timers (reached [(10, MouseMove);
                                   (500, ArtworkChanged (sample 1 "A"))])) !! h
      = Some tm →
    Timers.cb tm = CbHideInfo →
    infoTimer (reached [(10, MouseMove); (500, ArtworkChanged (sample 1 "A"))])
      = Some h.
Proof.
  split; [vm_compute; reflexivity|].
  refine (proj1 (info_bar_debounce
            [(10, MouseMove); (500, ArtworkChanged (sample 1 "A"))] _ _)).
  vm_compute; reflexivity.
Defined.

(** *** The initial load *)

Lemma same_view_trans s1 s2 s3 : same_view s1 s2 → same_view s2 s3 → same_view s1 s3.
Proof. unfold same_view. intros (?&?&?&?&?&?&?) (?&?&?&?&?&?&?). split_and!; congruence. Qed.

(** A failed attempt that is not the last one: the loader pauses on a
    fresh 200 ms timer and sends nothing. *)
Lemma step_failure_pause s t e fr :
  loader s = AwaitInvoke fr → (attempt fr <? retries fr - 1) = true → now s ≤ t →
  ∃ s', step s t (GetCurrentSettled (failure e)) = Some s' ∧
        loader s' = AwaitPause fr ∧
        Timers.armed (timers s') =
          <[Timers.next_handle (timers s) :=
              {| Timers.due := t + 200; Timers.cb := CbRetry |}]>
            (Timers.armed (timers s)) ∧
        Timers.next_handle (timers s') = S (Timers.next_handle (timers s)) ∧
        now s' = t ∧ same_view s s' ∧ invoked s' = invoked s.
Proof.
  intros Hld Hlt Hnow. unfold step.
  rewrite (proj2 (Nat.ltb_ge t (now s))) by done.
  unfold awaiting_invoke, resume_invoke. cbn [loader with_now]. rewrite Hld.
  eexists. split; [reflexivity|].
  destruct e as [m|]; unfold failure, after_try; cbn [attempt retries];
    rewrite Hlt; by split_and!.
Qed.

(** The last failed attempt: the loop ends and [loadArtwork] returns. *)
Lemma step_failure_last s t e fr :
  loader s = AwaitInvoke fr → (attempt fr <? retries fr - 1) = false →
  (S (attempt fr) <? retries fr) = false → now s ≤ t →
  ∃ s', step s t (GetCurrentSettled (failure e)) = Some s' ∧
        loader s' = Returned ∧ timers s' = timers s ∧
        now s' = t ∧ same_view s s' ∧ invoked s' = invoked s.
Proof.
  intros Hld Hlt Hlt' Hnow. unfold step.
  rewrite (proj2 (Nat.ltb_ge t (now s))) by done.
  unfold awaiting_invoke, resume_invoke. cbn [loader with_now]. rewrite Hld.
  eexists. split; [reflexivity|].
  destruct e as [m|]; unfold failure, after_try, loop_head;
    cbn [attempt retries next_attempt]; rewrite Hlt, Hlt'; by split_and!.
Qed.

(** The end of a pause: the next attempt is sent. *)
Lemma step_pause_over s t h d fr :
  loader s = AwaitPause fr → (S (attempt fr) <? retries fr) = true →
  Timers.armed (timers s) !! h = Some {| Timers.due := d; Timers.cb := CbRetry |} →
  now s ≤ t → d ≤ t →
  ∃ s', step s t (TimerFired h) = Some s' ∧
        loader s' = AwaitInvoke (next_attempt fr) ∧
        Timers.armed (timers s') = delete h (Timers.armed (timers s)) ∧
        Timers.next_handle (timers s') = Timers.next_handle (timers s) ∧
        now s' = t ∧ same_view s s' ∧
        invoked s' = invoked s ++ [get_current_artwork].
Proof.
  intros Hld Hlt Hl Hnow Hd. unfold step.
  rewrite (proj2 (Nat.ltb_ge t (now s))) by done.
  cbn [timers with_now]. rewrite Hl. cbn [Timers.due Timers.cb run_callback].
  rewrite (proj2 (Nat.leb_le d t)) by done.
  eexists. split; [reflexivity|].
  unfold resume_pause, fired. cbn [loader with_timers with_now]. rewrite Hld.
  unfold loop_head. cbn [attempt retries next_attempt]. rewrite Hlt.
  by split_and!.
Qed.

(** A pause cannot end before its 200 ms are over. *)
Lemma step_pause_early s t h d :
  Timers.armed (timers s) !! h = Some {| Timers.due := d; Timers.cb := CbRetry |} →
  t < d → step s t (TimerFired h) = None.
Proof.
  intros Hl Hd. unfold step. destruct (t <? now s); [done|].
  cbn [timers with_now]. rewrite Hl. cbn [Timers.due].
  by rewrite (proj2 (Nat.leb_gt d t)) by done.
Qed.

(** While the loader pauses or has returned, no request is in flight. *)
Lemma step_nothing_in_flight s t r :
  awaiting_invoke s = false → step s t (GetCurrentSettled r) = None.
Proof.
  intros Ha. unfold step. destruct (t <? now s); [done|].
  change (awaiting_invoke (with_now t s)) with (awaiting_invoke s). by rewrite Ha.
Qed.

Lemma three_failures_run e1 e2 e3 d1 d2 d3 d4 d5 :
  ∃ s, run mount (three_failures e1 e2 e3 d1 d2 d3 d4 d5) = Some s ∧
       loader s = Returned ∧ same_view mount s ∧
       invoked s = [get_current_artwork; get_current_artwork; get_current_artwork] ∧
       Timers.armed (timers s) = {[1 := safety_timer]}.
Proof.
  unfold three_failures, run.
  destruct (step_failure_pause mount d1 e1 {| attempt := 0; retries := 3 |})
    as (s1 & -> & Hl1 & Ha1 & Hn1 & Ht1 & Hv1 & Hi1); [done|done|simpl; lia|].
  destruct (step_pause_over s1 (d1 + 200 + d2) 2 (d1 + 200) {| attempt := 0; retries := 3 |})
    as (s2 & -> & Hl2 & Ha2 & Hn2 & Ht2 & Hv2 & Hi2); [done|done| |lia|lia|].
  { rewrite Ha1. apply lookup_insert_eq. }
  destruct (step_failure_pause s2 (d1 + 200 + d2 + d3) e2 {| attempt := 1; retries := 3 |})
    as (s3 & -> & Hl3 & Ha3 & Hn3 & Ht3 & Hv3 & Hi3); [done|done|lia|].
  destruct (step_pause_over s3 (d1 + 200 + d2 + d3 + 200 + d4) 3
              (d1 + 200 + d2 + d3 + 200) {| attempt := 1; retries := 3 |})
    as (s4 & -> & Hl4 & Ha4 & Hn4 & Ht4 & Hv4 & Hi4); [done|done| |lia|lia|].
  { rewrite Ha3, Hn2, Hn1. apply lookup_insert_eq. }
  destruct (step_failure_last s4 (d1 + 200 + d2 + d3 + 200 + d4 + d5) e3
              {| attempt := 2; retries := 3 |})
    as (s5 & -> & Hl5 & Ha5 & Ht5 & Hv5 & Hi5); [done|done|done|lia|].
  exists s5. split_and!; try done.
  - repeat (eapply same_view_trans; [|eassumption]). by split_and!.
  - by rewrite Hi5, Hi4, Hi3, Hi2, Hi1.
  - rewrite Ha5, Ha4, Ha3, Ha2, Ha1, Hn2, Hn1. simpl.
    rewrite delete_insert_eq, delete_insert_eq. apply delete_id. done.
Qed.

(** A new request leaves only when a retry pause ends. *)
Lemma step_sends s t ev s' :
  Inv s → step s t ev = Some s' →
  sent get_current_artwork s' ≠ sent get_current_artwork s →
  ∃ h tm, ev = TimerFired h ∧ Timers.armed (timers s) !! h = Some tm ∧
          Timers.cb tm = CbRetry ∧ Timers.due tm ≤ t.
Proof.
  intros HI. unfold step. destruct (t <? now s); [done|].
  assert (Inv (with_now t s)) as HN by (by apply (inv_frame s)).
  set (s0 := with_now t s) in *.
  replace (timers s) with (timers s0) by reflexivity.
  replace (sent get_current_artwork s) with (sent get_current_artwork s0)
    by reflexivity.
  clearbody s0. clear HI s. rename s0 into s, HN into HI.
  destruct ev as [p|a|k| |r|h|].
  - destruct (mounted s); [|done]. intros [= <-] Hne. exfalso. apply Hne.
    unfold on_artwork_changed, sent.
    by destruct (resetInfoTimer_frame (assign_nextArtwork p s))
      as (_&_&_&_&_&_&_&_& -> &_).
  - destruct (next_img_rendered s); [|done]. intros [= <-] Hne. exfalso. apply Hne.
    destruct (onImageLoaded_effect s) as (_&_&_&_& Hinv).
    rewrite (sent_app _ s _ _ Hinv). destruct (shown s); simpl; lia.
  - destruct (mounted s); [|done]. intros [= <-] Hne. exfalso. apply Hne.
    by destruct (onKeyDown_frame k s) as (_&_&_&_&_&_&_&_&_&_&_& ->).
  - destruct (mounted s); [|done]. intros [= <-] Hne. exfalso. apply Hne.
    unfold onMouseMove, sent.
    by destruct (resetInfoTimer_frame s) as (_&_&_&_&_&_&_&_& -> &_).
  - destruct (awaiting_invoke s) eqn:Haw; [|done]. intros [= <-] Hne.
    exfalso. apply Hne. unfold awaiting_invoke in Haw. unfold resume_invoke.
    pose proof (inv_loader s HI) as Hok. unfold loader_ok in Hok.
    destruct (loader s) as [|fr|fr|]; try done. destruct Hok as (Hr & Ha & _).
    assert (∀ s0, invoked s0 = invoked s →
              sent get_current_artwork (after_try fr s0) = sent get_current_artwork s)
      as Hat.
    { intros s0 Hs0. destruct (after_try_effect fr s0) as (_ & Hinv & _).
      rewrite (sent_app _ s0 _ _ Hinv). unfold sent at 1. rewrite Hs0, Hr.
      destruct (attempt fr <? 3 - 1) eqn:H1; [unfold sent; simpl; lia|].
      apply Nat.ltb_ge in H1.
      rewrite (proj2 (Nat.ltb_ge (S (attempt fr)) 3)) by lia. simpl.
      unfold sent. lia. }
    destruct r as [[a|]|m]; [|by apply Hat|by apply Hat].
    unfold sent.
    change (invoked (with_loader Returned
              (resetInfoTimer (assign_nextArtwork a s))))
      with (invoked (resetInfoTimer (assign_nextArtwork a s))).
    by destruct (resetInfoTimer_frame (assign_nextArtwork a s))
      as (_&_&_&_&_&_&_&_& -> &_).
  - destruct (Timers.armed (timers s) !! h) as [tm|] eqn:Hl; [|done].
    destruct (Timers.due tm <=? t) eqn:Hd; [|done]. intros [= <-] Hne.
    apply Nat.leb_le in Hd.
    destruct (Timers.cb tm) eqn:Hcb; cbn [run_callback] in Hne.
    + done.
    + exfalso. apply Hne. unfold safety.
      destruct (negb _); [|done]. by rewrite sent_invoke, Nat.add_0_r.
    + by exists h, tm.
  - destruct (mounted s); [|done]. intros [= <-] Hne. exfalso. apply Hne.
    unfold sent. by destruct (cleanup_frame s) as (_&_&_&_&_&_&_&_&_& -> &_).
Qed.

Lemma step_success s t a s' :
  Inv s → step s t (GetCurrentSettled (Resolved (Some a))) = Some s' →
  loader s' = Returned ∧
  nextArtwork s' = Some {| pid := proxies s; target := a |} ∧
  displayedArtwork s' = displayedArtwork s ∧ invoked s' = invoked s.
Proof.
  intros HI. unfold step. destruct (t <? now s); [done|].
  destruct (awaiting_invoke (with_now t s)) eqn:Haw; [|done]. intros [= <-].
  unfold awaiting_invoke in Haw. unfold resume_invoke.
  destruct (loader (with_now t s)); try done.
  destruct (resetInfoTimer_frame (assign_nextArtwork a (with_now t s)))
    as (Hd & Hn &_&_&_&_&_&_& Hinv &_).
  split_and!; [done|apply Hn|apply Hd|apply Hinv].
Qed.

Lemma step_failure s t e s' :
  Inv s → step s t (GetCurrentSettled (failure e)) = Some s' →
  same_view s s' ∧
  ((∃ fr, loader s' = AwaitPause fr ∧ invoked s' = invoked s ∧
          Timers.armed (timers s') !! Timers.next_handle (timers s)
            = Some {| Timers.due := t + 200; Timers.cb := CbRetry |}) ∨
   (loader s' = Returned ∧ invoked s' = invoked s ∧
    sent get_current_artwork s = 3)).
Proof.
  intros HI Hs. pose proof (inv_loader s HI) as Hok. unfold loader_ok in Hok.
  destruct (step_now s t _ s' Hs) as [Hnow _].
  destruct (loader s) as [|fr|fr|] eqn:Hld;
    try (rewrite step_nothing_in_flight in Hs;
         [done|by unfold awaiting_invoke; rewrite Hld]).
  destruct Hok as (Hr & Ha & Hsent).
  destruct (attempt fr <? retries fr - 1) eqn:Hlt.
  - destruct (step_failure_pause s t e fr Hld Hlt Hnow)
      as (s1 & Hs1 & Hl1 & Ha1 & _ & _ & Hv1 & Hi1).
    rewrite Hs in Hs1. injection Hs1 as <-. split; [done|]. left.
    exists fr. split_and!; [done|done|]. rewrite Ha1. apply lookup_insert_eq.
  - assert (attempt fr = 2) as Ha2
      by (apply Nat.ltb_ge in Hlt; rewrite Hr in Hlt; simpl in Hlt; lia).
    destruct (step_failure_last s t e fr Hld Hlt) as (s1 & Hs1 & Hl1 & _ & _ & Hv1 & Hi1);
      [rewrite Hr, Ha2; done|done|].
    rewrite Hs in Hs1. injection Hs1 as <-. split; [done|]. right.
    split_and!; [done|done|lia].
Qed.

(** C5. On start the loader sends its first request. In every state the
    controller reaches at most three requests have been sent, and a
    further one leaves only when a retry pause ends. A result that
    carries an artwork ends the loader, becomes the pending artwork and
    resets the info-bar timer; a failed attempt changes nothing visible
    and either starts a pause of 200 ms, which cannot end early, or, being
    the third, ends the loader. After three failures, of either kind and
    however long they take, the loader has returned after exactly three
    requests and the controller is as it was on start: nothing displayed,
    nothing pending, [loading] true, no error shown. *)
Theorem initial_load tr s :
  run mount tr = Some s →
  (loader mount = AwaitInvoke {| attempt := 0; retries := 3 |} ∧
   invoked mount = [get_current_artwork]) ∧
  sent get_current_artwork s ≤ 3 ∧
  (∀ t ev s', step s t ev = Some s' →
     sent get_current_artwork s' ≠ sent get_current_artwork s →
     ∃ h tm, ev = TimerFired h ∧ Timers.armed (timers s) !! h = Some tm ∧
             Timers.cb tm = CbRetry ∧ Timers.due tm ≤ t) ∧
  (∀ t a s', step s t (GetCurrentSettled (Resolved (Some a))) = Some s' →
     loader s' = Returned ∧
     nextArtwork s' = Some {| pid := proxies s; target := a |} ∧
     invoked s' = invoked s ∧ showInfo s' = true ∧
     ∃ h, infoTimer s' = Some h ∧
          Timers.armed (timers s') !! h
            = Some {| Timers.due := t + 4000; Timers.cb := CbHideInfo |}) ∧
  (∀ t e s', step s t (GetCurrentSettled (failure e)) = Some s' →
     same_view s s' ∧
     ((∃ fr, loader s' = AwaitPause fr ∧ invoked s' = invoked s ∧
             Timers.armed (timers s') !! Timers.next_handle (timers s)
               = Some {| Timers.due := t + 200; Timers.cb := CbRetry |}) ∨
      (loader s' = Returned ∧ invoked s' = invoked s ∧
       sent get_current_artwork s = 3))) ∧
  (∀ h d t, Timers.armed (timers s) !! h
              = Some {| Timers.due := d; Timers.cb := CbRetry |} →
     t < d → step s t (TimerFired h) = None) ∧
  (∀ e1 e2 e3 d1 d2 d3 d4 d5,
     ∃ s3, run mount (three_failures e1 e2 e3 d1 d2 d3 d4 d5) = Some s3 ∧
           loader s3 = Returned ∧ sent get_current_artwork s3 = 3 ∧
           displayedArtwork s3 = None ∧ nextArtwork s3 = None ∧
           loading s3 = true ∧ shown s3 = false ∧ showInfo s3 = true).
Proof.
  intros Hrun. pose proof (inv_reachable tr s Hrun) as HI. split_and!; try done.
  - pose proof (inv_loader s HI) as Hok. unfold loader_ok in Hok.
    destruct (loader s); [done|lia|lia|done].
  - intros t ev s'. by apply step_sends.
  - intros t a s' Hs.
    destruct (step_success s t a s' HI Hs) as (? & ? & _ & ?).
    destruct (step_activity s t (GetCurrentSettled (Resolved (Some a))) s' HI eq_refl Hs)
      as (? & ? & ? & _).
    split_and!; try done. by exists (Timers.next_handle (timers s)).
  - intros t e s'. by apply step_failure.
  - intros h d t. apply step_pause_early.
  - intros e1 e2 e3 d1 d2 d3 d4 d5.
    destruct (three_failures_run e1 e2 e3 d1 d2 d3 d4 d5)
      as (s3 & Hr3 & Hl3 & (Hd & Hn & Hlo & Hsi & Hsh & _) & Hi3 & _).
    exists s3. split_and!; try done. unfold sent. by rewrite Hi3.
Qed.

Lemma initial_load_witness :
  run mount [(5, GetCurrentSettled (Rejected "offline")); (205, TimerFired 2)]
    = Some (reached [(5, GetCurrentSettled (Rejected "offline"));
                     (205, TimerFired 2)]) ∧
  sent get_current_artwork
    (reached [(5, GetCurrentSettled (Rejected "offline")); (205, TimerFired 2)]) ≤ 3.
Proof.
  split; [vm_compute; reflexivity|].
  refine (proj1 (proj2 (initial_load
            [(5, GetCurrentSettled (Rejected "offline")); (205, TimerFired 2)] _ _))).
  vm_compute; reflexivity.
Defined.

Lemma with_warnings_same s : with_warnings (warnings s) s = s.
Proof. by destruct s. Qed.

(** C10. At the [await] of an attempt, a [null] result is handled as a
    rejection is, the console warning apart: the attempt counts, a pause
    of 200 ms follows unless it was the last attempt, and the next
    request leaves only after the pause; a result that carries an artwork
    is the only one that ends the loader early, making that artwork
    pending. Three [null] results in a row leave the loader returned
    after three requests, with nothing pending, nothing displayed and
    [loading] still true. *)
Theorem null_result_consumes_attempt :
  (∀ s e,
     with_warnings (warnings s) (resume_invoke (Rejected e) s)
     = resume_invoke (Resolved None) s) ∧
  (∀ s fr,
     loader (resume_invoke (Resolved None) (with_loader (AwaitInvoke fr) s)) =
       (if attempt fr <? retries fr - 1 then AwaitPause fr
        else if S (attempt fr) <? retries fr then AwaitInvoke (next_attempt fr)
        else Returned) ∧
     Timers.armed (timers (resume_invoke (Resolved None)
                             (with_loader (AwaitInvoke fr) s))) =
       (if attempt fr <? retries fr - 1
        then <[Timers.next_handle (timers s) :=
                 {| Timers.due := now s + 200; Timers.cb := CbRetry |}]>
               (Timers.armed (timers s))
        else Timers.armed (timers s)) ∧
     nextArtwork (resume_invoke (Resolved None) (with_loader (AwaitInvoke fr) s))
       = nextArtwork s ∧
     loading (resume_invoke (Resolved None) (with_loader (AwaitInvoke fr) s))
       = loading s) ∧
  (∀ s fr a,
     loader (resume_invoke (Resolved (Some a)) (with_loader (AwaitInvoke fr) s))
       = Returned ∧
     nextArtwork (resume_invoke (Resolved (Some a)) (with_loader (AwaitInvoke fr) s))
       = Some {| pid := proxies s; target := a |} ∧
     invoked (resume_invoke (Resolved (Some a)) (with_loader (AwaitInvoke fr) s))
       = invoked s) ∧
  (∀ d1 t,
     is_Some (run mount [(d1, GetCurrentSettled (Resolved None)); (t, TimerFired 2)])
     ↔ d1 + 200 ≤ t) ∧
  (∀ d1 r t,
     run mount [(d1, GetCurrentSettled (Resolved None)); (t, GetCurrentSettled r)]
     = None) ∧
  (∀ d1 d2 d3 d4 d5,
     ∃ s3, run mount (three_failures None None None d1 d2 d3 d4 d5) = Some s3 ∧
           loader s3 = Returned ∧ sent get_current_artwork s3 = 3 ∧
           nextArtwork s3 = None ∧ displayedArtwork s3 = None ∧
           loading s3 = true).
Proof.
  split_and!.
  - intros s e. unfold resume_invoke.
    destruct (loader s) as [|fr|fr|]; try apply with_warnings_same.
    unfold after_try, loop_head, warn.
    destruct s as [d n si it lo sh st ld m nw tb inv w px]; cbn.
    repeat case_match; reflexivity.
  - intros s fr. unfold resume_invoke. cbn [loader with_loader].
    destruct (after_try_effect fr (with_loader (AwaitInvoke fr) s)) as (Hl & _ & Ha).
    destruct (after_try_frame fr (with_loader (AwaitInvoke fr) s))
      as (_ & Hn & _ & _ & Hlo & _).
    by split_and!.
  - intros s fr a. unfold resume_invoke. cbn [loader with_loader].
    destruct (resetInfoTimer_frame
                (assign_nextArtwork a (with_loader (AwaitInvoke fr) s)))
      as (_ & Hn &_&_&_&_&_&_& Hinv &_).
    split_and!; [done|apply Hn|apply Hinv].
  - intros d1 t.
    destruct (step_failure_pause mount d1 None {| attempt := 0; retries := 3 |})
      as (s1 & Hs1 & Hl1 & Ha1 & Hn1 & Ht1 & _); [done|done|simpl; lia|].
    unfold run. change (Resolved None) with (failure None). rewrite Hs1.
    assert (Timers.armed (timers s1) !! 2
            = Some {| Timers.due := d1 + 200; Timers.cb := CbRetry |}) as Hl
      by (rewrite Ha1; apply lookup_insert_eq).
    split.
    + intros [s2 Hs2]. destruct (decide (d1 + 200 ≤ t)); [done|].
      rewrite (step_pause_early s1 t 2 (d1 + 200)) in Hs2; [done|done|lia].
    + intros Ht.
      destruct (step_pause_over s1 t 2 (d1 + 200) {| attempt := 0; retries := 3 |})
        as (s2 & -> & _); [done|done|done|lia|done|]. by eexists.
  - intros d1 r t.
    destruct (step_failure_pause mount d1 None {| attempt := 0; retries := 3 |})
      as (s1 & Hs1 & Hl1 & _); [done|done|simpl; lia|].
    unfold run. change (Resolved None) with (failure None). rewrite Hs1.
    rewrite step_nothing_in_flight; [done|].
    unfold awaiting_invoke. by rewrite Hl1.
  - intros d1 d2 d3 d4 d5.
    destruct (three_failures_run None None None d1 d2 d3 d4 d5)
      as (s3 & Hr3 & Hl3 & (Hd & Hn & Hlo & _) & Hi3 & _).
    exists s3. split_and!; try done. unfold sent. by rewrite Hi3.
Qed.

(** *** What each event does to the displayed artwork *)

Lemma onKeyDown_loading k s : loading s = true → loading (onKeyDown k s) = true.
Proof. unfold onKeyDown. by repeat case_match. Qed.

Lemma step_swap s t ev s' :
  step s t ev = Some s' →
  match ev with
  | ImageLoaded _ =>
      is_Some (displayedArtwork s') ∧ displayedArtwork s' = nextArtwork s ∧
      loading s' = false
  | _ =>
      displayedArtwork s' = displayedArtwork s ∧
      (loading s = true → loading s' = true)
  end.
Proof.
  unfold step. destruct (t <? now s); [done|].
  change (displayedArtwork s) with (displayedArtwork (with_now t s)).
  change (nextArtwork s) with (nextArtwork (with_now t s)).
  change (loading s) with (loading (with_now t s)).
  generalize (with_now t s). clear s. intros s.
  destruct ev as [p|a|k| |r|h|].
  - destruct (mounted s); [|done]. intros [= <-]. unfold on_artwork_changed.
    destruct (resetInfoTimer_frame (assign_nextArtwork p s)) as (-> & _ & -> & _).
    done.
  - destruct (next_img_rendered s) eqn:Hr; [|done]. intros [= <-].
    destruct (onImageLoaded_effect s) as (-> & _ & -> & _).
    split_and!; [|done|done]. unfold next_img_rendered in Hr.
    destruct (nextArtwork s); [done|]. simpl in Hr. by rewrite andb_false_r in Hr.
  - destruct (mounted s); [|done]. intros [= <-].
    destruct (onKeyDown_frame k s) as (_&_&_&_&_&_&_& -> &_).
    split; [done|]. apply onKeyDown_loading.
  - destruct (mounted s); [|done]. intros [= <-]. unfold onMouseMove.
    by destruct (resetInfoTimer_frame s) as (-> & _ & -> & _).
  - destruct (awaiting_invoke s); [|done]. intros [= <-].
    by destruct (resume_invoke_frame r s) as (-> & -> & _).
  - destruct (Timers.armed (timers s) !! h) as [tm|]; [|done].
    destruct (Timers.due tm <=? t); [|done]. intros [= <-].
    destruct (Timers.cb tm); cbn [run_callback].
    + done.
    + unfold safety. by destruct (negb _).
    + by destruct (resume_pause_frame (fired h s)) as (-> &_&_&_& -> &_).
  - destruct (mounted s); [|done]. intros [= <-].
    by destruct (cleanup_frame s) as (-> &_&_&_& -> &_).
Qed.

(** *** Pending and displayed artwork *)

Lemma step_keeps_pending s t ev s' :
  carries_no_artwork ev = true → step s t ev = Some s' →
  nextArtwork s' = nextArtwork s.
Proof.
  intros Hq. unfold step. destruct (t <? now s); [done|].
  change (nextArtwork s) with (nextArtwork (with_now t s)).
  generalize (with_now t s). clear s. intros s.
  destruct ev as [p|a|k| |r|h|]; try done.
  - destruct (mounted s); [|done]. intros [= <-].
    by destruct (onKeyDown_frame k s) as (_&_&_&_&_&_&_&_& -> &_).
  - destruct (mounted s); [|done]. intros [= <-]. unfold onMouseMove.
    by destruct (resetInfoTimer_frame s) as (_& -> &_).
  - destruct (awaiting_invoke s); [|done]. intros [= <-].
    destruct (settled_cases r) as [[e ->]|[a ->]]; [|done].
    by destruct (resume_invoke_failure_frame e s) as (-> & _).
  - destruct (Timers.armed (timers s) !! h) as [tm|]; [|done].
    destruct (Timers.due tm <=? t); [|done]. intros [= <-].
    destruct (Timers.cb tm); cbn [run_callback].
    + done.
    + unfold safety. by destruct (negb _).
    + by destruct (resume_pause_frame (fired h s)) as (_& -> &_).
  - destruct (mounted s); [|done]. intros [= <-].
    by destruct (cleanup_frame s) as (_& -> &_).
Qed.

Lemma run_keeps_pending s tr s' :
  Forall (λ x, carries_no_artwork x.2 = true) tr → run s tr = Some s' →
  nextArtwork s' = nextArtwork s.
Proof.
  intros Hq. revert s. induction Hq as [|[t ev] tr Hev _ IH]; intros s; simpl.
  - by intros [= <-].
  - destruct (step s t ev) as [s1|] eqn:Hs; [|done]. intros Hr.
    rewrite (IH s1 Hr). by apply (step_keeps_pending s t ev).
Qed.

Lemma step_notification s t p s' :
  step s t (ArtworkChanged p) = Some s' →
  nextArtwork s' = Some {| pid := proxies s; target := p |} ∧
  displayedArtwork s' = displayedArtwork s.
Proof.
  unfold step. destruct (t <? now s); [done|].
  destruct (mounted (with_now t s)); [|done]. intros [= <-].
  unfold on_artwork_changed.
  destruct (resetInfoTimer_frame (assign_nextArtwork p (with_now t s)))
    as (Hd & Hn & _). split; [apply Hn|apply Hd].
Qed.

Lemma step_decode s t a s' :
  step s t (ImageLoaded a) = Some s' →
  displayedArtwork s' = nextArtwork s ∧ nextArtwork s' = None ∧ loading s' = false.
Proof.
  unfold step. destruct (t <? now s); [done|].
  destruct (next_img_rendered (with_now t s)); [|done]. intros [= <-].
  destruct (onImageLoaded_effect (with_now t s)) as (Hd & Hn & Hl & _).
  by split_and!.
Qed.

Lemma step_delivers s t ev p s' :
  delivers ev = Some p → step s t ev = Some s' →
  nextArtwork s' = Some {| pid := proxies s; target := p |} ∧
  displayedArtwork s' = displayedArtwork s.
Proof.
  destruct ev as [q|a|k| |[[a|]|m]|h|]; try done; intros [= ->].
  - apply step_notification.
  - unfold step. destruct (t <? now s); [done|].
    destruct (awaiting_invoke (with_now t s)) eqn:Haw; [|done]. intros [= <-].
    unfold awaiting_invoke in Haw. unfold resume_invoke.
    destruct (loader (with_now t s)); try done.
    destruct (resetInfoTimer_frame (assign_nextArtwork p (with_now t s)))
      as (Hd & Hn & _).
    split; [apply Hn|apply Hd].
Qed.

(** C1, as the code has it. Whatever happened before, once an event has
    delivered the artwork [p] to the component, as the payload of a
    notification or as the result of an attempt of the initial load, and
    no later event has delivered another artwork or completed a decode,
    the next decode-complete event makes [p] the displayed artwork and
    empties the pending slot. So of the notifications that arrive before
    an image is decoded the last one wins, unless a result of the initial
    load arrives after it. The handler of the decode-complete event
    promotes the artwork pending at that moment. *)
Theorem latest_pending_wins s tr1 tp ev p tr2 t a s' :
  run s (tr1 ++ (tp, ev) :: tr2 ++ [(t, ImageLoaded a)]) = Some s' →
  delivers ev = Some p →
  Forall (λ x, carries_no_artwork x.2 = true) tr2 →
  (target <$> displayedArtwork s' = Some p ∧ nextArtwork s' = None) ∧
  (∀ s0 t0 a0 s1, step s0 t0 (ImageLoaded a0) = Some s1 →
     displayedArtwork s1 = nextArtwork s0).
Proof.
  intros Hrun Hev Hq. split.
  - rewrite run_app in Hrun. destruct (run s tr1) as [s1|]; [|done].
    simpl in Hrun. destruct (step s1 tp ev) as [s2|] eqn:Hs2; [|done].
    rewrite run_snoc in Hrun. destruct (run s2 tr2) as [s3|] eqn:Hr3; [|done].
    simpl in Hrun. destruct (step_decode s3 t a s' Hrun) as (Hd & Hn & _).
    destruct (step_delivers s1 tp ev p s2 Hev Hs2) as (Hp & _).
    rewrite Hd, (run_keeps_pending s2 tr2 s3 Hq Hr3), Hp. done.
  - intros s0 t0 a0 s1 Hs. by destruct (step_decode s0 t0 a0 s1 Hs) as (-> & _).
Qed.

Lemma latest_pending_wins_witness :
  run mount ([(10, ArtworkChanged (sample 1 "A"))] ++
             (20, ArtworkChanged (sample 2 "B")) ::
             [(25, MouseMove)] ++ [(30, ImageLoaded (sample 2 "B"))])
    = Some (reached [(10, ArtworkChanged (sample 1 "A"));
                     (20, ArtworkChanged (sample 2 "B"));
                     (25, MouseMove); (30, ImageLoaded (sample 2 "B"))]) ∧
  delivers (ArtworkChanged (sample 2 "B")) = Some (sample 2 "B") ∧
  Forall (λ x, carries_no_artwork x.2 = true) [(25, MouseMove)] ∧
  target <$> displayedArtwork
    (reached [(10, ArtworkChanged (sample 1 "A"));
              (20, ArtworkChanged (sample 2 "B"));
              (25, MouseMove); (30, ImageLoaded (sample 2 "B"))])
    = Some (sample 2 "B").
Proof.
  split; [vm_compute; reflexivity|]. split; [reflexivity|].
  split; [repeat constructor|].
  refine (proj1 (proj1 (latest_pending_wins mount
            [(10, ArtworkChanged (sample 1 "A"))] 20
            (ArtworkChanged (sample 2 "B")) (sample 2 "B")
            [(25, MouseMove)] 30 (sample 2 "B") _ _ _ _))).
  - vm_compute; reflexivity.
  - reflexivity.
  - repeat constructor.
Defined.

(** C1, refuted as stated. The overlay is mounted while [A] is current
    and sends its request; the notification of [B] arrives, then the
    notification of [C] before the image of [B] is decoded. With nothing
    else arriving, the decode-complete that follows displays [C]. When the
    answer to the request, which carries [A], arrives after the two
    notifications, it replaces the pending [C], and the decode-complete
    that follows displays [A]: not the artwork of the last notification
    received, but an earlier one. *)
Lemma late_load_result_displayed :
  (λ s, (target <$> displayedArtwork s, target <$> nextArtwork s)) <$>
    run mount [(10, ArtworkChanged (sample 2 "B"));
               (20, ArtworkChanged (sample 3 "C"));
               (30, ImageLoaded (sample 3 "C"))]
  = Some (Some (sample 3 "C"), None) ∧
  (λ s, (target <$> displayedArtwork s, target <$> nextArtwork s)) <$>
    run mount [(10, ArtworkChanged (sample 2 "B"));
               (20, ArtworkChanged (sample 3 "C"));
               (25, GetCurrentSettled (Resolved (Some (sample 1 "A"))))]
  = Some (None, Some (sample 1 "A")) ∧
  (λ s, (target <$> displayedArtwork s, target <$> nextArtwork s)) <$>
    run mount [(10, ArtworkChanged (sample 2 "B"));
               (20, ArtworkChanged (sample 3 "C"));
               (25, GetCurrentSettled (Resolved (Some (sample 1 "A"))));
               (30, ImageLoaded (sample 1 "A"))]
  = Some (Some (sample 1 "A"), None).
Proof. split_and!; vm_compute; reflexivity. Qed.

(** *** The proxies of the two variables *)

Lemma resetInfoTimer_proxies s : proxies (resetInfoTimer s) = proxies s.
Proof. by destruct s as [d n si [[|h]|] lo sh st ld m nw tb inv w px]. Qed.

Lemma loop_head_proxies fr s : proxies (loop_head fr s) = proxies s.
Proof. unfold loop_head. by destruct (_ <? _). Qed.

Lemma after_try_proxies fr s : proxies (after_try fr s) = proxies s.
Proof.
  unfold after_try. destruct (_ <? _); [done|]. apply loop_head_proxies.
Qed.

Lemma step_proxies s t ev s' :
  step s t ev = Some s' →
  proxies s' = match delivers ev with
               | Some _ => S (proxies s)
               | None => proxies s
               end.
Proof.
  unfold step. destruct (t <? now s); [done|].
  change (proxies s) with (proxies (with_now t s)).
  generalize (with_now t s). clear s. intros s.
  destruct ev as [p|a|k| |r|h|]; cbn [delivers].
  - destruct (mounted s); [|done]. intros [= <-]. unfold on_artwork_changed.
    by rewrite resetInfoTimer_proxies.
  - destruct (next_img_rendered s); [|done]. intros [= <-].
    by destruct s as [d n si it lo [] st ld m nw tb inv w px].
  - destruct (mounted s); [|done]. intros [= <-].
    unfold onKeyDown. by repeat case_match.
  - destruct (mounted s); [|done]. intros [= <-]. apply resetInfoTimer_proxies.
  - destruct (awaiting_invoke s) eqn:Haw; [|done]. intros [= <-].
    unfold awaiting_invoke in Haw. unfold resume_invoke.
    destruct (loader s) as [|fr|fr|]; try done.
    destruct r as [[a|]|m].
    + change (proxies (resetInfoTimer (assign_nextArtwork a s)) = S (proxies s)).
      by rewrite resetInfoTimer_proxies.
    + apply after_try_proxies.
    + by rewrite after_try_proxies.
  - destruct (Timers.armed (timers s) !! h) as [tm|]; [|done].
    destruct (Timers.due tm <=? t); [|done]. intros [= <-].
    destruct (Timers.cb tm); cbn [run_callback].
    + done.
    + unfold safety. by destruct (negb _).
    + unfold resume_pause. destruct (loader (fired h s)); try done.
      by rewrite loop_head_proxies.
  - destruct (mounted s); [|done]. intros [= <-].
    by destruct s as [d n si [[|h]|] lo sh [st|] ld m nw tb inv w px].
Qed.

Lemma pinv_step s t ev s' : ProxyInv s → step s t ev = Some s' → ProxyInv s'.
Proof.
  intros [Hd Hn Hdn] Hs. pose proof (step_proxies s t ev s' Hs) as Hp.
  destruct (delivers ev) as [p|] eqn:Hev.
  - destruct (step_delivers s t ev p s' Hev Hs) as (Hn' & Hd').
    constructor; rewrite ?Hn', ?Hd', ?Hp.
    + intros x Hx. apply Hd in Hx. lia.
    + intros x [= <-]. simpl. lia.
    + intros x y [= <-] Hy. apply Hd in Hy. simpl. lia.
  - destruct (carries_no_artwork ev) eqn:Hq.
    + pose proof (step_keeps_pending s t ev s' Hq Hs) as Hn'.
      assert (displayedArtwork s' = displayedArtwork s) as Hd'.
      { pose proof (step_swap s t ev s' Hs) as H.
        destruct ev; try done; by destruct H. }
      constructor; rewrite ?Hn', ?Hd', ?Hp; done.
    + destruct ev as [q|a|k| |[[a|]|m]|h|]; try done.
      destruct (step_decode s t a s' Hs) as (Hd' & Hn' & _).
      constructor; rewrite ?Hn', ?Hd', ?Hp; done.
Qed.

Lemma pinv_reachable tr s : run mount tr = Some s → ProxyInv s.
Proof.
  assert (ProxyInv mount) as H0 by (by constructor).
  revert H0. generalize mount. intros s0. revert s0.
  induction tr as [|[t ev] tr IH]; intros s0 H0; simpl.
  - by intros [= <-].
  - destruct (step s0 t ev) as [s1|] eqn:Hs; [|done].
    apply IH. by apply (pinv_step s0 t ev).
Qed.

(** The reference test of the guard never fails in a reachable state. *)
Lemma rendered_reachable s :
  ProxyInv s → next_img_rendered s = mounted s && truthy (nextArtwork s).
Proof.
  intros [_ _ Hdn]. unfold next_img_rendered.
  destruct (nextArtwork s) as [x|] eqn:Hx; [|by rewrite !andb_false_r].
  destruct (displayedArtwork s) as [y|] eqn:Hy; simpl; [|by rewrite andb_true_r].
  rewrite (proj2 (Nat.eqb_neq (pid x) (pid y))) by (by apply Hdn).
  by rewrite andb_true_r.
Qed.

(** C6, as the code has it. A notification received in a reachable
    state, whatever its payload, stores a new proxy of the payload in the
    pending slot and leaves the displayed artwork alone. The guard of the
    second image compares the two proxies, which are never the same one,
    so the second image is rendered after every notification: a decode
    cycle starts, also for a payload with the [id] of the displayed
    artwork, and the decode-complete that ends it displays the payload. *)
Theorem notification_starts_decode tr s t p s' :
  run mount tr = Some s → step s t (ArtworkChanged p) = Some s' →
  nextArtwork s' = Some {| pid := proxies s; target := p |} ∧
  displayedArtwork s' = displayedArtwork s ∧
  next_img_rendered s' = true ∧
  (∀ t' a, t ≤ t' →
     ∃ s'', step s' t' (ImageLoaded a) = Some s'' ∧
            displayedArtwork s'' = Some {| pid := proxies s; target := p |}) ∧
  next_img_rendered s = mounted s && truthy (nextArtwork s).
Proof.
  intros Hrun Hs. pose proof (pinv_reachable tr s Hrun) as HP.
  pose proof (pinv_step s t _ s' HP Hs) as HP'.
  destruct (step_notification s t p s' Hs) as (Hn & Hd).
  destruct (step_now s t _ s' Hs) as [_ Hnow].
  assert (mounted s' = true) as Hm.
  { revert Hs. unfold step. destruct (t <? now s); [done|].
    destruct (mounted (with_now t s)) eqn:Hm; [|done]. intros [= <-].
    unfold on_artwork_changed.
    by destruct (resetInfoTimer_frame (assign_nextArtwork p (with_now t s)))
      as (_&_&_&_&_&_& -> &_). }
  assert (next_img_rendered s' = true) as Hr
    by (by rewrite (rendered_reachable s' HP'), Hm, Hn).
  split_and!; [done|done|done| |by apply rendered_reachable].
  intros t' a Ht. exists (onImageLoaded (with_now t' s')). split.
  - unfold step. rewrite Hnow.
    rewrite (proj2 (Nat.ltb_ge t' t)) by done.
    change (next_img_rendered (with_now t' s')) with (next_img_rendered s').
    by rewrite Hr.
  - destruct (onImageLoaded_effect (with_now t' s')) as (-> & _). apply Hn.
Qed.

Lemma notification_starts_decode_witness :
  run mount [(10, ArtworkChanged (sample 1 "A")); (20, ImageLoaded (sample 1 "A"))]
    = Some (reached [(10, ArtworkChanged (sample 1 "A"));
                     (20, ImageLoaded (sample 1 "A"))]) ∧
  step (reached [(10, ArtworkChanged (sample 1 "A"));
                 (20, ImageLoaded (sample 1 "A"))]) 30
       (ArtworkChanged (sample 1 "A"))
    = Some (reached [(10, ArtworkChanged (sample 1 "A"));
                     (20, ImageLoaded (sample 1 "A"));
                     (30, ArtworkChanged (sample 1 "A"))]) ∧
  next_img_rendered
    (reached [(10, ArtworkChanged (sample 1 "A"));
              (20, ImageLoaded (sample 1 "A"));
              (30, ArtworkChanged (sample 1 "A"))]) = true.
Proof.
  split; [vm_compute; reflexivity|]. split; [vm_compute; reflexivity|].
  refine (proj1 (proj2 (proj2 (notification_starts_decode
            [(10, ArtworkChanged (sample 1 "A")); (20, ImageLoaded (sample 1 "A"))]
            _ 30 (sample 1 "A") _ _ _)))).
  - vm_compute; reflexivity.
  - vm_compute; reflexivity.
Defined.

(** C6, refuted as stated: with the artwork of identifier [A] displayed,
    a notification carrying an artwork with the same identifier and the
    same fields makes it pending and renders the second image, and the
    decode-complete that follows replaces the displayed object. *)
Lemma same_id_redecoded :
  (λ s, (target <$> displayedArtwork s, target <$> nextArtwork s,
         next_img_rendered s)) <$>
    run mount [(10, ArtworkChanged (sample 1 "A"));
               (20, ImageLoaded (sample 1 "A"))]
  = Some (Some (sample 1 "A"), None, false) ∧
  (λ s, (target <$> displayedArtwork s, target <$> nextArtwork s,
         next_img_rendered s)) <$>
    run mount [(10, ArtworkChanged (sample 1 "A"));
               (20, ImageLoaded (sample 1 "A"));
               (30, ArtworkChanged (sample 2 "A"))]
  = Some (Some (sample 1 "A"), Some (sample 2 "A"), true) ∧
  (λ s, (target <$> displayedArtwork s, target <$> nextArtwork s,
         next_img_rendered s)) <$>
    run mount [(10, ArtworkChanged (sample 1 "A"));
               (20, ImageLoaded (sample 1 "A"));
               (30, ArtworkChanged (sample 2 "A"));
               (40, ImageLoaded (sample 2 "A"))]
  = Some (Some (sample 2 "A"), None, false) ∧
  (λ s, (pid <$> displayedArtwork s, pid <$> nextArtwork s)) <$>
    run mount [(10, ArtworkChanged (sample 1 "A"));
               (20, ImageLoaded (sample 1 "A"));
               (30, ArtworkChanged (sample 2 "A"));
               (40, ImageLoaded (sample 2 "A"))]
  = Some (Some 1, None).
Proof. split_and!; vm_compute; reflexivity. Qed.

(** *** Teardown *)








(** *** What is displayed *)

(** X5. The swap. A decode-complete event displays the artwork that was
    pending, which is never none, and hides the spinner; no other event
    changes the displayed artwork or hides the spinner. *)
Theorem decode_is_the_only_swap s t ev s' :
  step s t ev = Some s' →
  (∀ a, ev = ImageLoaded a →
     is_Some (displayedArtwork s') ∧ displayedArtwork s' = nextArtwork s ∧
     loading s' = false) ∧
  (displayedArtwork s' ≠ displayedArtwork s → ∃ a, ev = ImageLoaded a) ∧
  (loading s = true → loading s' = false → ∃ a, ev = ImageLoaded a).
Proof.
  intros Hs. pose proof (step_swap s t ev s' Hs) as H. split_and!.
  - by intros a ->.
  - intros Hd. destruct ev; try (by destruct H as [? _]). by eexists.
  - intros Hl Hl'. destruct ev; try (destruct H as [_ H]; rewrite (H Hl) in Hl'; done).
    by eexists.
Qed.

Lemma decode_is_the_only_swap_witness :
  step (reached [(10, ArtworkChanged (sample 1 "A"))]) 20 (ImageLoaded (sample 1 "A"))
    = Some (reached [(10, ArtworkChanged (sample 1 "A"));
                     (20, ImageLoaded (sample 1 "A"))]) ∧
  loading (reached [(10, ArtworkChanged (sample 1 "A"));
                    (20, ImageLoaded (sample 1 "A"))]) = false.
Proof.
  split; [vm_compute; reflexivity|].
  refine (proj2 (proj2 (proj1 (decode_is_the_only_swap
            (reached [(10, ArtworkChanged (sample 1 "A"))]) 20
            (ImageLoaded (sample 1 "A")) _ _) (sample 1 "A") eq_refl))).
  vm_compute; reflexivity.
Defined.

(** X6. The shape of the reachable states. In every state the
    controller reaches, the spinner is hidden only while an artwork is
    displayed, and an artwork is displayed only once the windows have
    been revealed; once an artwork is displayed, every later state
    displays one. *)
Theorem spinner_artwork_reveal tr s :
  run mount tr = Some s →
  (loading s = false → is_Some (displayedArtwork s)) ∧
  (is_Some (displayedArtwork s) → shown s = true) ∧
  (∀ t ev s', step s t ev = Some s' →
     is_Some (displayedArtwork s) → is_Some (displayedArtwork s')).
Proof.
  intros Hrun. split_and!.
  - revert s Hrun. induction tr as [|[t ev] tr IH] using rev_ind; intros s.
    + by intros [= <-].
    + rewrite run_snoc. destruct (run mount tr) as [s0|] eqn:Hr; [|done]. simpl.
      intros Hs. pose proof (step_swap s0 t ev s Hs) as Hd.
      specialize (IH s0 eq_refl).
      destruct ev; try (destruct Hd as [-> Hl]; intros Hf; apply IH;
        destruct (loading s0); [by rewrite Hl in Hf|done]).
      by destruct Hd as (? & _).
  - revert s Hrun. induction tr as [|[t ev] tr IH] using rev_ind; intros s.
    + intros [= <-]. by intros [? [=]].
    + rewrite run_snoc. destruct (run mount tr) as [s0|] eqn:Hr; [|done]. simpl.
      intros Hs. pose proof (step_swap s0 t ev s Hs) as Hd.
      pose proof (step_shown s0 t ev s (inv_reachable tr s0 Hr) Hs) as Hsh.
      specialize (IH s0 eq_refl). rewrite Hsh.
      destruct ev; try (destruct Hd as [-> _]; intros Hf; by rewrite (IH Hf)).
      intros _. simpl. by rewrite orb_true_r.
  - intros t ev s' Hs Hd. pose proof (step_swap s t ev s' Hs) as H.
    destruct ev; try (by destruct H as [-> _]). by destruct H as (? & _).
Qed.

Lemma spinner_artwork_reveal_witness :
  run mount [(10, ArtworkChanged (sample 1 "A")); (20, ImageLoaded (sample 1 "A"));
             (30, KeyDown "ArrowRight")]
    = Some (reached [(10, ArtworkChanged (sample 1 "A"));
                     (20, ImageLoaded (sample 1 "A")); (30, KeyDown "ArrowRight")]) ∧
  (is_Some (displayedArtwork
              (reached [(10, ArtworkChanged (sample 1 "A"));
                        (20, ImageLoaded (sample 1 "A"));
                        (30, KeyDown "ArrowRight")])) →
   shown (reached [(10, ArtworkChanged (sample 1 "A"));
                   (20, ImageLoaded (sample 1 "A"));
                   (30, KeyDown "ArrowRight")]) = true).
Proof.
  split; [vm_compute; reflexivity|].
  refine (proj1 (proj2 (spinner_artwork_reveal
            [(10, ArtworkChanged (sample 1 "A")); (20, ImageLoaded (sample 1 "A"));
             (30, KeyDown "ArrowRight")] _ _))).
  vm_compute; reflexivity.
Defined.

(** *** Navigation *)

Lemma sent_others c s s' l :
  invoked s' = invoked s ++ l →
  Forall (λ x, x = overlay_ready ∨ x = get_current_artwork) l →
  c ≠ overlay_ready → c ≠ get_current_artwork →
  sent c s' = sent c s.
Proof.
  intros Hinv Hl Hc1 Hc2. rewrite (sent_app c s s' l Hinv).
  assert (filter (λ x, x = c) l = []) as ->; [|simpl; lia].
  clear Hinv. induction Hl as [|x l Hx _ IH]; [done|].
  rewrite filter_cons, IH. rewrite decide_False; [done|]. intros ->. tauto.
Qed.

Lemma step_navigation s t ev s' c :
  c ≠ overlay_ready → c ≠ get_current_artwork →
  step s t ev = Some s' →
  sent c s' = sent c s + (if is_press c ev then 1 else 0).
Proof.
  intros Hc1 Hc2. unfold step. destruct (t <? now s); [done|].
  change (sent c s) with (sent c (with_now t s)).
  generalize (with_now t s). clear s. intros s.
  assert (∀ s1, invoked s1 = invoked s → sent c s1 = sent c s + 0) as Hsame.
  { intros s1 H1. unfold sent. rewrite H1. lia. }
  destruct ev as [p|a|k| |r|h|].
  - destruct (mounted s); [|done]. intros [= <-]. apply Hsame.
    unfold on_artwork_changed.
    by destruct (resetInfoTimer_frame (assign_nextArtwork p s))
      as (_&_&_&_&_&_&_&_& -> &_).
  - destruct (next_img_rendered s); [|done]. intros [= <-].
    destruct (onImageLoaded_effect s) as (_&_&_&_& Hinv). simpl.
    rewrite Nat.add_0_r. apply (sent_others c s _ _ Hinv); [|done..].
    destruct (shown s); [constructor|apply Forall_singleton; by left].
  - destruct (mounted s); [|done]. intros [= <-]. unfold onKeyDown. simpl.
    destruct c; try done;
      repeat (case_bool_decide; subst; simpl; try done;
              rewrite ?sent_invoke; simpl; try done; try lia);
      try (unfold sent; simpl; lia).
  - destruct (mounted s); [|done]. intros [= <-]. apply Hsame.
    unfold onMouseMove.
    by destruct (resetInfoTimer_frame s) as (_&_&_&_&_&_&_&_& -> &_).
  - destruct (awaiting_invoke s) eqn:Haw; [|done]. intros [= <-]. simpl.
    rewrite Nat.add_0_r. unfold awaiting_invoke in Haw. unfold resume_invoke.
    destruct (loader s) as [|fr|fr|]; try done.
    assert (∀ s0, invoked s0 = invoked s → sent c (after_try fr s0) = sent c s) as Hat.
    { intros s0 Hs0. destruct (after_try_effect fr s0) as (_ & Hinv & _).
      rewrite Hs0 in Hinv. apply (sent_others c s _ _ Hinv); [|done..].
      repeat case_match; try (by constructor); apply Forall_singleton; by right. }
    destruct r as [[a|]|m]; [|by apply Hat|by apply Hat].
    unfold sent.
    change (invoked (with_loader Returned
              (resetInfoTimer (assign_nextArtwork a s))))
      with (invoked (resetInfoTimer (assign_nextArtwork a s))).
    by destruct (resetInfoTimer_frame (assign_nextArtwork a s))
      as (_&_&_&_&_&_&_&_& -> &_).
  - destruct (Timers.armed (timers s) !! h) as [tm|]; [|done].
    destruct (Timers.due tm <=? t); [|done]. intros [= <-]. simpl.
    rewrite Nat.add_0_r.
    destruct (Timers.cb tm); cbn [run_callback].
    + done.
    + unfold safety. destruct (negb _); [|done].
      rewrite sent_invoke. rewrite decide_False by done. unfold sent. simpl. lia.
    + unfold resume_pause. simpl. destruct (loader s) as [|fr|fr|]; try done.
      destruct (loop_head_effect (next_attempt fr) (fired h s)) as (_ & Hinv).
      apply (sent_others c (fired h s) _ _ Hinv); [|done..].
      case_match; [apply Forall_singleton; by right|constructor].
  - destruct (mounted s); [|done]. intros [= <-]. apply Hsame.
    by destruct (cleanup_frame s) as (_&_&_&_&_&_&_&_&_& -> &_).
Qed.

(** X7. Navigation requests. In every state the controller reaches, the
    number of [next_artwork] requests sent is the number of ArrowRight
    and Space key presses delivered, and likewise [prev_artwork] for
    ArrowLeft and [dismiss_overlays] for Escape: every such key press
    sends one request, also while an artwork is loading, and nothing else
    sends one. *)
Theorem navigation_requests tr s :
  run mount tr = Some s →
  sent next_artwork s = presses next_artwork tr ∧
  sent prev_artwork s = presses prev_artwork tr ∧
  sent dismiss_overlays s = presses dismiss_overlays tr.
Proof.
  assert (∀ c, c ≠ overlay_ready → c ≠ get_current_artwork →
            ∀ s1, run mount tr = Some s1 → sent c s1 = presses c tr) as H.
  { clear s. intros c Hc1 Hc2.
    induction tr as [|[t ev] tr IH] using rev_ind; intros s.
    - intros [= <-]. unfold sent, presses. simpl.
      rewrite filter_cons, decide_False by done. done.
    - rewrite run_snoc. destruct (run mount tr) as [s0|] eqn:Hr; [|done]. simpl.
      intros Hs. rewrite (step_navigation s0 t ev s c Hc1 Hc2 Hs), (IH s0 eq_refl).
      unfold presses. rewrite filter_app, length_app, filter_cons, filter_nil.
      simpl. by destruct (is_press c ev). }
  intros Hrun. split_and!; by apply H.
Qed.

Lemma navigation_requests_witness :
  run mount [(10, KeyDown "ArrowRight"); (11, KeyDown " "); (12, KeyDown "x");
             (13, KeyDown "ArrowLeft")]
    = Some (reached [(10, KeyDown "ArrowRight"); (11, KeyDown " ");
                     (12, KeyDown "x"); (13, KeyDown "ArrowLeft")]) ∧
  sent next_artwork
    (reached [(10, KeyDown "ArrowRight"); (11, KeyDown " "); (12, KeyDown "x");
              (13, KeyDown "ArrowLeft")])
  = presses next_artwork
      [(10, KeyDown "ArrowRight"); (11, KeyDown " "); (12, KeyDown "x");
       (13, KeyDown "ArrowLeft")].
Proof.
  split; [vm_compute; reflexivity|].
  refine (proj1 (navigation_requests
            [(10, KeyDown "ArrowRight"); (11, KeyDown " "); (12, KeyDown "x");
             (13, KeyDown "ArrowLeft")] _ _)).
  vm_compute; reflexivity.
Defined.

(** *** The countdown of a visible info bar *)

Lemma step_countdown_kept s t ev s' :
  Inv s →
  (mounted s = true → showInfo s = true → ∀ h, infoTimer s = Some h →
   ∃ tm, Timers.armed (timers s) !! h = Some tm ∧ Timers.cb tm = CbHideInfo) →
  step s t ev = Some s' →
  mounted s' = true → showInfo s' = true → ∀ h, infoTimer s' = Some h →
  ∃ tm, Timers.armed (timers s') !! h = Some tm ∧ Timers.cb tm = CbHideInfo.
Proof.
  intros HI HK Hs.
  destruct (activity ev) eqn:Ha.
  { destruct (step_activity s t ev s' HI Ha Hs) as (_ & Hit & Hl & _).
    intros _ _ h Hh. rewrite Hit in Hh. injection Hh as <-. by eexists. }
  revert Hs. unfold step. destruct (t <? now s); [done|].
  assert (Inv (with_now t s)) as HN by (by apply (inv_frame s)).
  change (mounted s) with (mounted (with_now t s)) in HK.
  change (showInfo s) with (showInfo (with_now t s)) in HK.
  change (infoTimer s) with (infoTimer (with_now t s)) in HK.
  change (timers s) with (timers (with_now t s)) in HK.
  revert HN HK. generalize (with_now t s). clear HI s. intros s HI HK.
  destruct ev as [p|a|k| |r|h0|]; try done.
  - destruct (next_img_rendered s); [|done]. intros [= <-].
    destruct (onImageLoaded_frame s) as (-> & -> & -> & -> & _). done.
  - destruct (mounted s) eqn:Hm; [|done]. intros [= <-].
    destruct (onKeyDown_frame k s) as (-> & -> & -> & _ & -> & _). by rewrite Hm.
  - destruct (awaiting_invoke s) eqn:Haw; [|done]. intros [= <-].
    destruct (settled_cases r) as [[e ->]|[a ->]]; [|done].
    destruct (resume_invoke_failure_frame e s) as (_ & -> & ->).
    destruct (resume_invoke_frame (failure e) s) as (_ & _ & _ & -> & _).
    intros Hm Hsi h Hh. destruct (HK Hm Hsi h Hh) as (tm & Hl & Hcb).
    exists tm. split; [|done].
    unfold awaiting_invoke in Haw. unfold resume_invoke.
    destruct (loader s) as [|fr|fr|]; try done.
    assert (∀ s0, timers s0 = timers s →
              Timers.armed (timers (after_try fr s0)) !! h = Some tm) as Hat.
    { intros s0 Hs0. destruct (after_try_effect fr s0) as (_ & _ & ->).
      rewrite Hs0. destruct (_ <? _); [|done].
      rewrite lookup_insert_ne; [done|].
      apply (inv_handles s HI) in Hl. lia. }
    destruct e as [m|]; by apply Hat.
  - destruct (Timers.armed (timers s) !! h0) as [tm0|] eqn:Hl0; [|done].
    destruct (Timers.due tm0 <=? t); [|done]. intros [= <-].
    destruct (Timers.cb tm0) eqn:Hcb0; cbn [run_callback].
    + done.
    + assert (h0 = 1) as -> by (by apply (inv_safety_unique s HI h0 tm0)).
      assert (mounted (safety (fired 1 s)) = mounted s ∧
              showInfo (safety (fired 1 s)) = showInfo s ∧
              infoTimer (safety (fired 1 s)) = infoTimer s ∧
              Timers.armed (timers (safety (fired 1 s)))
                = delete 1 (Timers.armed (timers s))) as (-> & -> & -> & ->).
      { unfold safety. by destruct (negb _). }
      intros Hm Hsi h Hh. destruct (HK Hm Hsi h Hh) as (tm & Hl & Hcb).
      exists tm. split; [|done]. rewrite lookup_delete_ne; [done|].
      apply (inv_info_handle s HI) in Hh. lia.
    + destruct (resume_pause_frame (fired h0 s)) as (_&_& -> & -> &_&_& -> &_& ->).
      simpl. intros Hm Hsi h Hh. destruct (HK Hm Hsi h Hh) as (tm & Hl & Hcb).
      exists tm. split; [|done]. rewrite lookup_delete_ne; [done|].
      intros ->. rewrite Hl0 in Hl. injection Hl as <-. congruence.
  - destruct (mounted s); [|done]. intros [= <-].
    destruct (cleanup_frame s) as (_&_&_&_&_&_&_&_&_&_&_& -> &_). done.
Qed.

(** X8. A visible info bar hides again. In every state the controller
    reaches, every live info-bar countdown is due at most 4000 ms from
    now, and while the component is mounted a visible info bar that has
    been reset at least once has its countdown still armed. *)
Theorem countdown_pending tr s :
  run mount tr = Some s →
  (∀ h tm, Timers.armed (timers s) !! h = Some tm →
     Timers.cb tm = CbHideInfo → Timers.due tm ≤ now s + 4000) ∧
  (mounted s = true → showInfo s = true → ∀ h, infoTimer s = Some h →
   ∃ tm, Timers.armed (timers s) !! h = Some tm ∧ Timers.cb tm = CbHideInfo).
Proof.
  revert s. induction tr as [|[t ev] tr IH] using rev_ind; intros s.
  - intros [= <-]. split; [|done]. intros h tm. simpl.
    rewrite lookup_insert. case_decide; [by intros [= <-]|done].
  - rewrite run_snoc. destruct (run mount tr) as [s0|] eqn:Hr; [|done]. simpl.
    intros Hs. destruct (IH s0 eq_refl) as [HK3 HK2].
    pose proof (inv_reachable tr s0 Hr) as HI.
    destruct (step_now s0 t ev s Hs) as [Hnow0 Hnow].
    split; [|by apply (step_countdown_kept s0 t ev s)].
    intros h tm Hl Hcb. destruct (activity ev) eqn:Ha.
    + destruct (step_activity s0 t ev s HI Ha Hs) as (_ & _ & Hnew & Hone).
      rewrite (Hone h tm Hl Hcb) in Hl. rewrite Hnew in Hl.
      injection Hl as <-. simpl. lia.
    + pose proof (step_no_new_countdown s0 t ev s h tm HI Ha Hs Hl Hcb) as Hl0.
      specialize (HK3 h tm Hl0 Hcb). lia.
Qed.

Lemma countdown_pending_witness :
  run mount [(10, MouseMove); (20, KeyDown "ArrowRight")]
    = Some (reached [(10, MouseMove); (20, KeyDown "ArrowRight")]) ∧
  ∀ h tm,
    Timers.armed (timers (reached [(10, MouseMove); (20, KeyDown "ArrowRight")]))
      !! h = Some tm →
    Timers.cb tm = CbHideInfo →
    Timers.due tm ≤ now (reached [(10, MouseMove); (20, KeyDown "ArrowRight")]) + 4000.
Proof.
  split; [vm_compute; reflexivity|].
  refine (proj1 (countdown_pending [(10, MouseMove); (20, KeyDown "ArrowRight")] _ _)).
  vm_compute; reflexivity.
Defined.

End OverlayFacts.

(** * Properties of the catalog build script *)

Module CatalogFacts.
Import NgaCatalog.

(** *** Strings *)

Lemma str_app_cons c s t : String c s +:+ t = String c (s +:+ t).
Proof. reflexivity. Qed.

Lemma str_app_nil_l s : "" +:+ s = s.
Proof. reflexivity. Qed.

Lemma str_app_nil_r s : s +:+ "" = s.
Proof. induction s as [|c s IH]; [done|]. by rewrite str_app_cons, IH. Qed.

Lemma str_app_assoc s t u : (s +:+ t) +:+ u = s +:+ t +:+ u.
Proof. induction s as [|c s IH]; [done|]. by rewrite !str_app_cons, IH. Qed.

Lemma push_char_app s c t : push_char s c +:+ t = s +:+ String c t.
Proof. unfold push_char. by rewrite str_app_assoc. Qed.

Lemma countQuotes_count s : countQuotes s = count_char dquote s.
Proof. induction s as [|c s IH]; simpl; by rewrite ?IH. Qed.

Lemma count_char_app a s t : count_char a (s +:+ t) = count_char a s + count_char a t.
Proof.
  induction s as [|c s IH]; [done|]. rewrite str_app_cons. simpl. rewrite IH. lia.
Qed.

Lemma split_nonempty sep s : split sep s ≠ [].
Proof.
  destruct s as [|c r]; simpl; [done|].
  destruct (Ascii.eqb c sep); [done|]. by destruct (split sep r).
Qed.

Lemma split_length sep s : length (split sep s) = S (count_char sep s).
Proof.
  induction s as [|c r IH]; simpl; [done|].
  destruct (Ascii.eqb c sep); simpl; [by rewrite IH|].
  pose proof (split_nonempty sep r). destruct (split sep r); [done|].
  simpl in *. lia.
Qed.

(** *** [trim] *)

Lemma trimEnd_idemp s : trimEnd (trimEnd s) = trimEnd s.
Proof.
  induction s as [|c r IH]; [done|]. simpl.
  destruct (trimEnd r) as [|c' r'] eqn:Hr.
  - destruct (is_space c) eqn:Hc; [done|]. simpl. by rewrite Hc.
  - change (trimEnd (String c (String c' r'))) with
      (match trimEnd (String c' r') with
       | EmptyString => if is_space c then EmptyString else String c EmptyString
       | r'' => String c r''
       end).
    by rewrite IH.
Qed.

Lemma trimStart_fixed c r : is_space c = false → trimStart (String c r) = String c r.
Proof. intros H. simpl. by rewrite H. Qed.

Lemma trimStart_head s :
  match trimStart s with String c _ => is_space c = false | EmptyString => True end.
Proof.
  induction s as [|c r IH]; [done|]. simpl.
  destruct (is_space c) eqn:Hc; [done|]. done.
Qed.

Lemma trimEnd_head s :
  match s with String c _ => is_space c = false | EmptyString => True end →
  match trimEnd s with String c _ => is_space c = false | EmptyString => True end.
Proof.
  destruct s as [|c r]; [done|]. simpl. intros Hc.
  destruct (trimEnd r); by rewrite ?Hc.
Qed.

Lemma trim_idemp s : trim (trim s) = trim s.
Proof.
  unfold trim. pose proof (trimEnd_head _ (trimStart_head s)) as Hh.
  destruct (trimEnd (trimStart s)) as [|c r] eqn:Ht; [done|].
  rewrite trimStart_fixed by done. rewrite <- Ht. apply trimEnd_idemp.
Qed.

(** *** One line *)

(** Induction that follows the loop of [parseCSVLine]: one code unit at a
    time, or two at an escaped quote. *)
Lemma string_ind2 (P : string → Prop) :
  P "" → (∀ c, P (String c "")) →
  (∀ c c' r, P r → P (String c' r) → P (String c (String c' r))) →
  ∀ s, P s.
Proof.
  intros H0 H1 H2 s.
  assert (P s ∧ ∀ c, P (String c s)) as [? _]; [|done].
  induction s as [|c' r [IH1 IH2]]; [by split|].
  split; [apply IH2|]. intros c. by apply H2.
Qed.

Lemma scan_trimmed line result current q :
  Forall (λ f, trim f = f) result →
  Forall (λ f, trim f = f) (scan line result current q).
Proof.
  revert result current q.
  induction line as [|c|c c' r IH1 IH2] using string_ind2;
    intros result current q Hres.
  - simpl. apply Forall_app. split; [done|]. repeat constructor. apply trim_idemp.
  - simpl.
    assert (∀ res cur, Forall (λ f, trim f = f) res →
              Forall (λ f, trim f = f) (res ++ [trim cur])) as Hend.
    { intros res cur Hr. apply Forall_app. split; [done|].
      repeat constructor. apply trim_idemp. }
    destruct q, (Ascii.eqb c dquote), (Ascii.eqb c comma); try by apply Hend.
    apply Hend, Hend. done.
  - assert (Forall (λ f, trim f = f) (result ++ [trim current])) as Hpush.
    { apply Forall_app. split; [done|]. repeat constructor. apply trim_idemp. }
    change (scan (String c (String c' r)) result current q) with
      (if q then
         if Ascii.eqb c dquote then
           if Ascii.eqb c' dquote
           then scan r result (push_char current dquote) true
           else scan (String c' r) result current false
         else scan (String c' r) result (push_char current c) true
       else
         if Ascii.eqb c dquote then scan (String c' r) result current true
         else if Ascii.eqb c comma
              then scan (String c' r) (result ++ [trim current]) "" false
              else scan (String c' r) result (push_char current c) false).
    destruct q, (Ascii.eqb c dquote), (Ascii.eqb c' dquote), (Ascii.eqb c comma);
      by (apply IH1 || apply IH2).
Qed.

Lemma scan_length line result current q :
  S (length result) ≤ length (scan line result current q) ∧
  length (scan line result current q) ≤ S (length result) + count_char comma line.
Proof.
  revert result current q.
  induction line as [|c|c c' r IH1 IH2] using string_ind2;
    intros result current q.
  - simpl. rewrite length_app. simpl. lia.
  - simpl. destruct q, (Ascii.eqb c dquote), (Ascii.eqb c comma);
      rewrite ?length_app; simpl; lia.
  - change (scan (String c (String c' r)) result current q) with
      (if q then
         if Ascii.eqb c dquote then
           if Ascii.eqb c' dquote
           then scan r result (push_char current dquote) true
           else scan (String c' r) result current false
         else scan (String c' r) result (push_char current c) true
       else
         if Ascii.eqb c dquote then scan (String c' r) result current true
         else if Ascii.eqb c comma
              then scan (String c' r) (result ++ [trim current]) "" false
              else scan (String c' r) result (push_char current c) false).
    change (count_char comma (String c (String c' r))) with
      ((if Ascii.eqb c comma then 1 else 0) +
       ((if Ascii.eqb c' comma then 1 else 0) + count_char comma r)).
    change (count_char comma (String c' r)) with
      ((if Ascii.eqb c' comma then 1 else 0) + count_char comma r) in IH2.
    pose proof (IH1 result (push_char current dquote) true).
    pose proof (IH2 result current false).
    pose proof (IH2 result current true).
    pose proof (IH2 result (push_char current c) true).
    pose proof (IH2 result (push_char current c) false).
    pose proof (IH2 (result ++ [trim current]) "" false) as H5.
    rewrite length_app in H5. change (length [trim current]) with 1 in H5.
    destruct q, (Ascii.eqb c dquote), (Ascii.eqb c' dquote), (Ascii.eqb c comma),
      (Ascii.eqb c' comma); lia.
Qed.

(** X9. Fields of a line. Whatever the line, [parseCSVLine] returns at
    least one field and at most one more than the line has commas, and
    every field it returns is trimmed, quoted or not. *)
Theorem parseCSVLine_fields line :
  1 ≤ length (parseCSVLine line) ∧
  length (parseCSVLine line) ≤ 1 + count_char comma line ∧
  Forall (λ f, trim f = f) (parseCSVLine line).
Proof.
  unfold parseCSVLine. destruct (scan_length line [] "" false) as [H1 H2].
  split_and!; [done|done|]. by apply scan_trimmed.
Qed.

(** The loop body, case by case. *)
Lemma scan_open r res cur : scan (String dquote r) res cur false = scan r res cur true.
Proof. reflexivity. Qed.

Lemma scan_comma r res cur :
  scan (String comma r) res cur false = scan r (res ++ [trim cur]) "" false.
Proof. reflexivity. Qed.

Lemma scan_plain_char c r res cur :
  Ascii.eqb c dquote = false → Ascii.eqb c comma = false →
  scan (String c r) res cur false = scan r res (push_char cur c) false.
Proof. intros H1 H2. simpl. by rewrite H1, H2. Qed.

Lemma scan_quoted_char c r res cur :
  Ascii.eqb c dquote = false →
  scan (String c r) res cur true = scan r res (push_char cur c) true.
Proof. intros H1. simpl. by rewrite H1. Qed.

Lemma scan_escaped r res cur :
  scan (String dquote (String dquote r)) res cur true
  = scan r res (push_char cur dquote) true.
Proof. reflexivity. Qed.

Lemma scan_close tail res cur :
  match tail with String c _ => Ascii.eqb c dquote = false | EmptyString => True end →
  scan (String dquote tail) res cur true = scan tail res cur false.
Proof. destruct tail as [|c r]; [done|]. intros H. simpl. by rewrite H. Qed.

Lemma scan_plain line result current :
  count_char dquote line = 0 →
  scan line result current false =
  result ++ map trim (match split comma line with
                      | x :: xs => (current +:+ x) :: xs
                      | [] => [current]
                      end).
Proof.
  revert result current. induction line as [|c r IH]; intros result current Hq.
  - simpl. by rewrite str_app_nil_r.
  - change (count_char dquote (String c r)) with
      ((if Ascii.eqb c dquote then 1 else 0) + count_char dquote r) in Hq.
    destruct (Ascii.eqb c dquote) eqn:Hd; [done|].
    pose proof (split_nonempty comma r) as Hne.
    destruct (Ascii.eqb c comma) eqn:Hc.
    + apply Ascii.eqb_eq in Hc as ->. rewrite scan_comma, IH by done.
      simpl. destruct (split comma r) as [|x xs]; [done|].
      rewrite str_app_nil_r, str_app_nil_l. simpl. by rewrite <- app_assoc.
    + rewrite scan_plain_char, IH by done.
      simpl. rewrite Hc. destruct (split comma r) as [|x xs]; [done|].
      by rewrite push_char_app.
Qed.

Lemma scan_plain_line line :
  count_char dquote line = 0 → scan line [] "" false = map trim (split comma line).
Proof.
  intros Hq. rewrite scan_plain by done.
  pose proof (split_nonempty comma line). by destruct (split comma line).
Qed.

(** X10. A line without quotes. A line in which no double quote occurs is
    cut at its commas and every piece is trimmed. *)
Theorem parseCSVLine_plain line :
  countQuotes line = 0 → parseCSVLine line = map trim (split comma line).
Proof.
  intros Hq. rewrite countQuotes_count in Hq. unfold parseCSVLine.
  by apply scan_plain_line.
Qed.

Lemma parseCSVLine_plain_witness :
  countQuotes "7, Mona Lisa ,painting" = 0 ∧
  parseCSVLine "7, Mona Lisa ,painting"
  = map trim (split comma "7, Mona Lisa ,painting").
Proof.
  split; [reflexivity|]. apply (parseCSVLine_plain "7, Mona Lisa ,painting").
  reflexivity.
Defined.

Lemma scan_escape f tail result current :
  match tail with String c _ => Ascii.eqb c dquote = false | EmptyString => True end →
  scan (escape f +:+ String dquote tail) result current true
  = scan tail result (current +:+ f) false.
Proof.
  intros Htail. revert current. induction f as [|c r IH]; intros current.
  - rewrite str_app_nil_r. by apply scan_close.
  - simpl. destruct (Ascii.eqb c dquote) eqn:Hc.
    + apply Ascii.eqb_eq in Hc as ->. rewrite !str_app_cons, scan_escaped, IH.
      by rewrite push_char_app.
    + rewrite str_app_cons, scan_quoted_char, IH by done. by rewrite push_char_app.
Qed.

Lemma scan_quote f tail result :
  match tail with String c _ => Ascii.eqb c dquote = false | EmptyString => True end →
  scan (quote f +:+ tail) result "" false = scan tail result f false.
Proof.
  intros Htail. unfold quote. rewrite str_app_cons, str_app_assoc, str_app_cons, str_app_nil_l.
  rewrite scan_open. by apply scan_escape.
Qed.

Lemma write_line_cons f f' fs :
  write_line (f :: f' :: fs) = quote f +:+ String comma (write_line (f' :: fs)).
Proof. reflexivity. Qed.

Lemma scan_write_line fields result :
  fields ≠ [] →
  scan (write_line fields) result "" false = result ++ map trim fields.
Proof.
  revert result. induction fields as [|f fs IH]; intros result Hne; [done|].
  destruct fs as [|f' fs].
  - change (write_line [f]) with (quote f).
    rewrite <- (str_app_nil_r (quote f)), scan_quote by done. done.
  - rewrite write_line_cons, scan_quote by done.
    rewrite scan_comma, IH by done. by rewrite <- app_assoc.
Qed.

(** X11. Reading back a written record. A record of at least one field,
    each written between double quotes with its own double quotes
    doubled, is read back field by field, whatever commas, quotes or line
    breaks the fields contain; the reader trims every field, quoted or
    not. *)
Theorem parseCSVLine_write_line fields :
  fields ≠ [] → parseCSVLine (write_line fields) = map trim fields.
Proof. intros Hne. unfold parseCSVLine. by rewrite scan_write_line. Qed.

Lemma parseCSVLine_write_line_witness :
  ["a,b"; " c "; String dquote "d"] ≠ [] ∧
  parseCSVLine (write_line ["a,b"; " c "; String dquote "d"])
  = map trim ["a,b"; " c "; String dquote "d"].
Proof.
  split; [discriminate|].
  apply (parseCSVLine_write_line ["a,b"; " c "; String dquote "d"]). discriminate.
Defined.

(** *** Rows *)

Lemma set_prop_lookup k v row k' :
  set_prop k v row !! k' =
  if decide (k = k' ∧ k ≠ "__proto__") then Some v else row !! k'.
Proof.
  unfold set_prop. destruct (decide (k = "__proto__")) as [Hp|Hp].
  - rewrite decide_False; [done|]. tauto.
  - rewrite lookup_insert. destruct (decide (k = k')) as [->|Hk].
    + by rewrite decide_True.
    + rewrite decide_False; [done|]. tauto.
Qed.

Lemma make_row_prefix (hs vs : list string) n :
  (∀ k v,
     foldl (λ row j, set_prop (default "" (hs !! j)) (default "" (vs !! j)) row)
           ∅ (seq 0 n) !! k = Some v →
     k ≠ "__proto__" ∧
     ∃ j, j < n ∧ default "" (hs !! j) = k ∧ v = default "" (vs !! j) ∧
          ∀ j', j < j' → j' < n → default "" (hs !! j') ≠ k) ∧
  (∀ j, j < n → default "" (hs !! j) ≠ "__proto__" →
     is_Some (foldl (λ row j, set_prop (default "" (hs !! j))
                                (default "" (vs !! j)) row)
                    ∅ (seq 0 n) !! default "" (hs !! j))).
Proof.
  induction n as [|n [IH1 IH2]].
  - split; [intros k v; simpl; by rewrite lookup_empty|lia].
  - rewrite seq_S, foldl_app. simpl. split.
    + intros k v. rewrite set_prop_lookup.
      destruct (decide (default "" (hs !! n) = k ∧ default "" (hs !! n) ≠ "__proto__"))
        as [[Hk Hp]|Hno].
      * intros [= <-]. split; [congruence|].
        exists n. split_and!; [lia|done|done|lia].
      * intros Hl. destruct (IH1 k v Hl) as (Hp & j & Hj & Hh & Hv & Hlast).
        split; [done|]. exists j. split_and!; [lia|done|done|].
        intros j' H1 H2. destruct (decide (j' = n)) as [->|]; [|apply Hlast; lia].
        intros Heq. apply Hno. split; [done|congruence].
    + intros j Hj Hp. rewrite set_prop_lookup. case_decide; [done|].
      destruct (decide (j = n)) as [->|]; [tauto|]. apply IH2; [lia|done].
Qed.

(** A row has exactly the headers as keys, the header [__proto__]
    excepted, which a JavaScript object does not store. *)
Lemma make_row_keys hs vs k :
  is_Some (make_row hs vs !! k) ↔ k ∈ hs ∧ k ≠ "__proto__".
Proof.
  unfold make_row. destruct (make_row_prefix hs vs (length hs)) as [H1 H2]. split.
  - intros [v Hv]. destruct (H1 k v Hv) as (Hp & j & Hj & Hh & _).
    split; [|done]. destruct (lookup_lt_is_Some_2 hs j Hj) as [h Hl].
    rewrite Hl in Hh. simpl in Hh. subst. by eapply list_elem_of_lookup_2.
  - intros [Hin Hp]. apply list_elem_of_lookup_1 in Hin as [j Hj].
    pose proof (lookup_lt_Some _ _ _ Hj) as Hlt.
    specialize (H2 j Hlt). rewrite Hj in H2. by apply H2.
Qed.

(** X12. The values of a row. The value under a header is the field in the
    position of the last column with that header; a record with too few
    fields gets the empty string there, and fields beyond the last
    header are dropped. *)
Theorem make_row_value hs vs j h :
  hs !! j = Some h → h ≠ "__proto__" →
  (∀ j', j < j' → hs !! j' ≠ Some h) →
  make_row hs vs !! h = Some (default "" (vs !! j)).
Proof.
  intros Hj Hp Hlast. unfold make_row.
  destruct (make_row_prefix hs vs (length hs)) as [H1 H2].
  pose proof (lookup_lt_Some _ _ _ Hj) as Hlt.
  specialize (H2 j Hlt). rewrite Hj in H2. destruct (H2 Hp) as [v Hv].
  simpl in Hv. rewrite Hv. f_equal.
  destruct (H1 h v Hv) as (_ & j0 & Hj0 & Hh0 & -> & Hlast0).
  destruct (lookup_lt_is_Some_2 hs j0 Hj0) as [h0 Hl0].
  rewrite Hl0 in Hh0. simpl in Hh0. subst h0.
  destruct (Nat.lt_trichotomy j j0) as [Hlt'|[->|Hgt]]; [|done|].
  - by destruct (Hlast j0 Hlt').
  - destruct (Hlast0 j Hgt Hlt). by rewrite Hj.
Qed.

Lemma make_row_value_witness :
  ["id"; "title"; "id"] !! 2 = Some "id" ∧
  make_row ["id"; "title"; "id"] ["7"; "Mona Lisa"] !! "id"
  = Some (default "" (["7"; "Mona Lisa"] !! 2)).
Proof.
  split; [reflexivity|].
  apply (make_row_value ["id"; "title"; "id"] ["7"; "Mona Lisa"] 2 "id").
  - reflexivity.
  - discriminate.
  - intros [|[|[|j']]] Hj'; (lia || discriminate).
Defined.

Lemma collect_shape hs line rest :
  length (collect hs line rest) ≤ S (length rest) ∧
  Forall (λ row, ∃ l, row = make_row hs (parseCSVLine l)) (collect hs line rest).
Proof.
  assert (∀ l, length (emit hs l) ≤ 1 ∧
               Forall (λ row, ∃ l, row = make_row hs (parseCSVLine l)) (emit hs l))
    as Hemit.
  { intros l. unfold emit. case_decide; simpl; split; try lia; [done|].
    repeat constructor. by exists l. }
  revert line. induction rest as [|next rest IH]; intros line; simpl.
  - destruct (Nat.odd _); rewrite ?app_nil_r; apply Hemit.
  - destruct (Nat.odd _).
    + destruct (IH (line +:+ String newline "" +:+ next)). split; [lia|done].
    + destruct (IH next) as [Hl Hf]. destruct (Hemit line) as [Hl' Hf'].
      rewrite length_app. split; [lia|]. by apply Forall_app.
Qed.

(** X13. The rows of a file. [parseCSV] returns at most one row per line
    break of the text, none for a text of one line, and every row has
    exactly the headers of the first line as keys ([__proto__]
    excepted). *)
Theorem parseCSV_rows text :
  length (parseCSV text) ≤ count_char newline text ∧
  Forall (λ row, ∀ k,
            is_Some (row !! k) ↔
            k ∈ parseCSVLine (default "" (head (split newline text))) ∧
            k ≠ "__proto__")
         (parseCSV text).
Proof.
  unfold parseCSV. pose proof (split_length newline text) as Hlen.
  destruct (split newline text) as [|l0 [|l1 rest]]; simpl in *.
  - split; [lia|done].
  - split; [lia|done].
  - destruct (collect_shape (parseCSVLine l0) l1 rest) as [Hl Hf].
    split; [lia|]. eapply Forall_impl; [exact Hf|].
    intros row [l ->] k. apply make_row_keys.
Qed.

Lemma split_count_zero a sep s :
  count_char a s = 0 → Forall (λ l, count_char a l = 0) (split sep s).
Proof.
  induction s as [|c r IH]; simpl; [by repeat constructor|].
  intros H. assert (count_char a r = 0) as Hr by lia.
  specialize (IH Hr). destruct (Ascii.eqb c sep).
  - by constructor.
  - pose proof (split_nonempty sep r).
    destruct (split sep r) as [|x xs]; [done|].
    apply Forall_cons in IH as [Hx Hxs]. constructor; [|done]. simpl. lia.
Qed.

Lemma collect_plain hs line rest :
  count_char dquote line = 0 → Forall (λ l, count_char dquote l = 0) rest →
  collect hs line rest =
  (λ l, make_row hs (map trim (split comma l)))
    <$> filter (λ l, trim l ≠ "") (line :: rest).
Proof.
  assert (∀ l, count_char dquote l = 0 →
            emit hs l = (λ l, make_row hs (map trim (split comma l)))
                          <$> filter (λ l, trim l ≠ "") [l]) as Hemit.
  { intros l Hl. unfold emit. rewrite filter_cons, filter_nil.
    destruct (decide (trim l = "")) as [He|He].
    - by rewrite decide_False by tauto.
    - rewrite decide_True by done. simpl.
      unfold parseCSVLine. by rewrite scan_plain_line. }
  intros Hline Hrest. revert line Hline.
  induction Hrest as [|next rest Hnext Hrest IH]; intros line Hline; simpl;
    rewrite countQuotes_count, Hline; simpl.
  - rewrite app_nil_r. by apply Hemit.
  - rewrite IH, Hemit by done. rewrite <- fmap_app. f_equal.
    rewrite (filter_cons _ line). rewrite (filter_cons _ line), filter_nil.
    by destruct (decide (trim line ≠ "")).
Qed.

(** X14. A file without quotes. For a text in which no double quote
    occurs, the rows are, in order, those of the lines after the first
    that are not blank, each cut at its commas with the pieces trimmed
    and stored under the headers, which are the trimmed pieces of the
    first line. *)
Theorem parseCSV_plain text :
  countQuotes text = 0 →
  parseCSV text =
  (λ l, make_row (map trim (split comma (default "" (head (split newline text)))))
          (map trim (split comma l)))
    <$> filter (λ l, trim l ≠ "") (tail (split newline text)).
Proof.
  intros Hq. rewrite countQuotes_count in Hq.
  pose proof (split_count_zero dquote newline text Hq) as Hall.
  unfold parseCSV. destruct (split newline text) as [|l0 [|l1 rest]]; simpl; [done..|].
  apply Forall_cons in Hall as [H0 Hall]. apply Forall_cons in Hall as [H1 Hall].
  unfold parseCSVLine at 1. rewrite scan_plain_line by done.
  by rewrite collect_plain.
Qed.

Lemma parseCSV_plain_witness :
  countQuotes ("id,title" +:+ String newline "7, Mona Lisa") = 0 ∧
  parseCSV ("id,title" +:+ String newline "7, Mona Lisa") =
  (λ l, make_row
          (map trim (split comma
             (default "" (head (split newline
                ("id,title" +:+ String newline "7, Mona Lisa"))))))
          (map trim (split comma l)))
    <$> filter (λ l, trim l ≠ "")
          (tail (split newline ("id,title" +:+ String newline "7, Mona Lisa"))).
Proof.
  split; [reflexivity|].
  apply (parseCSV_plain ("id,title" +:+ String newline "7, Mona Lisa")).
  reflexivity.
Defined.

(** *** Records that span several lines *)

Lemma countQuotes_app s t : countQuotes (s +:+ t) = countQuotes s + countQuotes t.
Proof. rewrite !countQuotes_count. apply count_char_app. Qed.

Lemma odd_countQuotes_push acc c :
  Nat.odd (countQuotes (push_char acc c)) =
  if Ascii.eqb c dquote then negb (Nat.odd (countQuotes acc))
  else Nat.odd (countQuotes acc).
Proof.
  unfold push_char. rewrite countQuotes_app. simpl.
  destruct (Ascii.eqb c dquote).
  - rewrite Nat.add_0_r, Nat.add_1_r, Nat.odd_succ, <- Nat.negb_odd. done.
  - by rewrite !Nat.add_0_r.
Qed.

Lemma continue_unfold hs line rest :
  collect hs line rest =
  if Nat.odd (countQuotes line) then
    match rest with
    | next :: rest' =>
        collect hs (line +:+ String newline EmptyString +:+ next) rest'
    | [] => emit hs line
    end
  else
    emit hs line ++
    match rest with
    | next :: rest' => collect hs next rest'
    | [] => []
    end.
Proof. by destruct rest. Qed.

(** The inner loop gathers exactly the pieces of one record. *)
Lemma collect_record hs L :
  ∀ acc rest,
    breaks_in (Nat.odd (countQuotes acc)) L = true →
    parity (Nat.odd (countQuotes acc)) L = false →
    match split newline L with
    | x :: xs =>
        collect hs (acc +:+ x) (xs ++ rest) =
        emit hs (acc +:+ L) ++
        match rest with
        | next :: rest' => collect hs next rest'
        | [] => []
        end
    | [] => True
    end.
Proof.
  induction L as [|c r IH]; intros acc rest Hb Hp.
  - simpl in *. rewrite continue_unfold, str_app_nil_r, Hp. done.
  - simpl in Hb, Hp. apply andb_true_iff in Hb as [Hnl Hb].
    pose proof (split_nonempty newline r) as Hne.
    change (split newline (String c r)) with
      (if Ascii.eqb c newline then EmptyString :: split newline r
       else match split newline r with
            | x :: xs => String c x :: xs
            | [] => [String c EmptyString]
            end).
    destruct (Ascii.eqb c newline) eqn:Hc.
    + apply Ascii.eqb_eq in Hc as ->.
      change (Ascii.eqb newline dquote) with false in Hb, Hp.
      specialize (IH (push_char acc newline) rest).
      rewrite odd_countQuotes_push in IH.
      change (Ascii.eqb newline dquote) with false in IH.
      specialize (IH Hb Hp).
      destruct (split newline r) as [|x' xs']; [done|].
      rewrite continue_unfold, str_app_nil_r, Hnl. simpl.
      rewrite !push_char_app in IH. exact IH.
    + specialize (IH (push_char acc c) rest).
      rewrite odd_countQuotes_push in IH. specialize (IH Hb Hp).
      destruct (split newline r) as [|x' xs']; [done|].
      rewrite !push_char_app in IH. done.
Qed.

Lemma parity_app q s t : parity q (s +:+ t) = parity (parity q s) t.
Proof. revert q. induction s as [|c r IH]; intros q; [done|]. apply IH. Qed.

Lemma breaks_in_app q s t :
  breaks_in q (s +:+ t) = breaks_in q s && breaks_in (parity q s) t.
Proof.
  revert q. induction s as [|c r IH]; intros q; [done|].
  rewrite str_app_cons. simpl. rewrite IH. by rewrite andb_assoc.
Qed.

Lemma escape_inside f : breaks_in true (escape f) = true ∧ parity true (escape f) = true.
Proof.
  induction f as [|c r [IH1 IH2]]; [done|]. simpl.
  destruct (Ascii.eqb c dquote) eqn:Hc.
  - simpl. by rewrite IH1, IH2.
  - simpl. rewrite Hc, IH1, IH2. by destruct (Ascii.eqb c newline).
Qed.

Lemma quote_outside f : breaks_in false (quote f) = true ∧ parity false (quote f) = false.
Proof.
  destruct (escape_inside f) as [H1 H2]. unfold quote. split.
  - change (breaks_in false (String dquote (escape f +:+ String dquote "")))
      with (breaks_in true (escape f +:+ String dquote "")).
    rewrite breaks_in_app, H1, H2. done.
  - change (parity false (String dquote (escape f +:+ String dquote "")))
      with (parity true (escape f +:+ String dquote "")).
    rewrite parity_app, H2. done.
Qed.

Lemma write_line_outside fields :
  breaks_in false (write_line fields) = true ∧
  parity false (write_line fields) = false.
Proof.
  induction fields as [|f fs [IH1 IH2]]; [done|].
  destruct (quote_outside f) as [H1 H2].
  destruct fs as [|f' fs]; [done|].
  rewrite write_line_cons, breaks_in_app, parity_app, H1, H2. done.
Qed.

Lemma split_app_sep sep a b :
  split sep (a +:+ String sep b) = split sep a ++ split sep b.
Proof.
  induction a as [|c r IH].
  - rewrite str_app_nil_l. simpl. by rewrite Ascii.eqb_refl.
  - rewrite str_app_cons. simpl. rewrite IH.
    pose proof (split_nonempty sep r).
    destruct (Ascii.eqb c sep); [done|]. by destruct (split sep r).
Qed.

Lemma split_whole sep s : count_char sep s = 0 → split sep s = [s].
Proof.
  induction s as [|c r IH]; [done|]. simpl.
  destruct (Ascii.eqb c sep); [done|]. intros H. by rewrite IH.
Qed.

Lemma escape_newlines f : count_char newline (escape f) = count_char newline f.
Proof.
  induction f as [|c r IH]; [done|]. simpl.
  destruct (Ascii.eqb c dquote) eqn:Hc; simpl; rewrite IH; [|done].
  apply Ascii.eqb_eq in Hc as ->. done.
Qed.

Lemma write_line_newlines fields :
  Forall (λ f, count_char newline f = 0) fields →
  count_char newline (write_line fields) = 0.
Proof.
  induction 1 as [|f fs Hf Hfs IH]; [done|].
  assert (count_char newline (quote f) = 0) as Hq.
  { unfold quote. simpl. rewrite count_char_app, escape_newlines, Hf. done. }
  destruct fs as [|f' fs]; [done|].
  rewrite write_line_cons, count_char_app, Hq. simpl. by rewrite IH.
Qed.

Lemma trim_write_line fields : fields ≠ [] → trim (write_line fields) ≠ "".
Proof.
  intros Hne. destruct fields as [|f fs]; [done|].
  assert (∃ r, write_line (f :: fs) = String dquote r) as [r ->].
  { destruct fs; eexists; reflexivity. }
  unfold trim. rewrite trimStart_fixed by done. simpl.
  by destruct (trimEnd r).
Qed.

Lemma write_file_cons r r' rs :
  write_file (r :: r' :: rs)
  = write_line r +:+ String newline (write_file (r' :: rs)).
Proof. reflexivity. Qed.

Lemma collect_file hs rs :
  ∀ r, Forall (λ r, r ≠ []) (r :: rs) →
    match split newline (write_file (r :: rs)) with
    | x :: xs =>
        collect hs x xs = (λ r, make_row hs (map trim r)) <$> (r :: rs)
    | [] => True
    end.
Proof.
  induction rs as [|r' rs IH]; intros r Hne.
  - apply Forall_cons in Hne as [Hr _].
    change (write_file [r]) with (write_line r).
    destruct (write_line_outside r) as [Hb Hp].
    pose proof (collect_record hs (write_line r) "" [] Hb Hp) as Hc.
    destruct (split newline (write_line r)) as [|x xs]; [done|].
    rewrite app_nil_r, !str_app_nil_l, app_nil_r in Hc. rewrite Hc.
    unfold emit. rewrite decide_False by (by apply trim_write_line).
    unfold parseCSVLine. by rewrite scan_write_line.
  - apply Forall_cons in Hne as [Hr Hne].
    rewrite write_file_cons, split_app_sep.
    specialize (IH r' Hne).
    destruct (write_line_outside r) as [Hb Hp].
    pose proof (split_nonempty newline (write_file (r' :: rs))) as Hne'.
    destruct (split newline (write_file (r' :: rs))) as [|x' xs']; [done|].
    pose proof (collect_record hs (write_line r) "" (x' :: xs') Hb Hp) as Hc.
    pose proof (split_nonempty newline (write_line r)) as Hne''.
    destruct (split newline (write_line r)) as [|x xs]; [done|].
    rewrite !str_app_nil_l in Hc. simpl. rewrite Hc, IH.
    unfold emit. rewrite decide_False by (by apply trim_write_line).
    unfold parseCSVLine. by rewrite scan_write_line.
Qed.

(** X15. Reading back a written file. A file written one record per line,
    every field between double quotes, is read back record by record
    under the headers of its first record, fields with commas, quotes and
    line breaks included (every field is trimmed); the headers themselves
    must not contain a line break, and no record may be empty. *)
Theorem parseCSV_write_file hs rows :
  hs ≠ [] → Forall (λ h, count_char newline h = 0) hs →
  Forall (λ r, r ≠ []) rows →
  parseCSV (write_file (hs :: rows))
  = (λ r, make_row (map trim hs) (map trim r)) <$> rows.
Proof.
  intros Hhs Hnl Hrows. unfold parseCSV.
  destruct rows as [|r rs].
  - change (write_file [hs]) with (write_line hs).
    by rewrite split_whole by (by apply write_line_newlines).
  - rewrite write_file_cons, split_app_sep.
    rewrite split_whole by (by apply write_line_newlines).
    pose proof (collect_file (parseCSVLine (write_line hs)) rs r Hrows) as Hc.
    pose proof (split_nonempty newline (write_file (r :: rs))) as Hne.
    destruct (split newline (write_file (r :: rs))) as [|x xs]; [done|].
    simpl. rewrite Hc. unfold parseCSVLine. by rewrite scan_write_line.
Qed.

Lemma parseCSV_write_file_witness :
  ["id"; "title"] ≠ [] ∧
  Forall (λ h, count_char newline h = 0) ["id"; "title"] ∧
  Forall (λ r : list string, r ≠ [])
    [["7"; String newline "Mona, Lisa"]; ["8"; String dquote "x"]] ∧
  parseCSV (write_file (["id"; "title"] ::
              [["7"; String newline "Mona, Lisa"]; ["8"; String dquote "x"]]))
  = (λ r, make_row (map trim ["id"; "title"]) (map trim r))
      <$> [["7"; String newline "Mona, Lisa"]; ["8"; String dquote "x"]].
Proof.
  assert (["id"; "title"] ≠ []) as H1 by discriminate.
  assert (Forall (λ h, count_char newline h = 0) ["id"; "title"]) as H2
    by (repeat constructor).
  assert (Forall (λ r : list string, r ≠ [])
            [["7"; String newline "Mona, Lisa"]; ["8"; String dquote "x"]]) as H3
    by (repeat constructor; discriminate).
  split_and!; [done..|].
  exact (parseCSV_write_file _ _ H1 H2 H3).
Defined.

Lemma concat_merge (a b : string) (r : list string) :
  String.concat (String newline "") ((a +:+ String newline "" +:+ b) :: r)
  = String.concat (String newline "") (a :: b :: r).
Proof.
  destruct r as [|c r]; [done|].
  change (String.concat (String newline "") ((a +:+ String newline "" +:+ b) :: c :: r))
    with ((a +:+ String newline "" +:+ b) +:+ String newline "" +:+
          String.concat (String newline "") (c :: r)).
  change (String.concat (String newline "") (a :: b :: c :: r))
    with (a +:+ String newline "" +:+ b +:+ String newline "" +:+
          String.concat (String newline "") (c :: r)).
  by rewrite !str_app_assoc.
Qed.

Lemma collect_unterminated hs line rest :
  Nat.odd (countQuotes line) = true →
  Forall (λ l, Nat.odd (countQuotes l) = false) rest →
  collect hs line rest = emit hs (String.concat (String newline "") (line :: rest)).
Proof.
  intros Hodd Hrest. revert line Hodd.
  induction Hrest as [|next rest Hnext _ IH]; intros line Hodd.
  - simpl. by rewrite Hodd.
  - rewrite continue_unfold, Hodd, <- concat_merge. apply IH.
    rewrite !countQuotes_app, !Nat.odd_add, Hodd, Hnext. done.
Qed.

(** X16. A quote that is never closed. When the first line after the
    header has an odd number of double quotes and every later line an
    even number, the whole rest of the file is read as one record: the
    inner loop runs to the end of the file and the file yields at most
    one row. *)
Theorem parseCSV_unterminated text l0 line rest :
  split newline text = l0 :: line :: rest →
  Nat.odd (countQuotes line) = true →
  Forall (λ l, Nat.odd (countQuotes l) = false) rest →
  parseCSV text =
  emit (parseCSVLine l0) (String.concat (String newline "") (line :: rest)).
Proof.
  intros Hsplit Hodd Hrest. unfold parseCSV. rewrite Hsplit. simpl.
  by apply collect_unterminated.
Qed.

Lemma parseCSV_unterminated_witness :
  split newline ("id,title" +:+ String newline (String dquote "7,Mona")
                 +:+ String newline "8,Lisa")
    = ["id,title"; String dquote "7,Mona"; "8,Lisa"] ∧
  parseCSV ("id,title" +:+ String newline (String dquote "7,Mona")
            +:+ String newline "8,Lisa")
  = emit (parseCSVLine "id,title")
      (String.concat (String newline "") [String dquote "7,Mona"; "8,Lisa"]).
Proof.
  split; [reflexivity|].
  apply (parseCSV_unterminated _ "id,title" (String dquote "7,Mona") ["8,Lisa"]).
  - reflexivity.
  - reflexivity.
  - repeat constructor.
Defined.

(** *** The join *)

Lemma consider_candidate om st img :
  consider om st img =
  match candidate om img with
  | Some (oid, e) =>
      if bool_decide (oid ∈ st.2) then st else (st.1 ++ [e], st.2 ∪ {[oid]})
  | None => st
  end.
Proof.
  unfold consider, candidate.
  destruct (bool_decide (img !! "viewtype" = Some "primary")); simpl; [|done].
  destruct (truthy (img !! "uuid")); simpl; [|done].
  destruct (truthy (img !! "depictstmsobjectid")); simpl; [|done].
  destruct (om !! (img !! "depictstmsobjectid")) as [obj|].
  - destruct (includes _ "painting"); simpl.
    + destruct (truthy (trim <$> obj !! "title")); simpl;
        by destruct (bool_decide _).
    + by destruct (bool_decide _).
  - by destruct (bool_decide _).
Qed.

Lemma filter_filter_implied {A} (P Q : A → Prop)
    `{!∀ x, Decision (P x)} `{!∀ x, Decision (Q x)} (l : list A) :
  (∀ x, P x → Q x) → filter P (filter Q l) = filter P l.
Proof.
  intros HPQ. induction l as [|x l IH]; [done|].
  rewrite (filter_cons Q). destruct (decide (Q x)) as [HQ|HQ].
  - rewrite !filter_cons, IH. done.
  - rewrite IH, filter_cons. rewrite decide_False; [done|]. intros HP. by apply HQ, HPQ.
Qed.

Lemma filter_filter_and {A} (P Q : A → Prop)
    `{!∀ x, Decision (P x)} `{!∀ x, Decision (Q x)} (l : list A) :
  filter P (filter Q l) = filter (λ x, P x ∧ Q x) l.
Proof.
  induction l as [|x l IH]; [done|].
  rewrite (filter_cons Q), (filter_cons (λ x, P x ∧ Q x)).
  destruct (decide (Q x)) as [HQ|HQ].
  - rewrite filter_cons, IH. destruct (decide (P x)) as [HP|HP].
    + by rewrite decide_True.
    + rewrite decide_False; [done|]. tauto.
  - rewrite IH. rewrite decide_False; [done|]. tauto.
Qed.

Lemma filter_equiv {A} (P Q : A → Prop)
    `{!∀ x, Decision (P x)} `{!∀ x, Decision (Q x)} (l : list A) :
  (∀ x, P x ↔ Q x) → filter P l = filter Q l.
Proof.
  intros HPQ. induction l as [|x l IH]; [done|].
  rewrite !filter_cons, IH. destruct (decide (P x)) as [HP|HP].
  - rewrite decide_True; [done|]. by apply HPQ.
  - rewrite decide_False; [done|]. by rewrite <- HPQ.
Qed.

Lemma select_loop om images catalog (seen : gset string) :
  foldl (consider om) (catalog, seen) images =
  (catalog ++ (snd <$> filter (λ p, p.1 ∉ seen)
                         (keep_first (omap (candidate om) images))),
   seen ∪ list_to_set (fst <$> omap (candidate om) images)).
Proof.
  revert catalog seen. induction images as [|img images IH]; intros catalog seen.
  - simpl. rewrite app_nil_r. f_equal. set_solver.
  - simpl. rewrite consider_candidate.
    destruct (candidate om img) as [[oid e]|] eqn:Hc; simpl; [|apply IH].
    destruct (bool_decide (oid ∈ seen)) eqn:Hin.
    + apply bool_decide_eq_true in Hin. rewrite IH. f_equal.
      * f_equal. f_equal. rewrite filter_cons. simpl.
        rewrite decide_False; [|intros Hn; by apply Hn].
        symmetry. apply filter_filter_implied. intros [k v] Hk. simpl in *.
        intros ->. done.
      * set_solver.
    + apply bool_decide_eq_false in Hin. rewrite IH. f_equal.
      * rewrite <- app_assoc. f_equal. rewrite filter_cons. simpl.
        rewrite decide_True by done. simpl. f_equal. f_equal.
        rewrite filter_filter_and. apply filter_equiv.
        intros [k v]. simpl. set_solver.
      * set_solver.
Qed.

Lemma filter_all {A} (P : A → Prop) `{!∀ x, Decision (P x)} (l : list A) :
  (∀ x, P x) → filter P l = l.
Proof.
  intros HP. induction l as [|x l IH]; [done|].
  by rewrite filter_cons, decide_True, IH.
Qed.

Lemma keep_first_keys {A} (l : list (string * A)) :
  NoDup (fst <$> keep_first l) ∧ ∀ p, p ∈ keep_first l → p ∈ l.
Proof.
  induction l as [|[k v] l [IH1 IH2]]; simpl.
  - split; [constructor|done].
  - split.
    + constructor.
      * rewrite list_elem_of_fmap. intros ([k' v'] & Hk & Hin). simpl in Hk. subst k'.
        apply list_elem_of_filter in Hin as [Hne _]. by apply Hne.
      * clear IH2. induction (keep_first l) as [|[k' v'] l' IH]; [constructor|].
        rewrite filter_cons. simpl in *. apply NoDup_cons in IH1 as [Hk' Hl'].
        destruct (decide (k' ≠ k)); [|by apply IH].
        simpl. constructor; [|by apply IH].
        rewrite list_elem_of_fmap. intros ([k2 v2] & Hk2 & Hin2). simpl in Hk2. subst k2.
        apply list_elem_of_filter in Hin2 as [_ Hin2]. apply Hk'.
        rewrite list_elem_of_fmap. by exists (k', v2).
    + intros p. rewrite !elem_of_cons. intros [->|Hin]; [by left|].
      apply list_elem_of_filter in Hin as [_ Hin]. right. by apply IH2.
Qed.

(** X18. The join. The catalog holds, in the order of the images file,
    the entry of the first image of every object among the images that
    pass the tests of the loop (primary view, a [uuid], an object
    identifier found in the objects file, a classification that contains
    [painting] whatever its case, a title that is not blank); the
    identifiers of the objects entered are pairwise distinct, and
    [seenObjects] ends as the set of these identifiers. *)
Theorem select_first_per_object objects images :
  (select objects images).1 =
    snd <$> keep_first (omap (candidate (build_object_map objects)) images) ∧
  (select objects images).2 =
    list_to_set (fst <$> omap (candidate (build_object_map objects)) images) ∧
  NoDup (fst <$> keep_first (omap (candidate (build_object_map objects)) images)) ∧
  length (select objects images).1 = size (select objects images).2.
Proof.
  unfold select. rewrite select_loop. simpl.
  rewrite filter_all by set_solver.
  destruct (keep_first_keys (omap (candidate (build_object_map objects)) images))
    as [Hnd Hsub].
  split_and!; [done|set_solver|done|].
  rewrite length_fmap, <- (length_fmap fst).
  rewrite <- (size_list_to_set (C:=gset string)) by done.
  f_equal. apply set_eq. intros k. rewrite union_empty_l_L, !elem_of_list_to_set.
  rewrite !list_elem_of_fmap. split.
  - intros (p & -> & Hin). exists p. split; [done|]. by apply Hsub.
  - intros ([k' v] & -> & Hin). simpl.
    clear Hnd Hsub. revert Hin.
    induction (omap (candidate (build_object_map objects)) images) as [|[k0 v0] l IH].
    + by intros ?%elem_of_nil.
    + rewrite elem_of_cons. simpl. destruct (decide (k' = k0)) as [->|Hne].
      * intros _. exists (k0, v0). split; [done|]. by left.
      * intros [[=]|Hin]; [done|]. destruct (IH Hin) as ([k1 v1] & Hk1 & Hin1).
        simpl in Hk1. subst k1. exists (k', v1). split; [done|]. right.
        apply list_elem_of_filter. by split.
Qed.

Lemma build_object_map_snoc objects o :
  build_object_map (objects ++ [o])
  = <[o !! "objectid" := o]> (build_object_map objects).
Proof. unfold build_object_map. by rewrite foldl_app. Qed.

Lemma build_object_map_sound objects k obj :
  build_object_map objects !! k = Some obj →
  obj ∈ objects ∧ obj !! "objectid" = k.
Proof.
  revert obj. induction objects as [|o l IH] using rev_ind; intros obj.
  - unfold build_object_map. simpl. by rewrite lookup_empty.
  - rewrite build_object_map_snoc, lookup_insert. case_decide.
    + intros [= <-]. split; [|done]. apply elem_of_app. right. by left.
    + intros Hl. destruct (IH obj Hl). split; [|done]. apply elem_of_app. by left.
Qed.

(** X17. The lookup table of objects. Looking an identifier up in
    [objectMap] gives the last row of the objects file that carries this
    identifier, and nothing when no row does. *)
Theorem build_object_map_last objects k obj :
  build_object_map objects !! k = Some obj ↔
  ∃ l1 l2, objects = l1 ++ obj :: l2 ∧ obj !! "objectid" = k ∧
           Forall (λ o, o !! "objectid" ≠ k) l2.
Proof.
  revert obj. induction objects as [|o l IH] using rev_ind; intros obj.
  - unfold build_object_map. simpl. rewrite lookup_empty. split; [done|].
    intros (l1 & l2 & Heq & _). by destruct l1.
  - rewrite build_object_map_snoc, lookup_insert.
    destruct (decide (o !! "objectid" = k)) as [Hk|Hk].
    + split.
      * intros [= <-]. exists l, []. by split_and!.
      * intros (l1 & l2 & Heq & Hid & Hall).
        destruct l2 as [|o' l2 _] using rev_ind.
        -- apply app_inj_tail in Heq as [_ ->]. done.
        -- rewrite app_comm_cons, app_assoc in Heq.
           apply app_inj_tail in Heq as [_ ->].
           apply Forall_app in Hall as [_ Hall].
           apply Forall_cons in Hall as [Hne _]. simpl in Hne. congruence.
    + rewrite IH. split.
      * intros (l1 & l2 & -> & Hid & Hall). exists l1, (l2 ++ [o]).
        rewrite <- app_assoc. split_and!; [done|done|].
        apply Forall_app. split; [done|]. by apply Forall_singleton.
      * intros (l1 & l2 & Heq & Hid & Hall).
        destruct l2 as [|o' l2 _] using rev_ind.
        -- apply app_inj_tail in Heq as [_ ->]. done.
        -- rewrite app_comm_cons, app_assoc in Heq.
           apply app_inj_tail in Heq as [-> ->].
           apply Forall_app in Hall as [Hall _]. by exists l1, l2.
Qed.

Lemma truthy_Some v : truthy v = true → ∃ s, v = Some s ∧ s ≠ "".
Proof.
  destruct v as [s|]; simpl; [|done]. intros H.
  exists s. split; [done|]. apply negb_true_iff, bool_decide_eq_false in H. done.
Qed.

Lemma or_str_nonempty v d : d ≠ "" → or_str v d ≠ "".
Proof.
  intros Hd. unfold or_str. destruct v as [s|]; [|done].
  destruct (bool_decide (s = "")) eqn:Hs; [done|]. by apply bool_decide_eq_false in Hs.
Qed.

Lemma candidate_sound om img oid e :
  candidate om img = Some (oid, e) →
  ∃ obj t,
    img !! "viewtype" = Some "primary" ∧
    img !! "uuid" = Some (uuid e) ∧ uuid e ≠ "" ∧
    img !! "depictstmsobjectid" = Some oid ∧ oid ≠ "" ∧
    om !! Some oid = Some obj ∧
    includes (default "" (toLowerCase <$> obj !! "classification")) "painting" = true ∧
    obj !! "title" = Some t ∧ title e = trim t ∧ title e ≠ "" ∧
    e = entry_of (uuid e) (title e) obj.
Proof.
  unfold candidate.
  destruct (bool_decide (img !! "viewtype" = Some "primary")) eqn:Hv; [|done].
  apply bool_decide_eq_true in Hv.
  destruct (truthy (img !! "uuid")) eqn:Hu; [|done].
  destruct (truthy (img !! "depictstmsobjectid")) eqn:Ho; [|done]. simpl.
  apply truthy_Some in Hu as (u & Hu & Hune).
  apply truthy_Some in Ho as (o & Ho & Hone).
  rewrite Ho, Hu. simpl.
  destruct (om !! Some o) as [obj|] eqn:Hobj; [|done].
  destruct (includes _ "painting") eqn:Hp; [|done].
  destruct (truthy (trim <$> obj !! "title")) eqn:Ht; [|done]. simpl.
  apply truthy_Some in Ht as (t' & Ht & Htne).
  destruct (obj !! "title") as [t|] eqn:Htitle; [|done].
  simpl in Ht. injection Ht as <-.
  intros [= <- <-]. exists obj, t. simpl. by split_and!.
Qed.

(** X19. The entries. Every entry of the catalog comes from a primary
    image with a [uuid] and from the row of the objects file that
    [objectMap] holds for the image's object identifier; that row's
    classification contains [painting] in some case, the entry's title is
    the row's title trimmed and is not empty, and the artist is never
    empty, [Unknown Artist] standing in when both attributions are missing
    or empty. *)
Theorem catalog_entries objects images :
  Forall (λ e,
    ∃ img obj t,
      img ∈ images ∧ obj ∈ objects ∧
      img !! "viewtype" = Some "primary" ∧
      img !! "uuid" = Some (uuid e) ∧ uuid e ≠ "" ∧
      is_Some (img !! "depictstmsobjectid") ∧
      obj !! "objectid" = img !! "depictstmsobjectid" ∧
      includes (default "" (toLowerCase <$> obj !! "classification")) "painting"
        = true ∧
      obj !! "title" = Some t ∧ title e = trim t ∧ title e ≠ "" ∧
      trim (title e) = title e ∧ artist e ≠ "" ∧
      e = entry_of (uuid e) (title e) obj)
    (select objects images).1.
Proof.
  unfold select. rewrite select_loop. simpl. rewrite filter_all by set_solver.
  apply Forall_forall. intros e He.
  apply list_elem_of_fmap in He as ([oid e'] & -> & Hin). simpl.
  apply keep_first_keys in Hin. apply list_elem_of_omap in Hin as (img & Himg & Hc).
  destruct (candidate_sound _ _ _ _ Hc)
    as (obj & t & Hv & Hu & Hune & Ho & Hone & Hobj & Hp & Ht & Htt & Htne & He).
  apply build_object_map_sound in Hobj as (Hobjs & Hid).
  exists img, obj, t. split_and!; try done.
  - by rewrite Ho.
  - rewrite Htt. apply trim_idemp.
  - rewrite He. simpl. by apply or_str_nonempty, or_str_nonempty.
Qed.

End CatalogFacts.
